(** * The database mapping layer of blend/go-sdk/db

    A shallow embedding of the column metadata (column_collection.go) and
    of the connection life cycle (connection.go), with the properties the
    specification states about them.

    Go strings are byte sequences and are modelled by [string]; Go's [int]
    is modelled by [Z] (every integer met here is a field position); Go maps
    are [gmap]s; slices are triples of a backing array, a length and a
    capacity in an explicit store. *)

From Stdlib Require Import ZArith Ascii String List Bool Lia.
From stdpp Require Import base option list strings gmap.

Open Scope string_scope.

(** ** Package strings *)

Module strings.

(** [strings.HasPrefix]. *)
Definition HasPrefix (s pre : string) : bool := String.prefix pre s.

(** [strings.Split(s, sep)] for a separator of one byte. *)
Fixpoint Split (s : string) (sep : ascii) : list string :=
  match s with
  | EmptyString => [""]
  | String c s' =>
      if Ascii.eqb c sep then "" :: Split s' sep
      else match Split s' sep with
           | p :: ps => String c p :: ps
           | [] => [String c ""]
           end
  end.

(** [strings.Join(elems, sep)]. *)
Fixpoint Join (elems : list string) (sep : string) : string :=
  match elems with
  | [] => ""
  | [x] => x
  | x :: rest => x ++ sep ++ Join rest sep
  end.

(** [strings.Contains(s, substr)]. *)
Fixpoint Contains (s substr : string) : bool :=
  String.prefix substr s ||
  match s with
  | EmptyString => false
  | String _ s' => Contains s' substr
  end.

Definition isASCII (c : ascii) : bool := (N_of_ascii c <? 128)%N.

Definition isUpper (c : ascii) : bool :=
  (65 <=? N_of_ascii c)%N && (N_of_ascii c <=? 90)%N.

(** The lower-case form of one byte below [utf8.RuneSelf]. *)
Definition lowerByte (c : ascii) : ascii :=
  if isUpper c then ascii_of_N (N_of_ascii c + 32) else c.

(** Byte-wise lower-casing, the path [strings.ToLower] takes on text that is
    ASCII only. *)
Fixpoint lowerASCII (s : string) : string :=
  match s with
  | EmptyString => ""
  | String c s' => String (lowerByte c) (lowerASCII s')
  end.

Fixpoint allASCII (s : string) : bool :=
  match s with
  | EmptyString => true
  | String c s' => isASCII c && allASCII s'
  end.

Section Unicode.

(** [strings.ToLower] maps the text rune by rune.  A byte below 0x80 is a
    rune of its own wherever it stands, so the result is the bytes below
    0x80 lower-cased one by one, and every maximal run of bytes from 0x80
    on decoded, mapped through the Unicode tables and encoded again.  The
    tables are not part of this repository: [lowerNonASCII] stands for
    what they do to such a run. *)
Variable lowerNonASCII : string -> string.

Definition flushRun (run : string) : string :=
  match run with
  | EmptyString => ""
  | _ => lowerNonASCII run
  end.

Fixpoint lowerFrom (s run : string) : string :=
  match s with
  | EmptyString => flushRun run
  | String c s' =>
      if isASCII c
      then flushRun run ++ String (lowerByte c) (lowerFrom s' "")
      else lowerFrom s' (run ++ String c "")
  end.

(** [strings.ToLower]. *)
Definition ToLower (s : string) : string := lowerFrom s "".

End Unicode.

End strings.

(** ** Computations

    A Go function that reads and writes shared state and may panic is a
    function from the state to a result: a returned value with the new
    state, or a panic with the state it left behind. *)

Module go.

Inductive Result (S A : Type) :=
| Ok (a : A) (σ : S)
| Panic (msg : string) (σ : S).
Arguments Ok {S A}.
Arguments Panic {S A}.

Definition St (S A : Type) : Type := S -> Result S A.

Definition ret {S A} (a : A) : St S A := fun σ => Ok a σ.

Definition bind {S A B} (m : St S A) (k : A -> St S B) : St S B :=
  fun σ => match m σ with
           | Ok a σ' => k a σ'
           | Panic msg σ' => Panic msg σ'
           end.

Definition panic {S A} (msg : string) : St S A := fun σ => Panic msg σ.

(** [for _, x := range l] with the loop's variables in [acc]. *)
Fixpoint foldM {S A B} (body : B -> A -> St S B) (l : list A) (acc : B) : St S B :=
  match l with
  | [] => ret acc
  | x :: rest => bind (body acc x) (fun acc' => foldM body rest acc')
  end.

Definition forEach {S A} (body : A -> St S unit) (l : list A) : St S unit :=
  foldM (fun _ x => body x) l tt.

Definition nilDereference : string :=
  "invalid memory address or nil pointer dereference".
Definition indexOutOfRange : string := "index out of range".
Definition nilMapAssignment : string := "assignment to entry in nil map".

End go.

Notation "x <- m ;; k" := (go.bind m (fun x => k))
  (at level 100, m at next level, right associativity).
Notation "m ;;; k" := (go.bind m (fun _ => k))
  (at level 100, right associativity).

(** An [error] value that is not nil: an error of another package, known by
    its message, or an exception of package exception wrapped around its
    class. *)
Module exception.

Inductive error :=
| Message (msg : string)
| Exception (class : error).

(** [exception.New] of an error. *)
Definition New (class : error) : error := Exception class.

(** [exception.New] of a string. *)
Definition NewString (msg : string) : error := Exception (Message msg).

End exception.

(** ** Package reflect: types *)

Module reflect.

(** [reflect.Kind]. *)
Inductive Kind :=
| Invalid | Bool | Int | Int8 | Int16 | Int32 | Int64
| Uint | Uint8 | Uint16 | Uint32 | Uint64 | Uintptr
| Float32 | Float64 | Complex64 | Complex128
| Array | Chan | Func | Interface | Map | Ptr | Slice
| String | Struct | UnsafePointer.

#[global] Instance Kind_eq_dec : EqDecision Kind.
Proof. solve_decision. Defined.

(** [reflect.StructField], as far as this package reads it: the field name,
    whether the field is embedded, the key/value pairs of its tag and its
    type. *)
Record StructField_ (T : Type) := mkStructField {
  Name : string;
  Anonymous : bool;
  Tag : list (string * string);
  Type_ : T
}.
Arguments mkStructField {T}.
Arguments Name {T}.
Arguments Anonymous {T}.
Arguments Tag {T}.
Arguments Type_ {T}.

(** [reflect.Type]: a pointer type, a struct type with its fields in
    declaration order, or a type of any other kind, known by its kind and
    name. *)
#[warnings="-register-all"]
Inductive Type' :=
| PtrTo (elem : Type')
| StructOf (name : string) (fields : list (StructField_ Type'))
| Other (k : Kind) (name : string).

Abbreviation StructField := (StructField_ Type').

Definition Kind_of (t : Type') : Kind :=
  match t with
  | PtrTo _ => Ptr
  | StructOf _ _ => Struct
  | Other k _ => k
  end.

(** [StructTag.Get]: the value of the first pair with this key, or the empty
    string. *)
Fixpoint Tag_Get (tag : list (string * string)) (key : string) : string :=
  match tag with
  | [] => ""
  | (k, v) :: rest => if String.eqb k key then v else Tag_Get rest key
  end.

(** [t1 == t2] on types. *)
Fixpoint Type_eqb (t1 t2 : Type') : bool :=
  match t1, t2 with
  | PtrTo e1, PtrTo e2 => Type_eqb e1 e2
  | StructOf n1 fs1, StructOf n2 fs2 =>
      String.eqb n1 n2 &&
      (fix fields_eqb (fs1 fs2 : list StructField) : bool :=
         match fs1, fs2 with
         | [], [] => true
         | f1 :: r1, f2 :: r2 =>
             String.eqb (Name f1) (Name f2) &&
             Bool.eqb (Anonymous f1) (Anonymous f2) &&
             bool_decide (Tag f1 = Tag f2) &&
             Type_eqb (Type_ f1) (Type_ f2) &&
             fields_eqb r1 r2
         | _, _ => false
         end) fs1 fs2
  | Other k1 n1, Other k2 n2 => bool_decide (k1 = k2) && String.eqb n1 n2
  | _, _ => false
  end.

(** [Type.Elem]; it panics ([None]) on a type that has no element type. *)
Definition Elem (t : Type') : option Type' :=
  match t with
  | PtrTo e => Some e
  | _ => None
  end.

(** ** Package reflect: values *)

(** An address of a variable that reflection can reach. *)
Abbreviation addr := nat.

(** What a variable holds: a pointer (nil or an address), an
    [sql.NullString], or data of any other type, which this package only
    moves around. *)
Inductive Data (V : Type) :=
| Pointer (target : option addr)
| NullString (String_ : string) (Valid : bool)
| Plain (v : V).
Arguments Pointer {V}.
Arguments NullString {V}.
Arguments Plain {V}.

(** [reflect.Value]: the zero Value, or a type with the data, the address
    of the variable the Value stands for when it is addressable
    ([flagAddr]), and whether it was reached through an unexported field
    ([flagRO]). *)
Inductive Value (V : Type) :=
| Zero
| Val (typ : Type') (data : Data V) (home : option addr) (ro : bool).
Arguments Zero {V}.
Arguments Val {V}.

(** The type [sql.NullString]. *)
Definition NullStringType : Type' :=
  StructOf "sql.NullString"
    [mkStructField "String" false [] (Other String "string");
     mkStructField "Valid" false [] (Other Bool "bool")].

Section Values.

Context {V : Type}.

(** Go's assignability between two types that are not identical, and
    its conversion of data from one type to another ([None] where
    [Convert] panics): rules of the language, not of this package. *)
Variable assignableRule : Type' -> Type' -> bool.
Variable convertRule : Type' -> Data V -> Type' -> option (Data V).

Definition IsValid (v : Value V) : bool :=
  match v with Zero => false | Val _ _ _ _ => true end.

Definition CanAddr (v : Value V) : bool :=
  match v with Val _ _ (Some _) _ => true | _ => false end.

Definition CanSet (v : Value V) : bool :=
  match v with Val _ _ (Some _) false => true | _ => false end.

(** [Value.Kind]; the zero Value has kind [Invalid]. *)
Definition Value_Kind (v : Value V) : Kind :=
  match v with Zero => Invalid | Val t _ _ _ => Kind_of t end.

(** [Type.AssignableTo]. *)
Definition AssignableTo (t u : Type') : bool :=
  Type_eqb t u || assignableRule t u.

(** [Value.Addr]; it panics ([None]) on a Value that is not addressable.
    The pointer it returns is not addressable itself. *)
Definition Addr (v : Value V) : option (Value V) :=
  match v with
  | Val t _ (Some a) ro => Some (Val (PtrTo t) (Pointer (Some a)) None ro)
  | _ => None
  end.

(** [Value.Convert]; it panics ([None]) when the conversion does not
    exist.  The Value it returns is not addressable. *)
Definition Convert (v : Value V) (t : Type') : option (Value V) :=
  match v with
  | Val tv d _ ro =>
      match convertRule tv d t with
      | Some d' => Some (Val t d' None ro)
      | None => None
      end
  | Zero => None
  end.

(** [Value.Set]: [v] has to be settable, [x] valid, not reached through
    an unexported field and assignable to [v]'s type, else it panics
    ([None]); the variable [v] stands for receives [x]'s data. *)
Definition Set_ (v x : Value V) (mem : gmap addr (Data V)) : option (gmap addr (Data V)) :=
  match v, x with
  | Val tv _ (Some a) false, Val tx dx _ false =>
      if AssignableTo tx tv then Some (<[a:=dx]> mem) else None
  | _, _ => None
  end.

(** [v.Interface().(sql.NullString)]: [Interface] panics (outer [None])
    on a Value reached through an unexported field; the assertion holds
    when the type is [sql.NullString]. *)
Definition asNullString (v : Value V) : option (option (string * bool)) :=
  match v with
  | Val t d _ false =>
      match d with
      | NullString s valid =>
          if Type_eqb t NullStringType then Some (Some (s, valid))
          else Some None
      | _ => Some None
      end
  | _ => None
  end.

End Values.


End reflect.

(** ** Column *)

Module db.

Import strings go.

(** [Column]: one field of a struct that is mapped to the database. *)
Record Column := mkColumn {
  TableName : string;
  FieldName : string;
  FieldType : option reflect.Type';
  ColumnName : string;
  Index : Z;
  IsPrimaryKey : bool;
  IsAuto : bool;
  IsNullable : bool;
  IsReadOnly : bool;
  IsJSON : bool
}.

(** [Column{}]. *)
Definition zeroColumn : Column :=
  mkColumn "" "" None "" 0 false false false false false.

(** Field assignments [col.F = v]. *)
Definition set_TableName (c : Column) (v : string) : Column :=
  mkColumn v (FieldName c) (FieldType c) (ColumnName c) (Index c)
    (IsPrimaryKey c) (IsAuto c) (IsNullable c) (IsReadOnly c) (IsJSON c).
Definition set_FieldName (c : Column) (v : string) : Column :=
  mkColumn (TableName c) v (FieldType c) (ColumnName c) (Index c)
    (IsPrimaryKey c) (IsAuto c) (IsNullable c) (IsReadOnly c) (IsJSON c).
Definition set_FieldType (c : Column) (v : option reflect.Type') : Column :=
  mkColumn (TableName c) (FieldName c) v (ColumnName c) (Index c)
    (IsPrimaryKey c) (IsAuto c) (IsNullable c) (IsReadOnly c) (IsJSON c).
Definition set_ColumnName (c : Column) (v : string) : Column :=
  mkColumn (TableName c) (FieldName c) (FieldType c) v (Index c)
    (IsPrimaryKey c) (IsAuto c) (IsNullable c) (IsReadOnly c) (IsJSON c).
Definition set_Index (c : Column) (v : Z) : Column :=
  mkColumn (TableName c) (FieldName c) (FieldType c) (ColumnName c) v
    (IsPrimaryKey c) (IsAuto c) (IsNullable c) (IsReadOnly c) (IsJSON c).
Definition set_IsPrimaryKey (c : Column) (v : bool) : Column :=
  mkColumn (TableName c) (FieldName c) (FieldType c) (ColumnName c) (Index c)
    v (IsAuto c) (IsNullable c) (IsReadOnly c) (IsJSON c).
Definition set_IsAuto (c : Column) (v : bool) : Column :=
  mkColumn (TableName c) (FieldName c) (FieldType c) (ColumnName c) (Index c)
    (IsPrimaryKey c) v (IsNullable c) (IsReadOnly c) (IsJSON c).
Definition set_IsNullable (c : Column) (v : bool) : Column :=
  mkColumn (TableName c) (FieldName c) (FieldType c) (ColumnName c) (Index c)
    (IsPrimaryKey c) (IsAuto c) v (IsReadOnly c) (IsJSON c).
Definition set_IsReadOnly (c : Column) (v : bool) : Column :=
  mkColumn (TableName c) (FieldName c) (FieldType c) (ColumnName c) (Index c)
    (IsPrimaryKey c) (IsAuto c) (IsNullable c) v (IsJSON c).
Definition set_IsJSON (c : Column) (v : bool) : Column :=
  mkColumn (TableName c) (FieldName c) (FieldType c) (ColumnName c) (Index c)
    (IsPrimaryKey c) (IsAuto c) (IsNullable c) (IsReadOnly c) v.

Section Columns.

Variable lowerNonASCII : string -> string.

(** [NewColumnFromFieldTag]; [None] is the nil pointer. *)
Definition NewColumnFromFieldTag (field : reflect.StructField) : option Column :=
  let db := reflect.Tag_Get (reflect.Tag field) "db" in
  if negb (String.eqb db "-") then
    let col := zeroColumn in
    let col := set_FieldName col (reflect.Name field) in
    let col := set_ColumnName col (ToLower lowerNonASCII (reflect.Name field)) in
    let col := set_FieldType col (Some (reflect.Type_ field)) in
    if negb (String.eqb db "") then
      let pieces := Split db "," in
      let col :=
        if negb (HasPrefix db ",")
        then set_ColumnName col (hd "" pieces)
        else col in
      if (1 <=? length pieces)%nat then
        let args := ToLower lowerNonASCII (Join (tl pieces) ",") in
        let col := set_IsPrimaryKey col (Contains args "pk") in
        let col := set_IsAuto col (Contains args "serial" || Contains args "auto") in
        let col := set_IsReadOnly col (Contains args "readonly") in
        let col := set_IsNullable col (Contains args "nullable") in
        let col := set_IsJSON col (Contains args "json") in
        Some col
      else Some col
    else Some col
  else None.

End Columns.


(** ** The store

    Slices share backing arrays, maps and collections are reached through
    pointers, and the derived collections are memoised in place, so the
    package is modelled over an explicit store.  Every kind of object has
    its own region; an address is a position in its region, and allocation
    extends the region at its end. *)

Abbreviation loc := nat.

(** A [*Column]: the address of an element of a backing array
    ([&columns[i]]) or of a variable that escaped to the heap ([&c]). *)
Inductive ColumnPtr :=
| ElemPtr (a : loc) (i : nat)
| CellPtr (b : loc).

(** A [[]Column] header; [array = None] is the nil slice. *)
Record slice := mkSlice {
  array : option loc;
  len : nat;
  cap : nat
}.

Definition nilSlice : slice := mkSlice None 0 0.

(** [ColumnCollection]; the pointer fields are [None] when nil. *)
Record ColumnCollection := mkColumnCollection {
  columns : slice;
  lookup : option loc;
  columnPrefix : string;
  autos : option loc;
  notAutos : option loc;
  readOnly : option loc;
  notReadOnly : option loc;
  primaryKeys : option loc;
  notPrimaryKeys : option loc;
  writeColumns : option loc;
  updateColumns : option loc
}.

Definition set_columns (cc : ColumnCollection) (v : slice) :=
  mkColumnCollection v (lookup cc) (columnPrefix cc) (autos cc) (notAutos cc)
    (readOnly cc) (notReadOnly cc) (primaryKeys cc) (notPrimaryKeys cc)
    (writeColumns cc) (updateColumns cc).
Definition set_columnPrefix (cc : ColumnCollection) (v : string) :=
  mkColumnCollection (columns cc) (lookup cc) v (autos cc) (notAutos cc)
    (readOnly cc) (notReadOnly cc) (primaryKeys cc) (notPrimaryKeys cc)
    (writeColumns cc) (updateColumns cc).
Definition set_autos (cc : ColumnCollection) (v : option loc) :=
  mkColumnCollection (columns cc) (lookup cc) (columnPrefix cc) v (notAutos cc)
    (readOnly cc) (notReadOnly cc) (primaryKeys cc) (notPrimaryKeys cc)
    (writeColumns cc) (updateColumns cc).
Definition set_notAutos (cc : ColumnCollection) (v : option loc) :=
  mkColumnCollection (columns cc) (lookup cc) (columnPrefix cc) (autos cc) v
    (readOnly cc) (notReadOnly cc) (primaryKeys cc) (notPrimaryKeys cc)
    (writeColumns cc) (updateColumns cc).
Definition set_readOnly (cc : ColumnCollection) (v : option loc) :=
  mkColumnCollection (columns cc) (lookup cc) (columnPrefix cc) (autos cc)
    (notAutos cc) v (notReadOnly cc) (primaryKeys cc) (notPrimaryKeys cc)
    (writeColumns cc) (updateColumns cc).
Definition set_notReadOnly (cc : ColumnCollection) (v : option loc) :=
  mkColumnCollection (columns cc) (lookup cc) (columnPrefix cc) (autos cc)
    (notAutos cc) (readOnly cc) v (primaryKeys cc) (notPrimaryKeys cc)
    (writeColumns cc) (updateColumns cc).
Definition set_primaryKeys (cc : ColumnCollection) (v : option loc) :=
  mkColumnCollection (columns cc) (lookup cc) (columnPrefix cc) (autos cc)
    (notAutos cc) (readOnly cc) (notReadOnly cc) v (notPrimaryKeys cc)
    (writeColumns cc) (updateColumns cc).
Definition set_notPrimaryKeys (cc : ColumnCollection) (v : option loc) :=
  mkColumnCollection (columns cc) (lookup cc) (columnPrefix cc) (autos cc)
    (notAutos cc) (readOnly cc) (notReadOnly cc) (primaryKeys cc) v
    (writeColumns cc) (updateColumns cc).
Definition set_writeColumns (cc : ColumnCollection) (v : option loc) :=
  mkColumnCollection (columns cc) (lookup cc) (columnPrefix cc) (autos cc)
    (notAutos cc) (readOnly cc) (notReadOnly cc) (primaryKeys cc)
    (notPrimaryKeys cc) v (updateColumns cc).
Definition set_updateColumns (cc : ColumnCollection) (v : option loc) :=
  mkColumnCollection (columns cc) (lookup cc) (columnPrefix cc) (autos cc)
    (notAutos cc) (readOnly cc) (notReadOnly cc) (primaryKeys cc)
    (notPrimaryKeys cc) (writeColumns cc) v.

(** The store: backing arrays (each as long as its capacity), escaped
    [Column] variables, [map[string]*Column] objects, [ColumnCollection]
    objects, and the package variable [metaCache] ([None] while nil). *)
Record Store := mkStore {
  arrays : list (list Column);
  cells : list Column;
  maps : list (gmap string ColumnPtr);
  collections : list ColumnCollection;
  metaCache : option (gmap string loc)
}.

Definition emptyStore : Store := mkStore [] [] [] [] None.

Definition set_arrays (σ : Store) v :=
  mkStore v (cells σ) (maps σ) (collections σ) (metaCache σ).
Definition set_cells (σ : Store) v :=
  mkStore (arrays σ) v (maps σ) (collections σ) (metaCache σ).
Definition set_maps (σ : Store) v :=
  mkStore (arrays σ) (cells σ) v (collections σ) (metaCache σ).
Definition set_collections (σ : Store) v :=
  mkStore (arrays σ) (cells σ) (maps σ) v (metaCache σ).
Definition set_metaCache (σ : Store) v :=
  mkStore (arrays σ) (cells σ) (maps σ) (collections σ) v.

(** A computation over the store. *)
Definition M (A : Type) : Type := St Store A.

(** *** Objects *)

Definition loadCC (p : loc) : M ColumnCollection :=
  fun σ => match collections σ !! p with
           | Some cc => Ok cc σ
           | None => Panic nilDereference σ
           end.

Definition storeCC (p : loc) (cc : ColumnCollection) : M unit :=
  fun σ => match collections σ !! p with
           | Some _ => Ok tt (set_collections σ (<[p:=cc]> (collections σ)))
           | None => Panic nilDereference σ
           end.

(** A field assignment [p.f = v]. *)
Definition assign (p : loc) (f : ColumnCollection -> ColumnCollection) : M unit :=
  cc <- loadCC p ;; storeCC p (f cc).

Definition allocCC (cc : ColumnCollection) : M loc :=
  fun σ => Ok (length (collections σ))
              (set_collections σ (collections σ ++ [cc])).

Definition allocArray (elems : list Column) : M loc :=
  fun σ => Ok (length (arrays σ)) (set_arrays σ (arrays σ ++ [elems])).

Definition allocCell (c : Column) : M loc :=
  fun σ => Ok (length (cells σ)) (set_cells σ (cells σ ++ [c])).

(** [make(map[string]*Column)]. *)
Definition allocMap : M loc :=
  fun σ => Ok (length (maps σ)) (set_maps σ (maps σ ++ [∅])).

Definition readArray (a : loc) : M (list Column) :=
  fun σ => match arrays σ !! a with
           | Some elems => Ok elems σ
           | None => Panic nilDereference σ
           end.

Definition writeArray (a : loc) (i : nat) (c : Column) : M unit :=
  fun σ => match arrays σ !! a with
           | Some elems =>
               if (i <? length elems)%nat
               then Ok tt (set_arrays σ (<[a:=<[i:=c]> elems]> (arrays σ)))
               else Panic indexOutOfRange σ
           | None => Panic nilDereference σ
           end.

(** [_, ok := m[k]]; reading a nil map finds nothing. *)
Definition mapGet (m : option loc) (k : string) : M (option ColumnPtr) :=
  fun σ => match m with
           | None => Ok None σ
           | Some l => match maps σ !! l with
                       | Some entries => Ok (entries !! k) σ
                       | None => Panic nilDereference σ
                       end
           end.

(** [m[k] = v]; writing to a nil map panics. *)
Definition mapSet (m : option loc) (k : string) (v : ColumnPtr) : M unit :=
  fun σ => match m with
           | None => Panic nilMapAssignment σ
           | Some l => match maps σ !! l with
                       | Some entries =>
                           Ok tt (set_maps σ (<[l:=<[k:=v]> entries]> (maps σ)))
                       | None => Panic nilDereference σ
                       end
           end.

(** [delete(m, k)]; a no-op on a nil map. *)
Definition mapDelete (m : option loc) (k : string) : M unit :=
  fun σ => match m with
           | None => Ok tt σ
           | Some l => match maps σ !! l with
                       | Some entries =>
                           Ok tt (set_maps σ (<[l:=delete k entries]> (maps σ)))
                       | None => Panic nilDereference σ
                       end
           end.

(** *** Slices *)

(** [s[i]]. *)
Definition index (s : slice) (i : nat) : M Column :=
  if (i <? len s)%nat then
    match array s with
    | Some a =>
        elems <- readArray a ;;
        match elems !! i with
        | Some c => ret c
        | None => panic indexOutOfRange
        end
    | None => panic nilDereference
    end
  else panic indexOutOfRange.

(** [s[i] = c]. *)
Definition setIndex (s : slice) (i : nat) (c : Column) : M unit :=
  if (i <? len s)%nat then
    match array s with
    | Some a => writeArray a i c
    | None => panic nilDereference
    end
  else panic indexOutOfRange.

(** The elements [s[0:len(s)]]. *)
Definition elements (s : slice) : M (list Column) :=
  match array s with
  | Some a => elems <- readArray a ;; ret (take (len s) elems)
  | None => ret []
  end.

(** [make([]Column, n)]. *)
Definition makeSlice (n : nat) : M slice :=
  a <- allocArray (replicate n zeroColumn) ;;
  ret (mkSlice (Some a) n n).

(** [for _, c := range s]: the header is read once, the elements as the
    loop reaches them. *)
Definition rangeSlice {B} (s : slice) (body : B -> Column -> M B) (acc : B) : M B :=
  foldM (fun acc i => c <- index s i ;; body acc c) (seq 0 (len s)) acc.

Section Collections.

Variable lowerNonASCII : string -> string.

(** [TableNameByType] is defined in a file of the package that is not at
    hand; it is taken as it comes. *)
Variable TableNameByType : reflect.Type' -> string.

(** The capacity the runtime picks when [append] has to grow a slice of
    capacity [oldCap] to hold [newLen] elements; [append] never allocates
    less than [newLen]. *)
Variable growslice : nat -> nat -> nat.

(** [append(s, c)]: in place when the capacity allows, else into a new
    array that receives the old elements. *)
Definition append (s : slice) (c : Column) : M slice :=
  if (len s <? cap s)%nat then
    match array s with
    | Some a =>
        writeArray a (len s) c ;;;
        ret (mkSlice (Some a) (S (len s)) (cap s))
    | None => panic nilDereference
    end
  else
    old <- elements s ;;
    let newCap := Nat.max (S (len s)) (growslice (cap s) (S (len s))) in
    a <- allocArray (old ++ c :: replicate (newCap - S (len s)) zeroColumn) ;;
    ret (mkSlice (Some a) (S (len s)) newCap).

(** [newColumnCollectionWithPrefix]. *)
Definition newColumnCollectionWithPrefix (columnPrefix : string) : M loc :=
  m <- allocMap ;;
  allocCC (mkColumnCollection nilSlice (Some m) columnPrefix
             None None None None None None None None).

(** The loop that both constructors below run:
    [col := &columns[i]; lookup[col.ColumnName] = col]. *)
Definition fillLookup (lookup : loc) (columns : slice) : M unit :=
  forEach (fun i =>
             c <- index columns i ;;
             match array columns with
             | Some a => mapSet (Some lookup) (ColumnName c) (ElemPtr a i)
             | None => panic nilDereference
             end)
          (seq 0 (len columns)).

(** [newColumnCollectionFromColumns]. *)
Definition newColumnCollectionFromColumns (columns : slice) : M loc :=
  lookup <- allocMap ;;
  fillLookup lookup columns ;;;
  allocCC (mkColumnCollection columns (Some lookup) ""
             None None None None None None None None).

(** [newColumnCollectionWithPrefixFromColumns]. *)
Definition newColumnCollectionWithPrefixFromColumns
    (prefix : string) (columns : slice) : M loc :=
  lookup <- allocMap ;;
  fillLookup lookup columns ;;;
  allocCC (mkColumnCollection columns (Some lookup) prefix
             None None None None None None None None).

(** [Len]. *)
Definition Len (cc : loc) : M nat :=
  c <- loadCC cc ;; ret (len (columns c)).

(** [Add]: the parameter [c] escapes through [&c], so it lives in a cell
    of its own. *)
Definition Add (cc : loc) (c : Column) : M unit :=
  cell <- allocCell c ;;
  this <- loadCC cc ;;
  s <- append (columns this) c ;;
  assign cc (fun this => set_columns this s) ;;;
  this <- loadCC cc ;;
  mapSet (lookup this) (ColumnName c) (CellPtr cell).

(** [Remove]. *)
Definition Remove (cc : loc) (columnName : string) : M unit :=
  this <- loadCC cc ;;
  newColumns <-
    rangeSlice (columns this)
      (fun newColumns c =>
         if negb (String.eqb (ColumnName c) columnName)
         then append newColumns c
         else ret newColumns)
      nilSlice ;;
  assign cc (fun this => set_columns this newColumns) ;;;
  this <- loadCC cc ;;
  mapDelete (lookup this) columnName.

(** [HasColumn]. *)
Definition HasColumn (cc : loc) (columnName : string) : M bool :=
  this <- loadCC cc ;;
  found <- mapGet (lookup this) columnName ;;
  ret (bool_decide (is_Some found)).

(** [Copy]; the receiver is passed by value. *)
Definition Copy (cc : ColumnCollection) : M loc :=
  newColumnCollectionWithPrefixFromColumns (columnPrefix cc) (columns cc).

(** [CopyWithColumnPrefix]; the receiver is passed by value. *)
Definition CopyWithColumnPrefix (cc : ColumnCollection) (prefix : string) : M loc :=
  newColumnCollectionWithPrefixFromColumns prefix (columns cc).

(** The body that the six accessors [PrimaryKeys] ... [NotReadOnly] share:
    return the memoised collection if there is one, else collect the
    columns that [keep] holds of into a new collection and memoise it. *)
Definition subset (memo : ColumnCollection -> option loc)
    (set_memo : ColumnCollection -> option loc -> ColumnCollection)
    (keep : Column -> bool) (cc : loc) : M loc :=
  this <- loadCC cc ;;
  match memo this with
  | Some cached => ret cached
  | None =>
      newCC <- newColumnCollectionWithPrefix (columnPrefix this) ;;
      rangeSlice (columns this)
        (fun _ c => if keep c then Add newCC c else ret tt) tt ;;;
      assign cc (fun this => set_memo this (Some newCC)) ;;;
      ret newCC
  end.

(** [PrimaryKeys]. *)
Definition PrimaryKeys : loc -> M loc :=
  subset primaryKeys set_primaryKeys IsPrimaryKey.

(** [NotPrimaryKeys]. *)
Definition NotPrimaryKeys : loc -> M loc :=
  subset notPrimaryKeys set_notPrimaryKeys (fun c => negb (IsPrimaryKey c)).

(** [Autos]. *)
Definition Autos : loc -> M loc :=
  subset autos set_autos IsAuto.

(** [NotAutos]. *)
Definition NotAutos : loc -> M loc :=
  subset notAutos set_notAutos (fun c => negb (IsAuto c)).

(** [ReadOnly]. *)
Definition ReadOnly : loc -> M loc :=
  subset readOnly set_readOnly IsReadOnly.

(** [NotReadOnly]. *)
Definition NotReadOnly : loc -> M loc :=
  subset notReadOnly set_notReadOnly (fun c => negb (IsReadOnly c)).

(** [ConcatWith]; the receiver is passed by value. *)
Definition ConcatWith (cc : ColumnCollection) (other : loc) : M loc :=
  o <- loadCC other ;;
  total <- makeSlice (len (columns cc) + len (columns o)) ;;
  forEach (fun x => c <- index (columns cc) x ;; setIndex total x c)
          (seq 0 (len (columns cc))) ;;;
  forEach (fun y =>
             o <- loadCC other ;;
             c <- index (columns o) y ;;
             setIndex total (len (columns cc) + y) c)
          (seq 0 (len (columns o))) ;;;
  newColumnCollectionFromColumns total.

(** [WriteColumns]. *)
Definition WriteColumns (cc : loc) : M loc :=
  this <- loadCC cc ;;
  match writeColumns this with
  | Some cached => ret cached
  | None =>
      nro <- NotReadOnly cc ;;
      w <- NotPrimaryKeys nro ;;
      assign cc (fun this => set_writeColumns this (Some w)) ;;;
      ret w
  end.

(** [UpdateColumns]. *)
Definition UpdateColumns (cc : loc) : M loc :=
  this <- loadCC cc ;;
  match updateColumns this with
  | Some cached => ret cached
  | None =>
      nro <- NotReadOnly cc ;;
      npk <- NotPrimaryKeys nro ;;
      pk <- PrimaryKeys cc ;;
      receiver <- loadCC npk ;;
      u <- ConcatWith receiver pk ;;
      assign cc (fun this => set_updateColumns this (Some u)) ;;;
      ret u
  end.

(** [Columns]: the slice header; its elements are [elements]. *)
Definition Columns (cc : loc) : M slice :=
  this <- loadCC cc ;; ret (columns this).

(** The loop [for t.Kind() == reflect.Ptr { t = t.Elem() }]. *)
Fixpoint elemType (t : reflect.Type') : reflect.Type' :=
  match t with
  | reflect.PtrTo e => elemType e
  | _ => t
  end.

(** [generateColumnCollectionForType]; [NumField] panics on a type that
    is not a struct. *)
Definition generateColumnCollectionForType (t : reflect.Type') : M loc :=
  let t := elemType t in
  let tableName := TableNameByType t in
  match t with
  | reflect.StructOf _ fields =>
      let numFields := length fields in
      cols <-
        foldM (fun cols index =>
                 match fields !! index with
                 | Some field =>
                     if negb (reflect.Anonymous field) then
                       match NewColumnFromFieldTag lowerNonASCII field with
                       | Some col =>
                           let col := set_Index col (Z.of_nat index) in
                           let col := set_TableName col tableName in
                           append cols col
                       | None => ret cols
                       end
                     else ret cols
                 | None => panic "reflect: Field index out of bounds"
                 end)
              (seq 0 numFields) nilSlice ;;
      newColumnCollectionFromColumns cols
  | _ => panic "reflect: NumField of non-struct type"
  end.

(** [getCachedColumnCollectionFromType].  The body runs with
    [metaCacheLock] held from its first statement to its return, so calls
    take effect one after the other. *)
Definition getCachedColumnCollectionFromType
    (identifier : string) (t : reflect.Type') : M loc :=
  fun σ =>
    let σ := match metaCache σ with
             | None => set_metaCache σ (Some ∅)
             | Some _ => σ
             end in
    match default ∅ (metaCache σ) !! identifier with
    | None =>
        (metadata <- generateColumnCollectionForType t ;;
         (fun σ => Ok metadata
            (set_metaCache σ
               (Some (<[identifier:=metadata]> (default ∅ (metaCache σ))))))) σ
    | Some cachedMeta => Ok cachedMeta σ
    end.

(** [names[x] = v] on a slice of strings that is held as a value. *)
Definition assignAt {A} (l : list A) (i : nat) (v : A) : M (list A) :=
  if (i <? length l)%nat then ret (<[i:=v]> l) else panic indexOutOfRange.

(** [ColumnNames]; the receiver is passed by value.  The slice of names
    is made by the call and handed to the caller, so it is held as a
    list; [fmt.Sprintf] with the verbs [%s%s] concatenates. *)
Definition ColumnNames (cc : ColumnCollection) : M (list string) :=
  foldM (fun names x =>
           c <- index (columns cc) x ;;
           if negb (String.length (columnPrefix cc) =? 0)%nat
           then assignAt names x (columnPrefix cc ++ ColumnName c)
           else assignAt names x (ColumnName c))
        (seq 0 (len (columns cc)))
        (replicate (len (columns cc)) "").

(** [ColumnNamesFromAlias]. *)
Definition ColumnNamesFromAlias (cc : ColumnCollection) (tableAlias : string) :
    M (list string) :=
  foldM (fun names x =>
           c <- index (columns cc) x ;;
           if negb (String.length (columnPrefix cc) =? 0)%nat
           then assignAt names x
                  (tableAlias ++ "." ++ ColumnName c ++ " as " ++
                   columnPrefix cc ++ ColumnName c)
           else assignAt names x (tableAlias ++ "." ++ ColumnName c))
        (seq 0 (len (columns cc)))
        (replicate (len (columns cc)) "").

(** [ColumnCollection.String]. *)
Definition ColumnCollection_String (cc : ColumnCollection) : M string :=
  names <- ColumnNames cc ;; ret (strings.Join names ", ").

(** [FirstOrDefault]: a pointer to the first element of the backing
    array, or nil. *)
Definition FirstOrDefault (cc : ColumnCollection) : M (option ColumnPtr) :=
  if (0 <? len (columns cc))%nat then
    match array (columns cc) with
    | Some a => ret (Some (ElemPtr a 0))
    | None => panic nilDereference
    end
  else ret None.

(** The entries of a map, for [range]; a nil map has none. *)
Definition mapEntries (m : option loc) : M (gmap string ColumnPtr) :=
  fun σ => match m with
           | None => Ok ∅ σ
           | Some l => match maps σ !! l with
                       | Some entries => Ok entries σ
                       | None => Panic nilDereference σ
                       end
           end.

(** The order in which [range] visits the entries of a map is not
    specified. *)
Variable rangeOrder : gmap string ColumnPtr -> list (string * ColumnPtr).

(** [Lookup]. *)
Definition Lookup (cc : loc) : M (option loc) :=
  this <- loadCC cc ;;
  if negb (String.length (columnPrefix this) =? 0)%nat then
    lookup' <- allocMap ;;
    entries <- mapEntries (lookup this) ;;
    forEach (fun kv =>
               mapSet (Some lookup') (columnPrefix this ++ fst kv) (snd kv))
            (rangeOrder entries) ;;;
    ret (Some lookup')
  else ret (lookup this).

(** [objectType.String()], and the result of [TableName] on a new value
    of the type when the pointer to the type is a [TableNameProvider]. *)
Variable Type_String : reflect.Type' -> string.
Variable TableNameOf : reflect.Type' -> option string.

(** [newColumnCacheKey]. *)
Definition newColumnCacheKey (objectType : reflect.Type') : string :=
  let typeName := Type_String objectType in
  match TableNameOf objectType with
  | Some tableName => typeName ++ "_" ++ tableName
  | None => typeName
  end.

(** [getCachedColumnCollectionFromInstance], given [reflect.TypeOf] of
    the object, which is nil for the nil interface. *)
Definition getCachedColumnCollectionFromInstance
    (objectType : option reflect.Type') : M loc :=
  match objectType with
  | None => panic nilDereference
  | Some t => getCachedColumnCollectionFromType (newColumnCacheKey t) t
  end.

End Collections.

(** ** Column.SetValue *)

Section SetValue.

Import reflect exception.

(** The data of ordinary values, and the values of type [interface{}]
    that callers pass. *)
Context {V iface : Type}.

Variable assignableRule : Type' -> Type' -> bool.
Variable convertRule : Type' -> Data V -> Type' -> option (Data V).

(** [reflectValue] is defined in a file of the package that is not at
    hand, so nothing is assumed of the Value it makes of its argument. *)
Variable reflectValue : iface -> Value V.

(** [Value.FieldByName]: the field's Value (the zero Value when the
    struct has no such field); it panics ([None]) on a Value that is not
    a struct. *)
Variable FieldByName : Value V -> string -> option (Value V).

(** [json.Unmarshal(text, &field)] for a field of the given type and
    current contents: what the field holds afterwards, and the error. *)
Variable jsonUnmarshal :
  string -> Type' -> option (Data V) -> Data V * option error.

(** The variables that reflection can reach. *)
Definition Memory : Type := gmap addr (Data V).

Definition orPanic {A} (o : option A) (msg : string) : St Memory A :=
  match o with
  | Some a => ret a
  | None => panic msg
  end.

(** [field.Set(x)]. *)
Definition Set' (field x : Value V) : St Memory unit :=
  fun mem => match Set_ assignableRule field x mem with
             | Some mem' => Ok tt mem'
             | None => Panic "reflect: reflect.Value.Set" mem
             end.

Definition cannotSetField (c : Column) : error :=
  NewString ("hit a field we can't set: '" ++ FieldName c ++
             "', did you forget to pass the object as a reference?").

Definition cannotTakeAddress : error :=
  NewString "cannot take address of value".

(** [Column.SetValue]; the result is the error, [None] for nil. *)
Definition SetValue (c : Column) (object value : iface) : St Memory (option error) :=
  let objValue := reflectValue object in
  field <- orPanic (FieldByName objValue (FieldName c))
             "reflect: call of reflect.Value.FieldByName on non-struct Value" ;;
  match field with
  | Zero => panic "reflect: call of reflect.Value.Type on zero Value"
  | Val fieldType _ fieldHome _ =>
      if negb (CanSet field) then ret (Some (cannotSetField c))
      else
        let valueReflected := reflectValue value in
        if negb (IsValid valueReflected) then ret None
        else if IsJSON c then
          valueContents <- orPanic (asNullString valueReflected)
                             "reflect.Value.Interface: cannot return value obtained from unexported field or method" ;;
          match valueContents with
          | Some (text, true) =>
              if (0 <? String.length text)%nat then
                match fieldHome with
                | Some a =>
                    jsonErr <- (fun mem =>
                                  let '(d, e) := jsonUnmarshal text fieldType (mem !! a) in
                                  Ok (d, e) (<[a:=d]> mem)) ;;
                    match jsonErr with
                    | (_, Some e) => ret (Some (exception.New e))
                    | (d, None) =>
                        Set' field (Val fieldType d (Some a) false) ;;;
                        ret None
                    end
                | None => panic "reflect.Value.Addr of unaddressable value"
                end
              else ret None
          | _ => ret None
          end
        else
          match valueReflected with
          | Zero => panic "reflect: call of reflect.Value.Type on zero Value"
          | Val valueType _ _ _ =>
              if AssignableTo assignableRule valueType fieldType then
                (if bool_decide (Value_Kind field = Ptr) && CanAddr valueReflected
                 then
                   p <- orPanic (Addr valueReflected)
                          "reflect.Value.Addr of unaddressable value" ;;
                   Set' field p
                 else Set' field valueReflected) ;;;
                ret None
              else if bool_decide (Value_Kind field = Ptr) then
                if CanAddr valueReflected then
                  elem <- orPanic (Elem fieldType) "reflect: Elem of invalid type" ;;
                  (if Type_eqb elem valueType then
                     p <- orPanic (Addr valueReflected)
                            "reflect.Value.Addr of unaddressable value" ;;
                     Set' field p
                   else
                     convertedValue <- orPanic (Convert convertRule valueReflected elem)
                                         "reflect.Value.Convert" ;;
                     if CanAddr convertedValue then
                       p <- orPanic (Addr convertedValue)
                              "reflect.Value.Addr of unaddressable value" ;;
                       Set' field p
                     else ret tt) ;;;
                  ret None
                else ret (Some cannotTakeAddress)
              else
                convertedValue <- orPanic (Convert convertRule valueReflected fieldType)
                                    "reflect.Value.Convert" ;;
                Set' field convertedValue ;;;
                ret None
          end
  end.

End SetValue.

(** ** Connection *)

(** A [*sql.DB]: the handle of a connection pool. *)
Abbreviation DB := nat.

(** [Config], by what its accessors return. *)
Record Config := mkConfig {
  CreateDSN : string;
  GetMaxLifetime : Z;
  GetIdleConnections : Z;
  GetMaxConnections : Z;
  GetSchema : string
}.

(** [StatementCache], by the pool it was made for; the statements it holds
    are kept by the file that defines it. *)
Record StatementCache := mkStatementCache {
  dbc : DB
}.

(** [newStatementCache]. *)
Definition newStatementCache (dbConn : DB) : StatementCache :=
  mkStatementCache dbConn.

(** [Connection]; the pointer fields are [None] when nil, the two mutexes
    and the buffer pool are known by whether they are there. *)
Record Connection := mkConnection {
  connection : option DB;
  config : option Config;
  connectionLock : bool;
  statementCacheLock : bool;
  bufferPool : bool;
  useStatementCache : bool;
  statementCache : option StatementCache
}.

Definition set_connection (c : Connection) (v : option DB) :=
  mkConnection v (config c) (connectionLock c) (statementCacheLock c)
    (bufferPool c) (useStatementCache c) (statementCache c).
Definition set_statementCache (c : Connection) (v : option StatementCache) :=
  mkConnection (connection c) (config c) (connectionLock c)
    (statementCacheLock c) (bufferPool c) (useStatementCache c) v.
Definition set_config (c : Connection) (v : option Config) :=
  mkConnection (connection c) v (connectionLock c) (statementCacheLock c)
    (bufferPool c) (useStatementCache c) (statementCache c).

(** The calls that leave the package. *)
Inductive Call :=
| sql_Open (driverName dataSourceName : string)
| SetConnMaxLifetime (db : DB) (d : Z)
| SetMaxIdleConns (db : DB) (n : Z)
| SetMaxOpenConns (db : DB) (n : Z)
| Exec (db : DB) (query : string)
| StatementCache_Close (sc : StatementCache)
| DB_Close (db : DB).

(** What the outside answers, given the calls made so far. *)
Record Outside := mkOutside {
  answer_Open : list Call -> string -> string -> DB + exception.error;
  answer_Exec : list Call -> DB -> string -> option exception.error;
  answer_StatementCache_Close : list Call -> StatementCache -> option exception.error;
  answer_DB_Close : list Call -> DB -> option exception.error
}.

(** The state a method of [Connection] runs in: the receiver and the
    calls made so far. *)
Record World := mkWorld {
  this : Connection;
  calls : list Call
}.

Section Connections.

Import exception.

Variable outside : Outside.

Definition call {A} (c : Call) (answer : list Call -> A) : St World A :=
  fun w => Ok (answer (calls w)) (mkWorld (this w) (calls w ++ [c])).

Definition receiver : St World Connection := fun w => Ok (this w) w.

Definition update (f : Connection -> Connection) : St World unit :=
  fun w => Ok tt (mkWorld (f (this w)) (calls w)).

(** [openNewSQLConnection]. *)
Definition openNewSQLConnection : St World (option DB * option error) :=
  dbc <- receiver ;;
  match config dbc with
  | None => ret (None, Some (NewString "connection configuration is unset"))
  | Some cfg =>
      opened <- call (sql_Open "postgres" (CreateDSN cfg))
                  (fun cs => answer_Open outside cs "postgres" (CreateDSN cfg)) ;;
      match opened with
      | inr err => ret (None, Some (exception.New err))
      | inl dbConn =>
          update (fun dbc => set_statementCache dbc (Some (newStatementCache dbConn))) ;;;
          call (SetConnMaxLifetime dbConn (GetMaxLifetime cfg)) (fun _ => tt) ;;;
          call (SetMaxIdleConns dbConn (GetIdleConnections cfg)) (fun _ => tt) ;;;
          call (SetMaxOpenConns dbConn (GetMaxConnections cfg)) (fun _ => tt) ;;;
          let schema := GetSchema cfg in
          err <- (if (0 <? String.length schema)%nat then
                    let q := "SET search_path TO " ++ schema ++ ",public;" in
                    call (Exec dbConn q) (fun cs => answer_Exec outside cs dbConn q)
                  else ret None) ;;
          match err with
          | Some e => ret (None, Some (exception.New e))
          | None =>
              err <- call (Exec dbConn "select 'ok!'")
                       (fun cs => answer_Exec outside cs dbConn "select 'ok!'") ;;
              match err with
              | Some e => ret (None, Some (exception.New e))
              | None => ret (Some dbConn, None)
              end
          end
      end
  end.

(** [Connection.Open].  The result is the error; with [None] (nil) the
    method returns its receiver.  Locking a mutex that is nil panics. *)
Definition Open : St World (option error) :=
  dbc <- receiver ;;
  match connection dbc with
  | None =>
      if connectionLock dbc then
        dbc <- receiver ;;
        match connection dbc with
        | None =>
            r <- openNewSQLConnection ;;
            match r with
            | (_, Some err) => ret (Some err)
            | (newConn, None) =>
                update (fun dbc => set_connection dbc newConn) ;;;
                ret None
            end
        | Some _ => ret None
        end
      else panic nilDereference
  | Some _ => ret None
  end.

(** [Connection.Close]; the [Close] of [sql.DB] reads its receiver, so
    it panics on the nil handle. *)
Definition Close : St World (option error) :=
  dbc <- receiver ;;
  err <- match statementCache dbc with
         | Some sc =>
             call (StatementCache_Close sc)
               (fun cs => answer_StatementCache_Close outside cs sc)
         | None => ret None
         end ;;
  match err with
  | Some e => ret (Some e)
  | None =>
      dbc <- receiver ;;
      match connection dbc with
      | Some db => call (DB_Close db) (fun cs => answer_DB_Close outside cs db)
      | None => panic nilDereference
      end
  end.

(** [&Config{}] by what its accessors return, and the constant
    [DefaultUseStatementCache]; both are defined in files that are not at
    hand. *)
Variable zeroConfig : Config.
Variable DefaultUseStatementCache : bool.

(** [New]. *)
Definition New : Connection :=
  mkConnection None (Some zeroConfig) true true true
    DefaultUseStatementCache None.

(** [WithConfig]. *)
Definition WithConfig (cfg : option Config) : St World unit :=
  update (fun dbc => set_config dbc cfg).

End Connections.


End db.

(** ** The struct of the package's tests *)

Module db_test.

Import reflect.

Definition string_type : Type' := Other String "string".
Definition int_type : Type' := Other Int "int".

(** [subStruct] and [myStruct] of column_collection_test.go. *)
Definition subStruct : Type' :=
  StructOf "subStruct" [mkStructField "Foo" false [("json", "foo")] string_type].

Definition myStruct : Type' :=
  StructOf "myStruct"
    [mkStructField "PrimaryKeyCol" false
       [("json", "pk"); ("db", "primary_key_column,pk,serial")] int_type;
     mkStructField "AutoCol" false
       [("json", "auto"); ("db", "auto_column,auto")] string_type;
     mkStructField "InferredName" false [("json", "normal")] string_type;
     mkStructField "Excluded" false [("json", "-"); ("db", "-")] string_type;
     mkStructField "NullableCol" false
       [("json", "not_nullable"); ("db", "nullable,nullable")] string_type;
     mkStructField "InferredWithFlags" false [("db", ",readonly")] string_type;
     mkStructField "BigIntColumn" false [("db", "big_int")] (Other Int64 "int64");
     mkStructField "PointerColumn" false [("db", "pointer_col")] (PtrTo int_type);
     mkStructField "JSONColumn" false [("db", "json_col,json")] subStruct].

(** The names of the test are ASCII, so the Unicode tables are not
    consulted. *)
Definition lowerNonASCII (s : string) : string := s.

(** [myStruct] has a [TableName] method that returns [my_struct]. *)
Definition TableNameByType (t : Type') : string :=
  if Type_eqb t myStruct then "my_struct" else "".

(** A runtime that doubles the capacity of a slice that is full. *)
Definition growslice (oldCap newLen : nat) : nat := Nat.max newLen (2 * oldCap).

(** The store after [myStruct] was resolved in the empty store, and the
    collection that was returned. *)
Definition resolved : go.Result db.Store db.loc :=
  db.generateColumnCollectionForType lowerNonASCII TableNameByType growslice
    myStruct db.emptyStore.

Definition meta : db.loc :=
  match resolved with go.Ok p _ => p | go.Panic _ _ => 0 end.

Definition store : db.Store :=
  match resolved with go.Ok _ σ => σ | go.Panic _ σ => σ end.

(** A column to add: writable, not a primary key. *)
Definition extra : db.Column :=
  db.mkColumn "my_struct" "Extra" (Some string_type) "extra" 9
    false false false false false.

(** The field [AutoCol] of [myStruct]. *)
Definition AutoCol : StructField :=
  mkStructField "AutoCol" false
    [("json", "auto"); ("db", "auto_column,auto")] string_type.

(** The collection of [myStruct] as it is in [store]. *)
Definition metaCollection : db.ColumnCollection :=
  db.mkColumnCollection (db.mkSlice (Some 3) 8 8) (Some 0) ""
    None None None None None None None None.

(** Three of its columns. *)
Definition AutoColumn : db.Column :=
  db.mkColumn "my_struct" "AutoCol" (Some string_type) "auto_column" 1
    false true false false false.

Definition PointerColumn : db.Column :=
  db.mkColumn "my_struct" "PointerColumn" (Some (PtrTo int_type)) "pointer_col" 7
    false false false false false.

Definition JSONColumn : db.Column :=
  db.mkColumn "my_struct" "JSONColumn" (Some subStruct) "json_col" 8
    false false false false true.

(** A reflection small enough to run: a struct Value that can be
    addressed lays its fields out one after the other from its home, only
    identical types are assignable, and integers convert to integers. *)
Fixpoint fieldAt (name : string) (fields : list StructField) (a : nat) :
    option (Type' * nat) :=
  match fields with
  | [] => None
  | f :: rest =>
      if String.eqb (Name f) name then Some (Type_ f, a)
      else fieldAt name rest (S a)
  end.

Definition FieldByName (v : Value Z) (name : string) : option (Value Z) :=
  match v with
  | Val (StructOf _ fields) _ home ro =>
      Some match fieldAt name fields 0 with
           | Some (t, i) => Val t (Plain 0%Z) (option_map (Nat.add i) home) ro
           | None => Zero
           end
  | _ => None
  end.

Definition assignableRule (_ _ : Type') : bool := false.

Definition convertRule (from : Type') (d : Data Z) (to : Type') : option (Data Z) :=
  match Kind_of from, Kind_of to with
  | (Int | Int64), (Int | Int64) => Some d
  | _, _ => None
  end.

Definition reflectValue (v : Value Z) : Value Z := v.

Definition jsonUnmarshal (text : string) (t : Type') (old : option (Data Z)) :
    Data Z * option exception.error :=
  if String.eqb text "{"
  then (Plain 0%Z, Some (exception.Message "unexpected end of JSON input"))
  else (Plain 1%Z, None).

(** A [myStruct] passed by reference, whose fields start at address 100. *)
Definition obj : Value Z := Val myStruct (Plain 0%Z) (Some 100) false.

(** A configuration with a schema, and a [Connection] made for it that
    was never opened. *)
Definition cfg : db.Config :=
  db.mkConfig "postgres://localhost/app" 0 0 0 "app".

Definition unopened : db.World :=
  db.mkWorld (db.mkConnection None (Some cfg) true true true true None) [].

(** The same [Connection] after [Open] got the handle 7. *)
Definition opened : db.World :=
  db.mkWorld
    (db.mkConnection (Some 7) (Some cfg) true true true true
       (Some (db.newStatementCache 7)))
    [db.sql_Open "postgres" "postgres://localhost/app";
     db.SetConnMaxLifetime 7 0; db.SetMaxIdleConns 7 0; db.SetMaxOpenConns 7 0;
     db.Exec 7 "SET search_path TO app,public;"; db.Exec 7 "select 'ok!'"].

(** A server where everything succeeds, one that does not know the
    schema, and one whose statements fail to close. *)
Definition healthy : db.Outside :=
  db.mkOutside (fun _ _ _ => inl 7) (fun _ _ _ => None)
    (fun _ _ => None) (fun _ _ => None).

Definition schemaFails : db.Outside :=
  db.mkOutside (fun _ _ _ => inl 7)
    (fun _ _ q => if String.eqb q "select 'ok!'" then None
                  else Some (exception.Message "no schema"))
    (fun _ _ => None) (fun _ _ => None).

(** A server that refuses statements until it has started up. *)
Definition flaky : db.Outside :=
  db.mkOutside (fun _ _ _ => inl 7)
    (fun cs _ _ => if (length cs <? 6)%nat
                   then Some (exception.Message "starting up") else None)
    (fun _ _ => None) (fun _ _ => None).

Definition cacheFails : db.Outside :=
  db.mkOutside (fun _ _ _ => inl 7) (fun _ _ _ => None)
    (fun _ _ => Some (exception.Message "statement cache")) (fun _ _ => None).

(** A [Connection] whose configuration was set to nil, and a server
    that cannot be reached. *)
Definition unconfigured : db.World :=
  db.mkWorld (db.mkConnection None None true true true true None) [].

Definition unreachable : db.Outside :=
  db.mkOutside
    (fun _ _ _ => inr (exception.Message "dial tcp: connection refused"))
    (fun _ _ _ => None) (fun _ _ => None) (fun _ _ => None).

(** The lookup of the collection of [myStruct]. *)
Definition metaEntries : gmap string db.ColumnPtr :=
  default ∅ (db.maps store !! 0).

(** A copy of that collection under the prefix [foo_], as
    [TestColumnCollectionWithColumnPrefix] makes one. *)
Definition copied : go.Result db.Store db.loc :=
  db.CopyWithColumnPrefix metaCollection "foo_" store.

Definition fooCopy : db.loc :=
  match copied with go.Ok q _ => q | go.Panic _ _ => 0 end.

Definition fooStore : db.Store :=
  match copied with go.Ok _ σ => σ | go.Panic _ σ => σ end.

Definition fooCollection : db.ColumnCollection :=
  db.mkColumnCollection (db.mkSlice (Some 3) 8 8) (Some 1) "foo_"
    None None None None None None None None.

Definition fooEntries : gmap string db.ColumnPtr :=
  default ∅ (db.maps fooStore !! 1).

(** Two types whose cache keys are the same: [user] has a [TableName]
    method that returns [accounts], [user_accounts] has none. *)
Definition user : Type' :=
  StructOf "user" [mkStructField "ID" false [("db", "id,pk")] int_type].

Definition user_accounts : Type' :=
  StructOf "user_accounts"
    [mkStructField "Owner" false [("db", "owner")] string_type].

Fixpoint Type_String (t : Type') : string :=
  match t with
  | PtrTo e => "*" ++ Type_String e
  | StructOf name _ => "db." ++ name
  | Other _ name => name
  end.

Definition TableNameOf (t : Type') : option string :=
  if Type_eqb t myStruct then Some "my_struct"
  else if Type_eqb t user then Some "accounts"
  else None.

(** Two more columns to add. *)
Definition late : db.Column :=
  db.mkColumn "my_struct" "Late" (Some string_type) "late" 10
    false false false false false.

Definition other : db.Column :=
  db.mkColumn "my_struct" "Other" (Some string_type) "other" 11
    false false false false false.

End db_test.


(** * Properties *)

Import go db.

Open Scope list_scope.
Open Scope nat_scope.

(** ** Strings *)

Section StringFacts.

Import strings.

Open Scope string_scope.

#[local] Arguments String.append !_ _ / : simpl nomatch.

Lemma append_assoc (a b c : string) : (a ++ b) ++ c = a ++ b ++ c.
Proof. induction a as [|x a IH]; cbn; [done|by rewrite IH]. Qed.

Lemma append_nil_r (a : string) : a ++ "" = a.
Proof. induction a as [|x a IH]; cbn; [done|by rewrite IH]. Qed.

(** Whether the byte [c] occurs in [s]. *)
Fixpoint hasByte (c : ascii) (s : string) : bool :=
  match s with
  | EmptyString => false
  | String x s' => Ascii.eqb x c || hasByte c s'
  end.

Lemma prefix_cons (a b : ascii) (w s : string) :
  String.prefix (String a w) (String b s) = Ascii.eqb a b && String.prefix w s.
Proof.
  cbn [String.prefix]. destruct (ascii_dec a b) as [->|Hn].
  - by rewrite Ascii.eqb_refl.
  - apply Ascii.eqb_neq in Hn. by rewrite Hn.
Qed.

Lemma prefix_refl (w : string) : String.prefix w w = true.
Proof.
  induction w as [|c w IH]; cbn; [done|].
  by destruct (ascii_dec c c).
Qed.

Lemma prefix_app (w a : string) : String.prefix w (w ++ a) = true.
Proof.
  induction w as [|c w IH]; cbn; [by destruct a|].
  by destruct (ascii_dec c c).
Qed.

Lemma Contains_here (w a : string) : Contains (w ++ a) w = true.
Proof.
  pose proof (prefix_app w a) as Hp.
  destruct (w ++ a); cbn [Contains]; by rewrite Hp.
Qed.

Lemma Contains_later (a b w : string) :
  Contains b w = true -> Contains (a ++ b) w = true.
Proof.
  intros Hb. induction a as [|x a IH]; cbn; [done|].
  rewrite IH. apply orb_true_r.
Qed.

(** A word without the separator cannot reach across it. *)
Lemma prefix_sep (sep : ascii) (w a b : string) :
  hasByte sep w = false ->
  String.prefix w (a ++ String sep b) = String.prefix w a.
Proof.
  revert w. induction a as [|x a IH]; intros w Hw; cbn.
  - destruct w as [|c w]; [done|]. cbn in Hw.
    apply orb_false_iff in Hw as [Hc _]. apply Ascii.eqb_neq in Hc.
    by destruct (ascii_dec c sep).
  - destruct w as [|c w]; [done|]. cbn in Hw.
    apply orb_false_iff in Hw as [_ Hw].
    destruct (ascii_dec c x); [by apply IH|done].
Qed.

Lemma Contains_sep (sep : ascii) (w a b : string) :
  hasByte sep w = false ->
  Contains (a ++ String sep b) w = Contains a w || Contains b w.
Proof.
  intros Hw. induction a as [|x a IH].
  - pose proof (prefix_sep sep w "" b Hw) as Hp.
    change ("" ++ String sep b) with (String sep b) in *.
    cbn [Contains]. rewrite Hp. by rewrite orb_false_r.
  - change (String x a ++ String sep b) with (String x (a ++ String sep b)).
    cbn [Contains].
    change (String x (a ++ String sep b)) with (String x a ++ String sep b).
    rewrite (prefix_sep sep w (String x a) b Hw), IH.
    by rewrite orb_assoc.
Qed.

Lemma Contains_Join (w : string) (l : list string) :
  hasByte "," w = false -> String.prefix w "" = false ->
  Contains (Join l ",") w = existsb (fun f => Contains f w) l.
Proof.
  intros Hw Hne. induction l as [|f l IH]; [cbn [Join Contains existsb]; by rewrite Hne|].
  destruct l as [|g l]; [cbn [Join existsb]; by rewrite orb_false_r|].
  change (Join (f :: g :: l) ",") with (f ++ String "," (Join (g :: l) ",")).
  rewrite (Contains_sep "," w f _ Hw), IH. reflexivity.
Qed.

Lemma Split_one (sep : ascii) (s : string) :
  hasByte sep s = false -> Split s sep = [s].
Proof.
  induction s as [|c s IH]; cbn; [done|].
  intros [Hc Hs]%orb_false_iff. rewrite Hc, (IH Hs). done.
Qed.

Lemma Split_sep (sep : ascii) (a b : string) :
  hasByte sep a = false -> Split (a ++ String sep b) sep = a :: Split b sep.
Proof.
  induction a as [|c a IH]; cbn.
  - intros _. by rewrite Ascii.eqb_refl.
  - intros [Hc Ha]%orb_false_iff. by rewrite Hc, (IH Ha).
Qed.

(** Splitting is the inverse of joining pieces that hold no comma. *)
Lemma Split_Join (l : list string) :
  l <> [] -> Forall (fun f => hasByte "," f = false) l ->
  Split (Join l ",") "," = l.
Proof.
  intros Hne Hl. induction Hl as [|f l Hf Hl IH]; [done|].
  destruct l as [|g l]; [by apply Split_one|].
  change (Join (f :: g :: l) ",") with (f ++ String "," (Join (g :: l) ",")).
  rewrite (Split_sep "," f _ Hf), IH; done.
Qed.

Section Lower.

Variable lowerNonASCII : string -> string.

(** A byte below 0x80 ends the run before it and is lower-cased by
    itself. *)
Lemma lowerFrom_byte (a b run : string) (c : ascii) :
  isASCII c = true ->
  lowerFrom lowerNonASCII (a ++ String c b) run =
    lowerFrom lowerNonASCII a run ++
    String (lowerByte c) (lowerFrom lowerNonASCII b "").
Proof.
  intros Hc. revert run. induction a as [|x a IH]; intros run; cbn.
  - by rewrite Hc.
  - destruct (isASCII x); [|apply IH].
    rewrite IH, append_assoc. reflexivity.
Qed.

Lemma ToLower_sep (a b : string) :
  ToLower lowerNonASCII (a ++ String "," b) =
    ToLower lowerNonASCII a ++ String "," (ToLower lowerNonASCII b).
Proof. unfold ToLower. by rewrite lowerFrom_byte. Qed.

Lemma ToLower_Join (l : list string) :
  ToLower lowerNonASCII (Join l ",") =
    Join (map (ToLower lowerNonASCII) l) ",".
Proof.
  induction l as [|f l IH]; [done|].
  destruct l as [|g l]; [done|].
  change (Join (f :: g :: l) ",") with (f ++ String "," (Join (g :: l) ",")).
  rewrite ToLower_sep, IH. reflexivity.
Qed.

(** On text that is ASCII only, [ToLower] works byte by byte. *)
Lemma ToLower_allASCII (s : string) :
  allASCII s = true -> ToLower lowerNonASCII s = lowerASCII s.
Proof.
  unfold ToLower. induction s as [|c s IH]; cbn; [done|].
  intros [Hc Hs]%andb_true_iff. by rewrite Hc, (IH Hs).
Qed.

Lemma lowerByte_isASCII (c : ascii) : isASCII (lowerByte c) = isASCII c.
Proof.
  unfold lowerByte. destruct (isUpper c) eqn:Hu; [|done].
  destruct c as [[] [] [] [] [] [] [] []]; try done; by vm_compute in Hu.
Qed.

Lemma lowerASCII_allASCII (s : string) :
  allASCII (lowerASCII s) = allASCII s.
Proof.
  induction s as [|c s IH]; cbn; [done|].
  by rewrite lowerByte_isASCII, IH.
Qed.

(** A piece that reads [w] when its letters are lower-cased makes
    [w] occur in the lower-cased piece. *)
Lemma Contains_flag (w f : string) :
  allASCII w = true -> lowerASCII f = w ->
  Contains (ToLower lowerNonASCII f) w = true.
Proof.
  intros Hw Hf. rewrite ToLower_allASCII.
  - rewrite Hf, <- (append_nil_r w) at 1. apply Contains_here.
  - by rewrite <- lowerASCII_allASCII, Hf.
Qed.

(** The flag test of [NewColumnFromFieldTag] on the joined flags is a
    test of every flag by itself. *)
Lemma Contains_flags (w : string) (flags : list string) :
  hasByte "," w = false -> String.prefix w "" = false ->
  Contains (ToLower lowerNonASCII (Join flags ",")) w =
    existsb (fun f => Contains (ToLower lowerNonASCII f) w) flags.
Proof.
  intros Hw Hne. rewrite ToLower_Join, (Contains_Join w _ Hw Hne).
  induction flags as [|f l IH]; cbn; [done|by rewrite IH].
Qed.

End Lower.

End StringFacts.

(** ** Field descriptors *)

Section DescriptorFacts.

Import strings.

Open Scope string_scope.

#[local] Arguments String.append !_ _ / : simpl nomatch.

Variable lowerNonASCII : string -> string.

(** The descriptor [name,flag,...,flag]. *)
Definition descriptor (name : string) (flags : list string) : string :=
  Join (name :: flags) ",".

(** One of the flags is the word [w], in whatever case. *)
Definition flagged (w : string) (flags : list string) : Prop :=
  Exists (fun f => lowerASCII f = w) flags.

(** The word [w] occurs in one of the flags once they are lower-cased. *)
Definition mentions (w : string) (flags : list string) : bool :=
  existsb (fun f => Contains (ToLower lowerNonASCII f) w) flags.

Lemma flagged_mentions (w : string) (flags : list string) :
  allASCII w = true -> flagged w flags -> mentions w flags = true.
Proof.
  intros Hw Hf. apply existsb_exists.
  apply Exists_exists in Hf as (f & Hin & Hf).
  exists f. split; [by apply list_elem_of_In|by apply Contains_flag].
Qed.

Lemma descriptor_empty (name : string) (flags : list string) :
  descriptor name flags = "" <-> name = "" /\ flags = [].
Proof.
  unfold descriptor. split.
  - destruct flags as [|f l]; [cbn [Join]; by intros ->|].
    change (Join (name :: f :: l) ",") with (name ++ String "," (Join (f :: l) ",")).
    by destruct name.
  - by intros [-> ->].
Qed.

Lemma descriptor_prefix (name : string) (flags : list string) :
  hasByte "," name = false ->
  HasPrefix (descriptor name flags) "," = true <-> name = "" /\ flags <> [].
Proof.
  intros Hn. unfold descriptor, HasPrefix.
  destruct name as [|c name].
  - destruct flags as [|f l]; [split; [done|by intros [_ ?]]|].
    change (Join ("" :: f :: l) ",") with (String "," (Join (f :: l) ",")).
    rewrite prefix_cons, Ascii.eqb_refl. by destruct (Join (f :: l) ",").
  - cbn [hasByte] in Hn. apply orb_false_iff in Hn as [Hc _].
    rewrite Ascii.eqb_sym in Hc.
    assert (forall rest, String.prefix "," (String c rest) = false) as Hp
      by (intros rest; by rewrite prefix_cons, Hc).
    destruct flags as [|f l].
    + cbn [Join]. rewrite Hp. split; [done|by intros [? _]].
    + change (Join (String c name :: f :: l) ",")
        with (String c (name ++ String "," (Join (f :: l) ","))).
      rewrite Hp. split; [done|by intros [? _]].
Qed.

Lemma descriptor_Split (name : string) (flags : list string) :
  hasByte "," name = false ->
  Forall (fun f => hasByte "," f = false) flags ->
  Split (descriptor name flags) "," = name :: flags.
Proof. intros Hn Hf. apply Split_Join; [done|by constructor]. Qed.

Definition tagged (field : reflect.StructField) (db : string) : Prop :=
  reflect.Tag_Get (reflect.Tag field) "db" = db.

Lemma mentions_Permutation (w : string) (flags flags' : list string) :
  Permutation flags flags' -> mentions w flags' = mentions w flags.
Proof.
  intros Hp. unfold mentions.
  apply eq_true_iff_eq. rewrite !existsb_exists.
  split; intros (f & Hin & Hc); exists f; (split; [|done]);
    apply list_elem_of_In; apply list_elem_of_In in Hin;
    first [by rewrite Hp|by rewrite <- Hp].
Qed.

(** What follows once the five booleans are known to be the five
    tests. *)
Lemma flags_consequences (col : Column) (flags : list string) :
  IsPrimaryKey col = mentions "pk" flags ->
  IsAuto col = mentions "serial" flags || mentions "auto" flags ->
  IsReadOnly col = mentions "readonly" flags ->
  IsNullable col = mentions "nullable" flags ->
  IsJSON col = mentions "json" flags ->
  IsPrimaryKey col = mentions "pk" flags /\
  IsAuto col = mentions "serial" flags || mentions "auto" flags /\
  IsReadOnly col = mentions "readonly" flags /\
  IsNullable col = mentions "nullable" flags /\
  IsJSON col = mentions "json" flags /\
  (flagged "pk" flags -> IsPrimaryKey col = true) /\
  (flagged "serial" flags \/ flagged "auto" flags -> IsAuto col = true) /\
  (flagged "readonly" flags -> IsReadOnly col = true) /\
  (flagged "nullable" flags -> IsNullable col = true) /\
  (flagged "json" flags -> IsJSON col = true) /\
  (forall flags', Permutation flags flags' ->
     mentions "pk" flags' = IsPrimaryKey col /\
     mentions "serial" flags' || mentions "auto" flags' = IsAuto col /\
     mentions "readonly" flags' = IsReadOnly col /\
     mentions "nullable" flags' = IsNullable col /\
     mentions "json" flags' = IsJSON col).
Proof.
  intros -> -> -> -> ->.
  do 5 (split; [reflexivity|]).
  split; [intros Hx; by apply flagged_mentions|].
  split; [intros [Hx|Hx]; apply orb_true_iff; [left|right];
          by apply flagged_mentions|].
  do 3 (split; [intros Hx; by apply flagged_mentions|]).
  intros flags' Hp. by rewrite !(mentions_Permutation _ _ _ Hp).
Qed.

(** C2.  A field whose descriptor is [name,flag,...,flag] and not [-]
    yields a column.  Its name is the text before the first comma when
    there is such text, whatever it reads, and the lower-cased field name
    when the descriptor is empty or starts with a comma.  Each of
    IsPrimaryKey, IsAuto, IsReadOnly, IsNullable and IsJSON is true
    exactly when its word ([pk], [serial] or [auto], [readonly],
    [nullable], [json]) occurs in one of the lower-cased flags, so a flag
    that is the word in any case sets it, wherever the flag stands in the
    list.  The two examples of the specification hold. *)
Theorem NewColumnFromFieldTag_descriptor :
  (forall field name flags,
     hasByte "," name = false ->
     Forall (fun f => hasByte "," f = false) flags ->
     tagged field (descriptor name flags) ->
     descriptor name flags <> "-" ->
     exists col,
       NewColumnFromFieldTag lowerNonASCII field = Some col /\
       FieldName col = reflect.Name field /\
       ColumnName col =
         (if decide (name = "")
          then ToLower lowerNonASCII (reflect.Name field) else name) /\
       IsPrimaryKey col = mentions "pk" flags /\
       IsAuto col = mentions "serial" flags || mentions "auto" flags /\
       IsReadOnly col = mentions "readonly" flags /\
       IsNullable col = mentions "nullable" flags /\
       IsJSON col = mentions "json" flags /\
       (flagged "pk" flags -> IsPrimaryKey col = true) /\
       (flagged "serial" flags \/ flagged "auto" flags -> IsAuto col = true) /\
       (flagged "readonly" flags -> IsReadOnly col = true) /\
       (flagged "nullable" flags -> IsNullable col = true) /\
       (flagged "json" flags -> IsJSON col = true) /\
       (forall flags', Permutation flags flags' ->
          mentions "pk" flags' = IsPrimaryKey col /\
          mentions "serial" flags' || mentions "auto" flags' = IsAuto col /\
          mentions "readonly" flags' = IsReadOnly col /\
          mentions "nullable" flags' = IsNullable col /\
          mentions "json" flags' = IsJSON col)) /\
  (forall field,
     tagged field "primary_key_column,pk,serial" ->
     exists col,
       NewColumnFromFieldTag lowerNonASCII field = Some col /\
       ColumnName col = "primary_key_column" /\
       IsPrimaryKey col = true /\ IsAuto col = true /\ IsReadOnly col = false) /\
  (forall field,
     reflect.Name field = "InferredWithFlags" ->
     tagged field ",readonly" ->
     exists col,
       NewColumnFromFieldTag lowerNonASCII field = Some col /\
       ColumnName col = "inferredwithflags" /\
       IsReadOnly col = true /\
       IsPrimaryKey col = false /\ IsAuto col = false /\
       IsNullable col = false /\ IsJSON col = false).
Proof.
  split; [|split].
  - intros field name flags Hn Hf Htag Hdash.
    unfold NewColumnFromFieldTag. rewrite Htag.
    destruct (String.eqb_spec (descriptor name flags) "-") as [|_]; [done|].
    cbn [negb].
    destruct (String.eqb_spec (descriptor name flags) "") as [He|Hne].
    + apply descriptor_empty in He as [-> ->]. cbn [negb].
      eexists. split; [reflexivity|]. split; [done|]. split; [done|].
      by apply flags_consequences.
    + cbn [negb]. rewrite (descriptor_Split _ _ Hn Hf).
      cbn [hd tl length Nat.leb].
      rewrite !Contains_flags by done.
      fold (mentions "pk" flags) (mentions "serial" flags)
        (mentions "auto" flags) (mentions "readonly" flags)
        (mentions "nullable" flags) (mentions "json" flags).
      eexists. split; [reflexivity|]. split; [by destruct (HasPrefix _ _)|].
      split; [|apply flags_consequences; by destruct (HasPrefix _ _)].
      destruct (HasPrefix (descriptor name flags) ",") eqn:Hp; cbn.
      * apply descriptor_prefix in Hp as [-> _]; done.
      * destruct (decide (name = "")) as [->|]; [|done].
        destruct flags as [|f l]; [done|].
        assert (HasPrefix (descriptor "" (f :: l)) "," = true)
          by (by apply descriptor_prefix).
        congruence.
  - intros field Htag. unfold NewColumnFromFieldTag. rewrite Htag.
    eexists. split; [reflexivity|]. by vm_compute.
  - intros field Hname Htag. unfold NewColumnFromFieldTag.
    rewrite Htag, Hname. eexists. split; [reflexivity|]. by vm_compute.
Qed.

End DescriptorFacts.

(** ** The store *)

Section MonadFacts.

Context {S : Type}.

Lemma bind_Ok {A B} (m : St S A) (k : A -> St S B) σ a σ' :
  m σ = Ok a σ' -> bind m k σ = k a σ'.
Proof. unfold bind. by intros ->. Qed.

Lemma bind_Panic {A B} (m : St S A) (k : A -> St S B) σ msg σ' :
  m σ = Panic msg σ' -> bind m k σ = Panic msg σ'.
Proof. unfold bind. by intros ->. Qed.

(** A loop whose body keeps an invariant, indexed by the number of
    rounds done, runs to its end and establishes the invariant there. *)
Lemma foldM_invariant {A B} (I : nat -> B -> S -> Prop)
    (body : B -> A -> St S B) (l : list A) (acc : B) (σ : S) :
  I 0 acc σ ->
  (forall k x acc σ, l !! k = Some x -> I k acc σ ->
     exists acc' σ', body acc x σ = Ok acc' σ' /\ I (Datatypes.S k) acc' σ') ->
  exists acc' σ', foldM body l acc σ = Ok acc' σ' /\ I (length l) acc' σ'.
Proof.
  revert I acc σ. induction l as [|x l IH]; intros I acc σ H0 Hstep.
  - exists acc, σ. by split.
  - destruct (Hstep 0 x acc σ eq_refl H0) as (acc1 & σ1 & Hb & H1).
    destruct (IH (fun k => I (Datatypes.S k)) acc1 σ1 H1) as (acc' & σ' & Hf & HI).
    { intros k y acc2 σ2 Hk. by apply (Hstep (Datatypes.S k)). }
    exists acc', σ'. split; [|exact HI].
    cbn [foldM]. by rewrite (bind_Ok _ _ _ _ _ Hb).
Qed.

End MonadFacts.

Section StoreFacts.

Variable lowerNonASCII : string -> string.
Variable TableNameByType : reflect.Type' -> string.
Variable growslice : nat -> nat -> nat.

(** The elements that the slice [s] shows in the store [σ]. *)
Definition elems (σ : Store) (s : slice) : list Column :=
  match array s with
  | Some a => take (len s) (default [] (arrays σ !! a))
  | None => []
  end.

(** The columns of the collection at [p]. *)
Definition columnsOf (σ : Store) (p : loc) : list Column :=
  match collections σ !! p with
  | Some cc => elems σ (columns cc)
  | None => []
  end.

(** A slice header fits the store: its array is there and is as long
    as the capacity; the nil slice is empty. *)
Definition wfSlice (σ : Store) (s : slice) : Prop :=
  match array s with
  | Some a => exists arr, arrays σ !! a = Some arr /\
                          length arr = cap s /\ len s <= cap s
  | None => len s = 0 /\ cap s = 0
  end.

Lemma wfSlice_nil σ : wfSlice σ nilSlice.
Proof. by split. Qed.

Lemma elems_nil σ : elems σ nilSlice = [].
Proof. done. Qed.

Lemma elems_length σ s : wfSlice σ s -> length (elems σ s) = len s.
Proof.
  unfold wfSlice, elems. destruct (array s) as [a|].
  - intros (arr & -> & Hl & Hle). cbn. rewrite length_take. lia.
  - by intros [-> _].
Qed.

Lemma elements_spec σ s :
  wfSlice σ s -> elements s σ = Ok (elems σ s) σ.
Proof.
  unfold wfSlice, elements, elems, bind, readArray, ret.
  destruct (array s) as [a|]; [|done].
  by intros (arr & -> & _).
Qed.

Lemma index_spec σ s i c :
  wfSlice σ s -> elems σ s !! i = Some c -> index s i σ = Ok c σ.
Proof.
  intros Hwf Hi. pose proof (lookup_lt_Some _ _ _ Hi) as Hlt.
  rewrite (elems_length _ _ Hwf) in Hlt.
  unfold index. apply Nat.ltb_lt in Hlt as Hb. rewrite Hb.
  unfold wfSlice, elems in *. destruct (array s) as [a|]; [|done].
  destruct Hwf as (arr & Ha & _). rewrite Ha in Hi. cbn in Hi.
  rewrite lookup_take_lt in Hi by done.
  unfold bind, readArray, ret. by rewrite Ha, Hi.
Qed.

(** The two ways [append] can go. *)
Inductive appended (σ : Store) (s : slice) (c : Column) (s' : slice) (σ' : Store) : Prop :=
| appended_in_place a arr :
    array s = Some a -> arrays σ !! a = Some arr -> len s < cap s ->
    s' = mkSlice (Some a) (Datatypes.S (len s)) (cap s) ->
    σ' = set_arrays σ (<[a:=<[len s:=c]> arr]> (arrays σ)) ->
    appended σ s c s' σ'
| appended_moved new :
    cap s <= len s ->
    s' = mkSlice (Some (length (arrays σ))) (Datatypes.S (len s)) (length new) ->
    take (Datatypes.S (len s)) new = elems σ s ++ [c] ->
    Datatypes.S (len s) <= length new ->
    σ' = set_arrays σ (arrays σ ++ [new]) ->
    appended σ s c s' σ'.

Lemma append_spec σ s c :
  wfSlice σ s ->
  exists s' σ', append growslice s c σ = Ok s' σ' /\ appended σ s c s' σ'.
Proof.
  intros Hwf. unfold append.
  destruct (len s <? cap s) eqn:Hlt.
  - apply Nat.ltb_lt in Hlt. unfold wfSlice in Hwf.
    destruct (array s) as [a|] eqn:Ha; [|lia].
    destruct Hwf as (arr & Harr & Hl & Hle).
    unfold bind, writeArray, ret. rewrite Harr.
    assert ((len s <? length arr) = true) as -> by (apply Nat.ltb_lt; lia).
    eexists _, _. split; [reflexivity|].
    by eapply appended_in_place.
  - apply Nat.ltb_ge in Hlt.
    rewrite (bind_Ok _ _ _ _ _ (elements_spec _ _ Hwf)).
    unfold bind, allocArray, ret.
    eexists _, _. split; [reflexivity|].
    pose proof (elems_length _ _ Hwf) as Hel.
    eapply appended_moved; [done| |..|reflexivity].
    + f_equal. rewrite !length_app, Hel. cbn. rewrite length_replicate. lia.
    + rewrite cons_middle, app_assoc, take_app_length'; [done|].
      rewrite length_app, Hel. cbn. lia.
    + rewrite length_app, Hel. cbn. lia.
Qed.

Lemma appended_wf σ s c s' σ' :
  wfSlice σ s -> appended σ s c s' σ' -> wfSlice σ' s'.
Proof.
  intros Hwf [a arr Ha Harr Hlt -> ->|new Hle -> Htake Hlen ->];
    unfold wfSlice; cbn.
  - exists (<[len s:=c]> arr). unfold wfSlice in Hwf. rewrite Ha in Hwf.
    destruct Hwf as (arr' & Harr' & Hl & _).
    assert (arr' = arr) as -> by congruence.
    rewrite list_lookup_insert_eq by (by eapply lookup_lt_Some).
    rewrite length_insert. repeat split; [done|lia].
  - exists new. rewrite lookup_app_r, Nat.sub_diag by done. by repeat split.
Qed.

Lemma appended_elems σ s c s' σ' :
  wfSlice σ s -> appended σ s c s' σ' -> elems σ' s' = elems σ s ++ [c].
Proof.
  intros Hwf [a arr Ha Harr Hlt -> ->|new Hle -> Htake Hlen ->];
    unfold elems; cbn.
  - unfold wfSlice in Hwf. rewrite Ha in *.
    destruct Hwf as (arr' & Harr' & Hl & _).
    assert (arr' = arr) as -> by congruence.
    rewrite list_lookup_insert_eq by (by eapply lookup_lt_Some).
    rewrite Harr. cbn.
    rewrite (take_S_r _ _ c), take_insert_ge by
      (try lia; apply list_lookup_insert_eq; lia).
    done.
  - rewrite lookup_app_r, Nat.sub_diag by done. cbn. exact Htake.
Qed.

Lemma appended_len σ s c s' σ' :
  appended σ s c s' σ' -> len s' = Datatypes.S (len s).
Proof. by intros [a arr _ _ _ -> _|new _ -> _ _ _]. Qed.

(** [append] leaves everything but the arrays alone. *)
Lemma appended_rest σ s c s' σ' :
  appended σ s c s' σ' ->
  cells σ' = cells σ /\ maps σ' = maps σ /\
  collections σ' = collections σ /\ metaCache σ' = metaCache σ.
Proof. by intros [a arr _ _ _ _ ->|new _ _ _ _ ->]. Qed.

(** *** Building a collection from a slice *)

(** A store differs from another in its maps only, and there only in
    the map at [m]. *)
Definition sameButMap (m : loc) (σ σ' : Store) : Prop :=
  arrays σ' = arrays σ /\ cells σ' = cells σ /\
  collections σ' = collections σ /\ metaCache σ' = metaCache σ /\
  length (maps σ') = length (maps σ) /\
  forall l, l <> m -> maps σ' !! l = maps σ !! l.

Lemma sameButMap_refl m σ : sameButMap m σ σ.
Proof. by repeat split. Qed.

Lemma sameButMap_trans m σ1 σ2 σ3 :
  sameButMap m σ1 σ2 -> sameButMap m σ2 σ3 -> sameButMap m σ1 σ3.
Proof.
  intros (Ha & Hc & Hk & Hm & Hl & Ho) (Ha' & Hc' & Hk' & Hm' & Hl' & Ho').
  repeat split; try congruence.
  intros l Hne. by rewrite Ho', Ho.
Qed.

Lemma sameButMap_elems m σ σ' s : sameButMap m σ σ' -> elems σ' s = elems σ s.
Proof. intros (Ha & _). unfold elems. by rewrite Ha. Qed.

Lemma sameButMap_wf m σ σ' s : sameButMap m σ σ' -> wfSlice σ s -> wfSlice σ' s.
Proof. intros (Ha & _). unfold wfSlice. by rewrite Ha. Qed.

Lemma mapSet_spec σ m k v :
  m < length (maps σ) ->
  exists σ', mapSet (Some m) k v σ = Ok tt σ' /\ sameButMap m σ σ' /\
             exists entries, maps σ !! m = Some entries /\
                             maps σ' !! m = Some (<[k:=v]> entries).
Proof.
  intros Hm. destruct (lookup_lt_is_Some_2 _ _ Hm) as [entries He].
  unfold mapSet. rewrite He. eexists. split; [reflexivity|].
  split; [|exists entries; split; [done|]; cbn; by apply list_lookup_insert_eq].
  repeat split; cbn; [by rewrite length_insert|].
  intros l Hne. by apply list_lookup_insert_ne.
Qed.

Lemma mapDelete_spec σ m k :
  m < length (maps σ) ->
  exists σ', mapDelete (Some m) k σ = Ok tt σ' /\ sameButMap m σ σ'.
Proof.
  intros Hm. destruct (lookup_lt_is_Some_2 _ _ Hm) as [entries He].
  unfold mapDelete. rewrite He. eexists. split; [reflexivity|].
  repeat split; cbn; [by rewrite length_insert|].
  intros l Hne. by apply list_lookup_insert_ne.
Qed.

Lemma fillLookup_spec σ m s :
  wfSlice σ s -> m < length (maps σ) ->
  exists σ', fillLookup m s σ = Ok tt σ' /\ sameButMap m σ σ'.
Proof.
  intros Hwf Hm. unfold fillLookup, forEach.
  destruct (foldM_invariant (fun _ _ σ' => sameButMap m σ σ')
              (fun _ i =>
                 c <- index s i ;;
                 match array s with
                 | Some a => mapSet (Some m) (ColumnName c) (ElemPtr a i)
                 | None => panic nilDereference
                 end)
              (seq 0 (len s)) tt σ) as ([] & σ' & Hf & HI).
  - apply sameButMap_refl.
  - intros k i [] σ1 Hk Hσ1.
    apply lookup_seq in Hk as [-> Hlt]. cbn.
    pose proof (sameButMap_wf _ _ _ s Hσ1 Hwf) as Hwf1.
    assert (is_Some (elems σ1 s !! k)) as [c Hc].
    { apply lookup_lt_is_Some_2. by rewrite elems_length. }
    rewrite (bind_Ok _ _ _ _ _ (index_spec _ _ _ _ Hwf1 Hc)).
    unfold wfSlice in Hwf. destruct (array s) as [a|]; [|lia].
    destruct (mapSet_spec σ1 m (ColumnName c) (ElemPtr a k)) as (σ2 & Hs & Hsame & _).
    { destruct Hσ1 as (_ & _ & _ & _ & Hl & _). lia. }
    exists tt, σ2. split; [done|]. by eapply sameButMap_trans.
  - exists σ'. by split.
Qed.

(** The state after [newColumnCollectionWithPrefixFromColumns]: one more
    map, one more collection, the rest as before. *)
Definition built (prefix : string) (s : slice) (σ : Store) (p : loc) (σ' : Store) : Prop :=
  p = length (collections σ) /\
  arrays σ' = arrays σ /\ cells σ' = cells σ /\ metaCache σ' = metaCache σ /\
  (exists entries, maps σ' = maps σ ++ [entries]) /\
  collections σ' =
    collections σ ++
      [mkColumnCollection s (Some (length (maps σ))) prefix
         None None None None None None None None].

Lemma newColumnCollectionWithPrefixFromColumns_spec σ prefix s :
  wfSlice σ s ->
  exists p σ', newColumnCollectionWithPrefixFromColumns prefix s σ = Ok p σ' /\
               built prefix s σ p σ'.
Proof.
  intros Hwf. unfold newColumnCollectionWithPrefixFromColumns.
  unfold bind at 1. unfold allocMap.
  set (σ1 := set_maps σ (maps σ ++ [∅])).
  destruct (fillLookup_spec σ1 (length (maps σ)) s) as (σ2 & Hf & Hsame).
  { done. }
  { subst σ1. cbn. rewrite length_app. cbn. lia. }
  rewrite (bind_Ok _ _ _ _ _ Hf). unfold allocCC.
  destruct Hsame as (Ha & Hc & Hk & Hm & Hl & Ho).
  eexists _, _. split; [reflexivity|].
  subst σ1. cbn in *. repeat split; try done; [congruence| |by rewrite Hk].
  rewrite length_app in Hl. cbn in Hl.
  destruct (lookup_lt_is_Some_2 (maps σ2) (length (maps σ)) ltac:(lia)) as [entries He].
  exists entries. apply list_eq. intros i. cbn.
  destruct (decide (i = length (maps σ))) as [->|Hne].
  - by rewrite He, lookup_app_r, Nat.sub_diag.
  - rewrite (Ho i Hne).
    destruct (decide (i < length (maps σ))).
    + by rewrite !lookup_app_l.
    + rewrite !lookup_ge_None_2; [done|rewrite length_app; cbn; lia|rewrite length_app; cbn; lia].
Qed.

Lemma newColumnCollectionFromColumns_spec σ s :
  wfSlice σ s ->
  exists p σ', newColumnCollectionFromColumns s σ = Ok p σ' /\ built "" s σ p σ'.
Proof. apply (newColumnCollectionWithPrefixFromColumns_spec σ ""). Qed.

(** The collection at [p] is there and its slice fits the store. *)
Definition wfColumns (σ : Store) (p : loc) : Prop :=
  exists cc, collections σ !! p = Some cc /\ wfSlice σ (columns cc).

Lemma built_wf prefix s σ p σ' :
  wfSlice σ s -> built prefix s σ p σ' -> wfColumns σ' p.
Proof.
  intros Hwf (-> & Ha & _ & _ & _ & Hk). eexists. split.
  - by rewrite Hk, lookup_app_r, Nat.sub_diag.
  - cbn. unfold wfSlice. by rewrite Ha.
Qed.

Lemma Len_spec σ p :
  wfColumns σ p -> Len p σ = Ok (length (columnsOf σ p)) σ.
Proof.
  intros (cc & Hcc & Hwf). unfold Len, bind, loadCC, ret, columnsOf.
  by rewrite Hcc, elems_length.
Qed.

Lemma built_columnsOf prefix s σ p σ' :
  built prefix s σ p σ' -> columnsOf σ' p = elems σ s.
Proof.
  intros (-> & Ha & _ & _ & _ & Hk). unfold columnsOf.
  rewrite Hk, lookup_app_r, Nat.sub_diag by done. cbn.
  unfold elems. by rewrite Ha.
Qed.

(** *** Appending to a slice that nothing else refers to *)

(** The slice [s] lies outside the arrays that the store [σ0] had. *)
Definition outside_of (σ0 : Store) (s : slice) : Prop :=
  forall a, array s = Some a -> length (arrays σ0) <= a.

Lemma prefix_insert_ge {A} (l1 l2 : list A) i x :
  l1 `prefix_of` l2 -> length l1 <= i -> l1 `prefix_of` <[i:=x]> l2.
Proof.
  intros [k ->] Hi. rewrite insert_app_r_alt by done. by eexists.
Qed.

Lemma appended_outside σ0 σ s c s' σ' :
  arrays σ0 `prefix_of` arrays σ -> outside_of σ0 s ->
  appended σ s c s' σ' ->
  arrays σ0 `prefix_of` arrays σ' /\ outside_of σ0 s'.
Proof.
  intros Hpre Hout [a arr Ha Harr Hlt -> ->|new Hle -> Htake Hlen ->]; cbn.
  - split; [apply prefix_insert_ge; auto|].
    intros a' [= <-]. auto.
  - split; [by apply prefix_app_r|].
    intros a' [= <-]. by apply prefix_length.
Qed.

(** *** Reading the fields of a struct type *)

(** A field takes part in the mapping: it is not embedded and its
    descriptor is not [-]. *)
Definition included (field : reflect.StructField) : bool :=
  negb (reflect.Anonymous field) &&
  negb (String.eqb (reflect.Tag_Get (reflect.Tag field) "db") "-").

(** The column that the loop of [generateColumnCollectionForType] makes
    of the field at position [index], if any. *)
Definition columnFor (tableName : string) (index : nat)
    (field : reflect.StructField) : option Column :=
  if reflect.Anonymous field then None
  else match NewColumnFromFieldTag lowerNonASCII field with
       | Some col => Some (set_TableName (set_Index col (Z.of_nat index)) tableName)
       | None => None
       end.

Fixpoint columnsFrom (tableName : string) (index : nat)
    (fields : list reflect.StructField) : list Column :=
  match fields with
  | [] => []
  | field :: rest =>
      option_list (columnFor tableName index field) ++
      columnsFrom tableName (Datatypes.S index) rest
  end.

Lemma columnsFrom_snoc tableName index fields field :
  columnsFrom tableName index (fields ++ [field]) =
    columnsFrom tableName index fields ++
    option_list (columnFor tableName (index + length fields) field).
Proof.
  revert index. induction fields as [|f l IH]; intros index; cbn.
  - by rewrite Nat.add_0_r, app_nil_r.
  - rewrite IH, <- app_assoc.
    by replace (index + Datatypes.S (length l)) with (Datatypes.S index + length l) by lia.
Qed.

Lemma NewColumnFromFieldTag_is_Some field :
  String.eqb (reflect.Tag_Get (reflect.Tag field) "db") "-" = false ->
  exists col, NewColumnFromFieldTag lowerNonASCII field = Some col /\
              FieldName col = reflect.Name field.
Proof.
  intros Hd. unfold NewColumnFromFieldTag. rewrite Hd. cbn [negb].
  destruct (String.eqb _ ""); cbn [negb]; [by eexists|].
  destruct (strings.HasPrefix _ _); cbn [negb];
    destruct (1 <=? _); by eexists.
Qed.

Lemma NewColumnFromFieldTag_dash field :
  String.eqb (reflect.Tag_Get (reflect.Tag field) "db") "-" = true ->
  NewColumnFromFieldTag lowerNonASCII field = None.
Proof. intros Hd. unfold NewColumnFromFieldTag. by rewrite Hd. Qed.

Lemma columnFor_included tableName index field :
  included field = true ->
  exists col, columnFor tableName index field = Some col /\
              FieldName col = reflect.Name field /\
              Index col = Z.of_nat index /\ TableName col = tableName.
Proof.
  unfold included, columnFor.
  intros [Ha Hd]%andb_true_iff. apply negb_true_iff in Ha, Hd. rewrite Ha.
  destruct (NewColumnFromFieldTag_is_Some field Hd) as (col & -> & Hn).
  by eexists.
Qed.

Lemma columnFor_excluded tableName index field :
  included field = false -> columnFor tableName index field = None.
Proof.
  unfold included, columnFor. intros [Ha|Hd]%andb_false_iff.
  - apply negb_false_iff in Ha. by rewrite Ha.
  - apply negb_false_iff in Hd. rewrite NewColumnFromFieldTag_dash by done.
    by destruct (reflect.Anonymous field).
Qed.

Lemma columnsFrom_names tableName index fields :
  map FieldName (columnsFrom tableName index fields) =
    map reflect.Name (filter (fun f => included f = true) fields).
Proof.
  revert index. induction fields as [|f l IH]; intros index; [done|].
  cbn [columnsFrom]. rewrite map_app, IH, filter_cons.
  destruct (included f) eqn:Hi.
  - destruct (columnFor_included tableName index f Hi) as (col & -> & Hn & _).
    rewrite decide_True by done. cbn. by rewrite Hn.
  - rewrite (columnFor_excluded _ _ _ Hi), decide_False by done. done.
Qed.

(** Every column comes from an included field and carries that field's
    position. *)
Lemma columnsFrom_origin tableName index fields col :
  col ∈ columnsFrom tableName index fields ->
  exists k field,
    fields !! k = Some field /\ included field = true /\
    columnFor tableName (index + k) field = Some col.
Proof.
  revert index. induction fields as [|f l IH]; intros index; cbn [columnsFrom].
  - by intros ?%elem_of_nil.
  - intros [Hh|Ht]%elem_of_app.
    + exists 0, f. rewrite Nat.add_0_r.
      destruct (included f) eqn:Hi.
      * destruct (columnFor tableName index f); cbn in Hh;
          [apply list_elem_of_singleton in Hh as ->; by repeat split
          |by apply elem_of_nil in Hh].
      * rewrite (columnFor_excluded _ _ _ Hi) in Hh. by apply elem_of_nil in Hh.
    + destruct (IH _ Ht) as (k & field & Hk & Hi & Hc).
      exists (Datatypes.S k), field. repeat split; [done..|].
      by replace (index + Datatypes.S k) with (Datatypes.S index + k) by lia.
Qed.

Lemma columnFor_Index tableName index field col :
  columnFor tableName index field = Some col -> Index col = Z.of_nat index.
Proof.
  unfold columnFor. destruct (reflect.Anonymous field); [done|].
  destruct (NewColumnFromFieldTag lowerNonASCII field); [|done].
  by intros [= <-].
Qed.

(** The columns stand in the order of the positions of their fields. *)
Lemma columnsFrom_increasing tableName index fields i j ci cj :
  i < j ->
  columnsFrom tableName index fields !! i = Some ci ->
  columnsFrom tableName index fields !! j = Some cj ->
  (Z.of_nat index <= Index ci < Index cj)%Z.
Proof.
  revert index i j. induction fields as [|f l IH]; intros index i j Hij;
    cbn [columnsFrom]; [done|].
  assert (Hlater : forall k c, columnsFrom tableName (Datatypes.S index) l !! k = Some c ->
                     (Z.of_nat index < Index c)%Z).
  { intros k c Hk. apply list_elem_of_lookup_2, columnsFrom_origin in Hk
      as (k' & field & _ & _ & Hc).
    apply columnFor_Index in Hc. lia. }
  destruct (columnFor tableName index f) as [c|] eqn:Hc; cbn.
  - destruct i as [|i]; destruct j as [|j]; try lia; cbn.
    + intros [= <-] Hj. apply columnFor_Index in Hc. apply Hlater in Hj. lia.
    + intros Hi Hj. destruct (IH (Datatypes.S index) i j ltac:(lia) Hi Hj). lia.
  - intros Hi Hj. destruct (IH (Datatypes.S index) i j Hij Hi Hj). lia.
Qed.

Lemma generateColumnCollectionForType_spec t name fields σ :
  elemType t = reflect.StructOf name fields ->
  exists p σ',
    generateColumnCollectionForType lowerNonASCII TableNameByType growslice t σ
      = Ok p σ' /\
    columnsOf σ' p =
      columnsFrom (TableNameByType (reflect.StructOf name fields)) 0 fields /\
    wfColumns σ' p /\
    p = length (collections σ) /\
    length (collections σ') = Datatypes.S (length (collections σ)) /\
    metaCache σ' = metaCache σ.
Proof.
  intros Ht. unfold generateColumnCollectionForType. rewrite Ht.
  set (tableName := TableNameByType (reflect.StructOf name fields)).
  match goal with |- context [foldM ?body _ _] => set (loop := body) end.
  destruct (foldM_invariant
              (fun k cols σ' =>
                 wfSlice σ' cols /\
                 elems σ' cols = columnsFrom tableName 0 (take k fields) /\
                 arrays σ `prefix_of` arrays σ' /\ outside_of σ cols /\
                 cells σ' = cells σ /\ maps σ' = maps σ /\
                 collections σ' = collections σ /\ metaCache σ' = metaCache σ)
              loop (seq 0 (length fields)) nilSlice σ)
    as (cols & σ1 & Hf & Hwf & Hel & _ & _ & Hc & Hm & Hk & Hmc).
  - by repeat split.
  - intros k i cols σ1 Hi (Hwf & Hel & Hpre & Hout & Hc & Hm & Hk & Hmc).
    apply lookup_seq in Hi as [-> Hlt]. cbn in *.
    destruct (lookup_lt_is_Some_2 fields k Hlt) as [field Hfield].
    assert (Hsnoc : columnsFrom tableName 0 (take (Datatypes.S k) fields) =
              columnsFrom tableName 0 (take k fields) ++
              option_list (columnFor tableName k field)).
    { rewrite (take_S_r _ _ _ Hfield), columnsFrom_snoc, length_take.
      do 3 f_equal. lia. }
    unfold loop. rewrite Hfield. unfold columnFor in Hsnoc.
    destruct (reflect.Anonymous field); cbn [negb].
    + exists cols, σ1. split; [done|]. rewrite Hsnoc, app_nil_r. by repeat split.
    + destruct (NewColumnFromFieldTag lowerNonASCII field) as [col|].
      * destruct (append_spec σ1 cols
                    (set_TableName (set_Index col (Z.of_nat k)) tableName) Hwf)
          as (cols' & σ2 & Ha & Happ).
        exists cols', σ2. split; [done|].
        destruct (appended_rest _ _ _ _ _ Happ) as (? & ? & ? & ?).
        destruct (appended_outside _ _ _ _ _ _ Hpre Hout Happ).
        repeat split; try congruence; try done; [by eapply appended_wf|].
        rewrite Hsnoc, <- Hel. by eapply appended_elems.
      * exists cols, σ1. split; [done|]. rewrite Hsnoc, app_nil_r. by repeat split.
  - rewrite (bind_Ok _ _ _ _ _ Hf).
    destruct (newColumnCollectionFromColumns_spec σ1 cols Hwf) as (p & σ2 & Hn & Hb).
    exists p, σ2. split; [done|].
    rewrite (built_columnsOf _ _ _ _ _ Hb), Hel, length_seq, firstn_all.
    pose proof (built_wf _ _ _ _ _ Hwf Hb) as Hwfp.
    destruct Hb as (-> & _ & _ & Hmc' & _ & Hk').
    repeat split; [done|congruence| |congruence].
    rewrite Hk', length_app, Hk. cbn. lia.
Qed.

Lemma generateColumnCollectionForType_panics t σ :
  (forall name fields, elemType t <> reflect.StructOf name fields) ->
  exists msg,
    generateColumnCollectionForType lowerNonASCII TableNameByType growslice t σ
      = Panic msg σ.
Proof.
  intros Ht. unfold generateColumnCollectionForType.
  destruct (elemType t) as [e|name fields|k n]; [by eexists| |by eexists].
  by destruct (Ht name fields).
Qed.

(** C4.  Let a type be a struct, or a pointer (to a pointer ...) to a
    struct, and let N of its fields be included: not embedded and with a
    descriptor other than [-].  Then the collection made for the type has
    N columns, one for each included field, in the order of declaration:
    the field names of the columns are the names of the included fields
    in that order, every column carries the position of an included
    field, with that field's name, and positions grow along the
    collection.  So no column stands for an embedded field or for a
    field whose descriptor is [-].  A first resolution of the type
    through the cache returns such a collection. *)
Theorem generateColumnCollectionForType_columns t name fields σ :
  elemType t = reflect.StructOf name fields ->
  let N := length (filter (fun f => included f = true) fields) in
  exists p σ',
    generateColumnCollectionForType lowerNonASCII TableNameByType growslice t σ
      = Ok p σ' /\
    (forall identifier,
       metaCache σ = None \/
       (exists cache, metaCache σ = Some cache /\ cache !! identifier = None) ->
       exists σ'',
         getCachedColumnCollectionFromType lowerNonASCII TableNameByType
           growslice identifier t σ = Ok p σ'' /\
         columnsOf σ'' p = columnsOf σ' p) /\
    Len p σ' = Ok N σ' /\
    length (columnsOf σ' p) = N /\
    map FieldName (columnsOf σ' p) =
      map reflect.Name (filter (fun f => included f = true) fields) /\
    (forall col, col ∈ columnsOf σ' p ->
       exists field,
         fields !! Z.to_nat (Index col) = Some field /\
         (0 <= Index col)%Z /\
         included field = true /\
         FieldName col = reflect.Name field) /\
    (forall i j ci cj,
       i < j ->
       columnsOf σ' p !! i = Some ci -> columnsOf σ' p !! j = Some cj ->
       (Index ci < Index cj)%Z).
Proof.
  intros Ht N.
  destruct (generateColumnCollectionForType_spec t name fields σ Ht)
    as (p & σ' & Hg & Hcols & Hwfp & Hp & Hlen & Hmc).
  set (tableName := TableNameByType (reflect.StructOf name fields)) in *.
  assert (HN : length (columnsOf σ' p) = N).
  { rewrite <- (length_map FieldName), Hcols, columnsFrom_names.
    by rewrite length_map. }
  exists p, σ'. split; [done|]. split; [|split; [|split; [done|split; [|split]]]].
  - intros identifier Hmiss.
    assert (Hmiss' : default ∅ (metaCache
              match metaCache σ with
              | Some _ => σ
              | None => set_metaCache σ (Some ∅)
              end) !! identifier = None).
    { destruct Hmiss as [Hn|(cache & Hs & Hc)].
      - by rewrite Hn.
      - by rewrite Hs, Hs. }
    unfold getCachedColumnCollectionFromType. rewrite Hmiss'.
    destruct (generateColumnCollectionForType_spec t name fields
                (match metaCache σ with
                 | Some _ => σ
                 | None => set_metaCache σ (Some ∅)
                 end) Ht)
      as (p' & σ1 & Hg' & Hcols' & _ & Hp' & _ & _).
    rewrite (bind_Ok _ _ _ _ _ Hg').
    assert (p' = p) as ->.
    { rewrite Hp, Hp'. by destruct (metaCache σ). }
    eexists. split; [reflexivity|].
    unfold columnsOf in *. cbn. unfold elems in *. cbn. by rewrite Hcols, Hcols'.
  - by rewrite (Len_spec _ _ Hwfp), HN.
  - by rewrite Hcols, columnsFrom_names.
  - intros col Hcol. rewrite Hcols in Hcol.
    apply columnsFrom_origin in Hcol as (k & field & Hk & Hi & Hc).
    exists field. pose proof (columnFor_Index _ _ _ _ Hc) as ->.
    destruct (columnFor_included tableName (0 + k) field Hi) as (col' & Hc' & Hn & _).
    assert (col' = col) as -> by congruence.
    rewrite Nat2Z.id. repeat split; [done|lia|done|done].
  - intros i j ci cj Hij Hi Hj. rewrite Hcols in Hi, Hj.
    by destruct (columnsFrom_increasing _ _ _ _ _ _ _ Hij Hi Hj).
Qed.

(** *** Adding to and removing from a collection *)

Lemma elems_arrays σ σ' s : arrays σ' = arrays σ -> elems σ' s = elems σ s.
Proof. unfold elems. by intros ->. Qed.

Lemma wfSlice_arrays σ σ' s : arrays σ' = arrays σ -> wfSlice σ s -> wfSlice σ' s.
Proof. unfold wfSlice. by intros ->. Qed.

(** Arrays that are only added to keep every slice as it was. *)
Lemma elems_prefix σ σ' s :
  arrays σ `prefix_of` arrays σ' -> wfSlice σ s ->
  wfSlice σ' s /\ elems σ' s = elems σ s.
Proof.
  intros Hpre Hwf. unfold wfSlice, elems in *.
  destruct (array s) as [a|]; [|done].
  destruct Hwf as (arr & Ha & Hl & Hle).
  pose proof (prefix_lookup_Some _ _ _ _ Ha Hpre) as Ha'.
  rewrite Ha, Ha'. split; [by exists arr|done].
Qed.

Lemma loadCC_spec σ p cc :
  collections σ !! p = Some cc -> loadCC p σ = Ok cc σ.
Proof. unfold loadCC. by intros ->. Qed.

Lemma assign_spec σ p cc f :
  collections σ !! p = Some cc ->
  assign p f σ = Ok tt (set_collections σ (<[p:=f cc]> (collections σ))).
Proof.
  intros H. unfold assign, bind, loadCC, storeCC. rewrite H. by rewrite H.
Qed.

(** What [Add] does to the store. *)
Lemma Add_spec σ q qc m c :
  collections σ !! q = Some qc -> wfSlice σ (columns qc) ->
  lookup qc = Some m -> m < length (maps σ) ->
  exists s' σa σ',
    appended (set_cells σ (cells σ ++ [c])) (columns qc) c s' σa /\
    Add growslice q c σ = Ok tt σ' /\
    arrays σ' = arrays σa /\
    cells σ' = cells σ ++ [c] /\
    collections σ' = <[q:=set_columns qc s']> (collections σ) /\
    metaCache σ' = metaCache σ /\
    length (maps σ') = length (maps σ) /\
    (forall l, l <> m -> maps σ' !! l = maps σ !! l).
Proof.
  intros Hq Hwf Hm Hlt. unfold Add.
  unfold bind at 1. unfold allocCell.
  set (σc := set_cells σ (cells σ ++ [c])).
  assert (Hqc : collections σc !! q = Some qc) by done.
  rewrite (bind_Ok _ _ _ _ _ (loadCC_spec _ _ _ Hqc)).
  destruct (append_spec σc (columns qc) c) as (s' & σa & Ha & Happ);
    [by eapply wfSlice_arrays|].
  rewrite (bind_Ok _ _ _ _ _ Ha).
  destruct (appended_rest _ _ _ _ _ Happ) as (Hc & Hmaps & Hk & Hmc).
  assert (Hqa : collections σa !! q = Some qc) by (by rewrite Hk).
  rewrite (bind_Ok _ _ _ _ _ (assign_spec _ _ _ _ Hqa)).
  set (σ2 := set_collections σa (<[q:=set_columns qc s']> (collections σa))).
  assert (Hq2 : collections σ2 !! q = Some (set_columns qc s')).
  { cbn. apply list_lookup_insert_eq. by eapply lookup_lt_Some. }
  rewrite (bind_Ok _ _ _ _ _ (loadCC_spec _ _ _ Hq2)). cbn [lookup set_columns].
  rewrite Hm.
  destruct (mapSet_spec σ2 m (ColumnName c) (CellPtr (length (cells σ))))
    as (σ' & Hs & (Ha' & Hc' & Hk' & Hmc' & Hl' & Ho') & _).
  { cbn. by rewrite Hmaps. }
  exists s', σa, σ'. split; [done|]. split; [done|].
  cbn in *. rewrite Ha', Hc', Hk', Hmc', Hl', Hc, Hk, Hmc, Hmaps.
  repeat split; try done. intros l Hl. by rewrite Ho', Hmaps.
Qed.

(** *** Copies *)

(** The ways to change the prefix or the membership of a collection. *)
Inductive Mutation :=
| SetPrefix (prefix : string)
| AddColumn (c : Column)
| RemoveColumn (columnName : string).

Definition mutate (q : loc) (m : Mutation) : M unit :=
  match m with
  | SetPrefix prefix => assign q (fun cc => set_columnPrefix cc prefix)
  | AddColumn c => Add growslice q c
  | RemoveColumn columnName => Remove growslice q columnName
  end.

(** What a [*Column] points to. *)
Definition deref (σ : Store) (ptr : ColumnPtr) : option Column :=
  match ptr with
  | ElemPtr a i => arr ← arrays σ !! a; arr !! i
  | CellPtr b => cells σ !! b
  end.

(** The map that the collection at [p] looks names up in. *)
Definition lookupOf (σ : Store) (p : loc) : option (gmap string ColumnPtr) :=
  cc ← collections σ !! p; m ← lookup cc; maps σ !! m.

(** A pointer of a collection's lookup points into the store, and not
    into the spare capacity of the collection's own array. *)
Definition validPtr (σ : Store) (s : slice) (ptr : ColumnPtr) : Prop :=
  match ptr with
  | ElemPtr a i =>
      a < length (arrays σ) /\ (array s = Some a -> i < len s)
  | CellPtr b => b < length (cells σ)
  end.

(** The collection at [p] as the package leaves one: its slice fits the
    store, its lookup map is there, and the pointers in it are valid. *)
Definition wfCollection (σ : Store) (p : loc) : Prop :=
  exists cc, collections σ !! p = Some cc /\ wfSlice σ (columns cc) /\
    forall m, lookup cc = Some m ->
      exists entries, maps σ !! m = Some entries /\
        forall k ptr, entries !! k = Some ptr -> validPtr σ (columns cc) ptr.

Lemma sameButMap_validPtr m σ σ' s ptr :
  sameButMap m σ σ' -> validPtr σ s ptr -> validPtr σ' s ptr.
Proof. intros (Ha & Hc & _). unfold validPtr. by rewrite Ha, Hc. Qed.

(** The loop of the constructors leaves valid pointers in the map. *)
Lemma fillLookup_valid σ m s entries0 σ' :
  wfSlice σ s -> maps σ !! m = Some entries0 ->
  (forall k ptr, entries0 !! k = Some ptr -> validPtr σ s ptr) ->
  fillLookup m s σ = Ok tt σ' ->
  exists entries, maps σ' !! m = Some entries /\
    forall k ptr, entries !! k = Some ptr -> validPtr σ' s ptr.
Proof.
  intros Hwf Hm Hvalid Hrun. unfold fillLookup, forEach in Hrun.
  destruct (foldM_invariant
              (fun _ _ σ1 =>
                 sameButMap m σ σ1 /\
                 exists entries, maps σ1 !! m = Some entries /\
                   forall k ptr, entries !! k = Some ptr -> validPtr σ1 s ptr)
              (fun _ i =>
                 c <- index s i ;;
                 match array s with
                 | Some a => mapSet (Some m) (ColumnName c) (ElemPtr a i)
                 | None => panic nilDereference
                 end)
              (seq 0 (len s)) tt σ) as ([] & σ2 & Hf & _ & HI).
  - split; [apply sameButMap_refl|]. by exists entries0.
  - intros k i [] σ1 Hk (Hσ1 & entries & He & Hv).
    apply lookup_seq in Hk as [-> Hlt]. cbn.
    pose proof (sameButMap_wf _ _ _ s Hσ1 Hwf) as Hwf1.
    assert (is_Some (elems σ1 s !! k)) as [c Hc].
    { apply lookup_lt_is_Some_2. by rewrite elems_length. }
    rewrite (bind_Ok _ _ _ _ _ (index_spec _ _ _ _ Hwf1 Hc)).
    pose proof Hwf1 as Hwf1'.
    unfold wfSlice in Hwf1'. destruct (array s) as [a|] eqn:Ha; [|lia].
    destruct Hwf1' as (arr & Harr & _).
    destruct (mapSet_spec σ1 m (ColumnName c) (ElemPtr a k))
      as (σ3 & Hs & Hsame & entries' & He' & He3).
    { by eapply lookup_lt_Some. }
    exists tt, σ3. split; [done|]. split; [by eapply sameButMap_trans|].
    exists (<[ColumnName c:=ElemPtr a k]> entries'). split; [done|].
    assert (entries' = entries) as -> by congruence.
    intros key ptr [[_ <-]|[_ Hold]]%lookup_insert_Some.
    + destruct Hsame as (Ha3 & _). unfold validPtr. rewrite Ha3.
      split; [by eapply lookup_lt_Some|done].
    + eapply sameButMap_validPtr; [done|]. by eapply Hv.
  - rewrite Hf in Hrun. by injection Hrun as <-.
Qed.

(** A collection that a constructor has just built from a slice is as
    [wfCollection] asks. *)
Lemma newColumnCollectionWithPrefixFromColumns_wfCollection σ prefix s p σ' :
  wfSlice σ s ->
  newColumnCollectionWithPrefixFromColumns prefix s σ = Ok p σ' ->
  wfCollection σ' p.
Proof.
  intros Hwf. unfold newColumnCollectionWithPrefixFromColumns.
  unfold bind at 1. unfold allocMap.
  set (σ1 := set_maps σ (maps σ ++ [∅])).
  destruct (fillLookup_spec σ1 (length (maps σ)) s) as (σ2 & Hf & Hsame).
  { done. }
  { subst σ1. cbn. rewrite length_app. cbn. lia. }
  destruct (fillLookup_valid σ1 (length (maps σ)) s ∅ σ2) as (entries & He & Hv);
    [done|subst σ1; cbn; by rewrite lookup_app_r, Nat.sub_diag| |done|].
  { intros k ptr. by rewrite lookup_empty. }
  rewrite (bind_Ok _ _ _ _ _ Hf). unfold allocCC. intros [= <- <-].
  eexists. split; [cbn; by rewrite lookup_app_r, Nat.sub_diag|].
  assert (Hwf2 : wfSlice σ2 s) by (by eapply sameButMap_wf).
  split; [exact Hwf2|].
  intros m [= <-]. exists entries. split; [exact He|exact Hv].
Qed.

Lemma generateColumnCollectionForType_wfCollection t name fields σ p σ' :
  elemType t = reflect.StructOf name fields ->
  generateColumnCollectionForType lowerNonASCII TableNameByType growslice t σ
    = Ok p σ' ->
  wfCollection σ' p.
Proof.
  intros Ht. unfold generateColumnCollectionForType. rewrite Ht.
  match goal with |- context [foldM ?body _ _] => set (loop := body) end.
  destruct (foldM_invariant (fun _ cols σ1 => wfSlice σ1 cols)
              loop (seq 0 (length fields)) nilSlice σ)
    as (cols & σ1 & Hf & Hwf).
  - apply wfSlice_nil.
  - intros k i cols σ1 Hi Hwf.
    apply lookup_seq in Hi as [-> Hlt]. cbn in *.
    destruct (lookup_lt_is_Some_2 fields k Hlt) as [field Hfield].
    unfold loop. rewrite Hfield.
    destruct (reflect.Anonymous field); cbn [negb]; [by exists cols, σ1|].
    destruct (NewColumnFromFieldTag lowerNonASCII field) as [col|];
      [|by exists cols, σ1].
    destruct (append_spec σ1 cols
                (set_TableName (set_Index col (Z.of_nat k))
                   (TableNameByType (reflect.StructOf name fields))) Hwf)
      as (cols' & σ2 & Ha & Happ).
    exists cols', σ2. split; [done|]. by eapply appended_wf.
  - rewrite (bind_Ok _ _ _ _ _ Hf).
    by apply newColumnCollectionWithPrefixFromColumns_wfCollection.
Qed.

(** Nothing that can be seen through the collection at [p] differs
    between two stores: the struct itself (slice header, prefix,
    memoised pointers), the columns, the lookup map, what the pointers
    in the map point to, and what [HasColumn] answers. *)
Definition sameCollection (p : loc) (σ σ' : Store) : Prop :=
  collections σ' !! p = collections σ !! p /\
  columnsOf σ' p = columnsOf σ p /\
  lookupOf σ' p = lookupOf σ p /\
  (forall entries k ptr,
     lookupOf σ p = Some entries -> entries !! k = Some ptr ->
     deref σ' ptr = deref σ ptr) /\
  (forall name b,
     HasColumn p name σ = Ok b σ -> HasColumn p name σ' = Ok b σ').

(** The old arrays are still there, changed at most in the spare
    capacity of the array of [pc]. *)
Definition arraysKept (σ0 : Store) (pc : ColumnCollection) (σ : Store) : Prop :=
  forall a arr0, arrays σ0 !! a = Some arr0 ->
    exists arr, arrays σ !! a = Some arr /\ length arr = length arr0 /\
      forall i, (array (columns pc) = Some a -> i < len (columns pc)) ->
                arr !! i = arr0 !! i.

(** A slice that, if it uses an old array at all, uses the array of [pc]
    and hides none of its elements. *)
Definition behind (σ0 : Store) (pc : ColumnCollection) (s : slice) : Prop :=
  forall a, array s = Some a -> a < length (arrays σ0) ->
    array (columns pc) = Some a /\ len (columns pc) <= len s.

Definition sourceKept (σ0 : Store) (pc : ColumnCollection) (p : loc) (σ : Store) : Prop :=
  collections σ !! p = Some pc /\
  maps σ0 `prefix_of` maps σ /\ cells σ0 `prefix_of` cells σ /\
  arraysKept σ0 pc σ.

Definition copyKept (σ0 : Store) (pc : ColumnCollection) (q : loc) (σ : Store) : Prop :=
  exists qc m,
    collections σ !! q = Some qc /\ length (collections σ0) <= q /\
    lookup qc = Some m /\ length (maps σ0) <= m < length (maps σ) /\
    wfSlice σ (columns qc) /\ behind σ0 pc (columns qc).

Lemma arraysKept_length σ0 pc σ :
  arraysKept σ0 pc σ -> length (arrays σ0) <= length (arrays σ).
Proof.
  intros Hk. destruct (arrays σ0) as [|x l] eqn:E using rev_ind; [cbn; lia|].
  destruct (Hk (length l) x) as (arr & Ha & _).
  { by rewrite E, lookup_app_r, Nat.sub_diag. }
  apply lookup_lt_Some in Ha. rewrite length_app. cbn. lia.
Qed.

Lemma arraysKept_refl σ0 pc : arraysKept σ0 pc σ0.
Proof. intros a arr0 Ha. by exists arr0. Qed.

Lemma arraysKept_prefix σ0 pc σ σ' :
  arraysKept σ0 pc σ -> arrays σ `prefix_of` arrays σ' -> arraysKept σ0 pc σ'.
Proof.
  intros Hk Hpre a arr0 Ha. destruct (Hk a arr0 Ha) as (arr & Harr & Hl & Hi).
  exists arr. split; [by eapply prefix_lookup_Some|done].
Qed.

Lemma appended_kept σ0 pc σ s c s' σ' :
  arraysKept σ0 pc σ -> behind σ0 pc s -> appended σ s c s' σ' ->
  arraysKept σ0 pc σ' /\ behind σ0 pc s'.
Proof.
  intros Hk Hb [a arr Ha Harr Hlt -> ->|new Hle -> Htake Hlen ->]; cbn.
  - split.
    + intros a0 arr0 Ha0. destruct (Hk a0 arr0 Ha0) as (arr1 & Harr1 & Hl & Hi).
      destruct (decide (a0 = a)) as [->|Hne].
      * assert (arr1 = arr) as -> by congruence.
        exists (<[len s:=c]> arr). cbn.
        rewrite list_lookup_insert_eq by (by eapply lookup_lt_Some).
        rewrite length_insert. repeat split; [done|].
        intros i Hip. destruct (Hb a Ha (lookup_lt_Some _ _ _ Ha0)) as [Hpa Hlen].
        specialize (Hip Hpa). rewrite list_lookup_insert_ne by lia. by apply Hi.
      * exists arr1. cbn. by rewrite list_lookup_insert_ne.
    + intros a0 [= <-] Hold. destruct (Hb a Ha Hold). cbn. split; [done|lia].
  - split.
    + apply (arraysKept_prefix _ _ σ); [done|]. cbn. by apply prefix_app_r.
    + intros a0 [= <-] Hold. apply arraysKept_length in Hk. lia.
Qed.

Lemma behind_outside σ0 pc s : outside_of σ0 s -> behind σ0 pc s.
Proof. intros Ho a Ha Hlt. specialize (Ho a Ha). lia. Qed.

(** [Remove], seen from a store whose collection at [q] is as
    [copyKept] says. *)
Lemma Remove_spec σ q qc m columnName :
  collections σ !! q = Some qc -> wfSlice σ (columns qc) ->
  lookup qc = Some m -> m < length (maps σ) ->
  exists s' σ',
    Remove growslice q columnName σ = Ok tt σ' /\
    arrays σ `prefix_of` arrays σ' /\ outside_of σ s' /\ wfSlice σ' s' /\
    elems σ' s' =
      filter (fun c => negb (String.eqb (ColumnName c) columnName) = true)
             (elems σ (columns qc)) /\
    cells σ' = cells σ /\
    collections σ' = <[q:=set_columns qc s']> (collections σ) /\
    metaCache σ' = metaCache σ /\
    length (maps σ') = length (maps σ) /\
    (forall l, l <> m -> maps σ' !! l = maps σ !! l).
Proof.
  intros Hq Hwf Hm Hlt. unfold Remove.
  rewrite (bind_Ok _ _ _ _ _ (loadCC_spec _ _ _ Hq)).
  set (keep := fun c => negb (String.eqb (ColumnName c) columnName)).
  unfold rangeSlice.
  match goal with |- context [foldM ?body _ _] => set (loop := body) end.
  destruct (foldM_invariant
              (fun k s' σ' =>
                 arrays σ `prefix_of` arrays σ' /\ outside_of σ s' /\
                 wfSlice σ' s' /\
                 elems σ' s' =
                   filter (fun c => keep c = true) (take k (elems σ (columns qc))) /\
                 cells σ' = cells σ /\ maps σ' = maps σ /\
                 collections σ' = collections σ /\ metaCache σ' = metaCache σ)
              loop (seq 0 (len (columns qc))) nilSlice σ)
    as (s' & σ1 & Hf & Hpre & Hout & Hwf' & Hel & Hc & Hmaps & Hk & Hmc).
  - by repeat split.
  - intros k i s1 σ1 Hi (Hpre & Hout & Hwf1 & Hel & Hc & Hmaps & Hk & Hmc).
    apply lookup_seq in Hi as [-> Hlt']. cbn in *.
    destruct (elems_prefix σ σ1 (columns qc) Hpre Hwf) as [Hwfq Helq].
    assert (is_Some (elems σ (columns qc) !! k)) as [c Hc'].
    { apply lookup_lt_is_Some_2. by rewrite elems_length. }
    unfold loop.
    rewrite (bind_Ok _ _ _ _ _ (index_spec σ1 _ _ c Hwfq ltac:(by rewrite Helq))).
    rewrite (take_S_r _ _ _ Hc'), filter_app, filter_cons, filter_nil.
    fold (keep c). destruct (keep c) eqn:Hkeep.
    + destruct (append_spec σ1 s1 c Hwf1) as (s2 & σ2 & Ha & Happ).
      exists s2, σ2. split; [done|].
      destruct (appended_rest _ _ _ _ _ Happ) as (? & ? & ? & ?).
      destruct (appended_outside _ _ _ _ _ _ Hpre Hout Happ).
      repeat split; try congruence; try done;
        [eapply appended_wf; [exact Hwf1|exact Happ]|].
      rewrite decide_True by done. rewrite <- Hel.
      eapply appended_elems; [exact Hwf1|exact Happ].
    + exists s1, σ1. split; [done|].
      rewrite decide_False by (by destruct (keep c)). rewrite app_nil_r.
      by repeat split.
  - rewrite (bind_Ok _ _ _ _ _ Hf).
    assert (Hq1 : collections σ1 !! q = Some qc) by (by rewrite Hk).
    rewrite (bind_Ok _ _ _ _ _ (assign_spec _ _ _ _ Hq1)).
    set (σ2 := set_collections σ1 (<[q:=set_columns qc s']> (collections σ1))).
    assert (Hq2 : collections σ2 !! q = Some (set_columns qc s')).
    { cbn. apply list_lookup_insert_eq. by eapply lookup_lt_Some. }
    rewrite (bind_Ok _ _ _ _ _ (loadCC_spec _ _ _ Hq2)). cbn [lookup set_columns].
    rewrite Hm.
    destruct (mapDelete_spec σ2 m columnName)
      as (σ' & Hs & (Ha' & Hc'' & Hk' & Hmc' & Hl' & Ho')).
    { cbn. by rewrite Hmaps. }
    exists s', σ'. split; [done|].
    rewrite length_seq, <- (elems_length _ _ Hwf), firstn_all in Hel.
    cbn in *. rewrite Ha', Hc'', Hk', Hmc', Hl', Hc, Hk, Hmc, Hmaps.
    repeat split; try done.
    + by eapply wfSlice_arrays.
    + by rewrite (elems_arrays σ1 σ').
    + intros l Hl. by rewrite Ho', Hmaps.
Qed.

Lemma prefix_change {A} (l0 l l' : list A) m :
  l0 `prefix_of` l -> length l' = length l -> length l0 <= m ->
  (forall i, i <> m -> l' !! i = l !! i) -> l0 `prefix_of` l'.
Proof.
  intros Hpre Hlen Hm Hsame. exists (drop (length l0) l').
  rewrite <- (take_drop (length l0) l') at 1. f_equal.
  apply list_eq. intros i. destruct (decide (i < length l0)) as [Hi|Hi].
  - rewrite lookup_take_lt, Hsame by lia.
    destruct (lookup_lt_is_Some_2 l0 i Hi) as [x Hx].
    by rewrite Hx, (prefix_lookup_Some _ _ _ _ Hx Hpre).
  - rewrite lookup_take_ge, lookup_ge_None_2 by lia. done.
Qed.

Lemma arraysKept_arrays σ0 pc σ σ' :
  arrays σ' = arrays σ -> arraysKept σ0 pc σ -> arraysKept σ0 pc σ'.
Proof. unfold arraysKept. by intros ->. Qed.

(** No change of the copy's prefix or membership breaks what is kept of
    the source. *)
Lemma mutate_kept σ0 pc p q σ mu :
  p < length (collections σ0) ->
  sourceKept σ0 pc p σ -> copyKept σ0 pc q σ ->
  exists σ', mutate q mu σ = Ok tt σ' /\
             sourceKept σ0 pc p σ' /\ copyKept σ0 pc q σ'.
Proof.
  intros Hp (Hpc & Hmaps & Hcells & Harr)
    (qc & m & Hq & Hqge & Hm & [Hmge Hmlt] & Hwf & Hb).
  assert (Hne : q <> p) by lia.
  destruct mu as [prefix|c|columnName]; cbn [mutate].
  - rewrite (assign_spec _ _ _ _ Hq). eexists. split; [reflexivity|]. split.
    + split; [|done]. cbn. by rewrite list_lookup_insert_ne.
    + exists (set_columnPrefix qc prefix), m. cbn.
      rewrite list_lookup_insert_eq by (by eapply lookup_lt_Some).
      do 4 (split; [done|]). split; [by eapply wfSlice_arrays|done].
  - destruct (Add_spec σ q qc m c Hq Hwf Hm Hmlt)
      as (s' & σa & σ' & Happ & HA & Ha' & Hc' & Hk' & Hmc' & Hl' & Ho').
    assert (Hwfc : wfSlice (set_cells σ (cells σ ++ [c])) (columns qc))
      by (by eapply wfSlice_arrays).
    destruct (appended_kept σ0 pc _ _ _ _ _
                (arraysKept_arrays σ0 pc σ (set_cells σ (cells σ ++ [c]))
                   eq_refl Harr) Hb Happ) as [Harr' Hb'].
    exists σ'. split; [done|]. split.
    + split; [by rewrite Hk', list_lookup_insert_ne|].
      split; [by eapply (prefix_change _ (maps σ))|].
      split; [rewrite Hc'; by apply prefix_app_r|].
      by eapply arraysKept_arrays.
    + exists (set_columns qc s'), m. rewrite Hk', Hl'.
      rewrite list_lookup_insert_eq by (by eapply lookup_lt_Some).
      do 4 (split; [done|]). split; [|done].
      eapply wfSlice_arrays; [exact Ha'|]. by eapply appended_wf.
  - destruct (Remove_spec σ q qc m columnName Hq Hwf Hm Hmlt)
      as (s' & σ' & HR & Hpre & Hout & Hwf' & _ & Hc' & Hk' & Hmc' & Hl' & Ho').
    exists σ'. split; [done|]. split.
    + split; [by rewrite Hk', list_lookup_insert_ne|].
      split; [by eapply (prefix_change _ (maps σ))|].
      split; [by rewrite Hc'|]. by eapply arraysKept_prefix.
    + exists (set_columns qc s'), m. rewrite Hk', Hl'.
      rewrite list_lookup_insert_eq by (by eapply lookup_lt_Some).
      do 4 (split; [done|]). split; [done|].
      intros a Ha Hlt. specialize (Hout a Ha).
      apply arraysKept_length in Harr. lia.
Qed.

Lemma mutations_kept σ0 pc p q σ ms :
  p < length (collections σ0) ->
  sourceKept σ0 pc p σ -> copyKept σ0 pc q σ ->
  exists σ', forEach (mutate q) ms σ = Ok tt σ' /\
             sourceKept σ0 pc p σ' /\ copyKept σ0 pc q σ'.
Proof.
  intros Hp. revert σ. induction ms as [|mu ms IH]; intros σ Hs Hc.
  - exists σ. split; [done|]. by split.
  - destruct (mutate_kept σ0 pc p q σ mu Hp Hs Hc) as (σ1 & Hm & Hs1 & Hc1).
    destruct (IH σ1 Hs1 Hc1) as (σ' & Hf & Hs' & Hc').
    exists σ'. split; [|done].
    unfold forEach in *. cbn [foldM]. by rewrite (bind_Ok _ _ _ _ _ Hm).
Qed.

Lemma sourceKept_same σ0 pc p σ :
  wfCollection σ0 p -> collections σ0 !! p = Some pc ->
  sourceKept σ0 pc p σ -> sameCollection p σ0 σ.
Proof.
  intros (pc' & Hpc' & Hwf & Hlk) Hpc0 (Hpc & Hmaps & Hcells & Harr).
  assert (pc' = pc) as -> by congruence.
  assert (Hmap : forall m, lookup pc = Some m -> maps σ !! m = maps σ0 !! m).
  { intros m Hm. destruct (Hlk m Hm) as (entries & He & _).
    by rewrite He, (prefix_lookup_Some _ _ _ _ He Hmaps). }
  split; [congruence|]. split; [|split; [|split]].
  - unfold columnsOf. rewrite Hpc, Hpc0. unfold elems, wfSlice in *.
    destruct (array (columns pc)) as [a|] eqn:Ha; [|done].
    destruct Hwf as (arr0 & Ha0 & Hl0 & Hle).
    destruct (Harr a arr0 Ha0) as (arr & Ha' & Hl & Hi).
    rewrite Ha0, Ha'. cbn. apply list_eq. intros i.
    destruct (decide (i < len (columns pc))) as [Hlt|Hge].
    + rewrite !lookup_take_lt by done. apply Hi. by rewrite Ha.
    + by rewrite !lookup_take_ge by lia.
  - unfold lookupOf. rewrite Hpc, Hpc0. cbn.
    destruct (lookup pc) as [m|] eqn:Hm; [|done]. cbn. by apply Hmap.
  - intros entries k ptr He Hk. unfold lookupOf in He. rewrite Hpc0 in He.
    cbn in He. destruct (lookup pc) as [m|] eqn:Hm; [|done]. cbn in He.
    destruct (Hlk m eq_refl) as (entries' & He' & Hvalid).
    assert (entries' = entries) as -> by congruence.
    specialize (Hvalid k ptr Hk). destruct ptr as [a i|b]; cbn in *.
    + destruct Hvalid as [Hlt Hin].
      destruct (lookup_lt_is_Some_2 _ _ Hlt) as [arr0 Ha0].
      destruct (Harr a arr0 Ha0) as (arr & Ha' & _ & Hi).
      rewrite Ha0, Ha'. cbn. by apply Hi.
    + destruct (lookup_lt_is_Some_2 _ _ Hvalid) as [c Hc].
      by rewrite Hc, (prefix_lookup_Some _ _ _ _ Hc Hcells).
  - intros name b. unfold HasColumn, bind, loadCC, mapGet, ret.
    rewrite Hpc, Hpc0. destruct (lookup pc) as [m|] eqn:Hm;
      [|by intros [= <-]].
    rewrite (Hmap m eq_refl). destruct (maps σ0 !! m); [|done].
    by intros [= <-].
Qed.

(** C6.  Let a collection be as the package leaves one.  [Copy] and
    [CopyWithColumnPrefix] return a collection other than the source,
    with the source's columns, the prefix asked for, and no derived
    collection memoised.  The source is the same after the copy as
    before, and it stays the same whatever is then done to the copy's
    prefix or membership, in any number of steps: its prefix, the
    sequence of its columns, its lookup and all that its lookup points
    to, and what [HasColumn] answers on it. *)
Theorem Copy_independent σ p pc :
  wfCollection σ p -> collections σ !! p = Some pc ->
  forall copy prefix,
    (copy = Copy /\ prefix = columnPrefix pc) \/
    copy = (fun cc => CopyWithColumnPrefix cc prefix) ->
    exists q σ1,
      copy pc σ = Ok q σ1 /\ q <> p /\
      collections σ1 !! q =
        Some (mkColumnCollection (columns pc) (Some (length (maps σ))) prefix
                None None None None None None None None) /\
      columnsOf σ1 q = columnsOf σ p /\
      sameCollection p σ σ1 /\
      forall ms, exists σ2,
        forEach (mutate q) ms σ1 = Ok tt σ2 /\ sameCollection p σ σ2.
Proof.
  intros Hwfc Hpc copy prefix Hcopy.
  assert (Hwf : wfSlice σ (columns pc)).
  { destruct Hwfc as (pc' & Hpc' & Hwf & _). congruence. }
  assert (Hp : p < length (collections σ)) by (by eapply lookup_lt_Some).
  destruct (newColumnCollectionWithPrefixFromColumns_spec σ prefix (columns pc) Hwf)
    as (q & σ1 & Hc & Hb).
  exists q, σ1.
  assert (Hrun : copy pc σ = Ok q σ1).
  { destruct Hcopy as [[-> ->]| ->]; exact Hc. }
  pose proof (built_columnsOf _ _ _ _ _ Hb) as Hcols.
  destruct Hb as (-> & Ha & Hce & Hmc & [entries Hmaps] & Hk).
  assert (Hs1 : sourceKept σ pc p σ1).
  { split; [by rewrite Hk, lookup_app_l|].
    split; [rewrite Hmaps; by apply prefix_app_r|].
    split; [by rewrite Hce|].
    apply (arraysKept_arrays _ _ σ); [done|apply arraysKept_refl]. }
  assert (Hc1 : copyKept σ pc (length (collections σ)) σ1).
  { eexists _, (length (maps σ)). rewrite Hk, lookup_app_r, Nat.sub_diag by done.
    split; [reflexivity|]. split; [done|]. split; [done|].
    split; [rewrite Hmaps, length_app; cbn; lia|].
    split; [by eapply wfSlice_arrays|]. by intros a Ha0 _. }
  split; [done|]. split; [lia|].
  split; [by rewrite Hk, lookup_app_r, Nat.sub_diag|].
  split; [unfold columnsOf at 2; by rewrite Hpc|].
  split; [by apply (sourceKept_same σ pc)|].
  intros ms.
  destruct (mutations_kept σ pc p _ σ1 ms Hp Hs1 Hc1) as (σ2 & Hf & Hs2 & _).
  exists σ2. split; [done|]. by apply (sourceKept_same σ pc).
Qed.

(** *** Derived collections *)

Lemma snoc_change {A} (l l' : list A) x :
  length l' = length (l ++ [x]) ->
  (forall i, i <> length l -> l' !! i = (l ++ [x]) !! i) ->
  exists y, l' = l ++ [y].
Proof.
  intros Hlen Hsame. rewrite length_app in Hlen. cbn in Hlen.
  destruct (lookup_lt_is_Some_2 l' (length l) ltac:(lia)) as [y Hy].
  exists y. apply list_eq. intros i.
  destruct (decide (i = length l)) as [->|Hne].
  - by rewrite Hy, lookup_app_r, Nat.sub_diag.
  - rewrite (Hsame i Hne). destruct (decide (i < length l)).
    + by rewrite !lookup_app_l.
    + rewrite !lookup_ge_None_2; [done|rewrite length_app; cbn; lia..].
Qed.

(** A new collection with the prefix [prefix], the slice [s] and the
    lookup map at [m]. *)
Definition fresh (s : slice) (m : loc) (prefix : string) : ColumnCollection :=
  mkColumnCollection s (Some m) prefix None None None None None None None None.

Lemma subset_cached memo set_memo keep p σ pc q :
  collections σ !! p = Some pc -> memo pc = Some q ->
  subset growslice memo set_memo keep p σ = Ok q σ.
Proof.
  intros Hp Hm. unfold subset.
  by rewrite (bind_Ok _ _ _ _ _ (loadCC_spec _ _ _ Hp)), Hm.
Qed.

(** A derived collection that is not memoised yet is built in new
    objects, holds the columns of the receiver that [keep] selects, in
    their order, and is memoised in the receiver. *)
Lemma subset_computed memo set_memo keep p σ pc :
  collections σ !! p = Some pc -> wfSlice σ (columns pc) -> memo pc = None ->
  exists s entries σ',
    subset growslice memo set_memo keep p σ = Ok (length (collections σ)) σ' /\
    arrays σ `prefix_of` arrays σ' /\ cells σ `prefix_of` cells σ' /\
    maps σ' = maps σ ++ [entries] /\ metaCache σ' = metaCache σ /\
    collections σ' =
      <[p:=set_memo pc (Some (length (collections σ)))]>
        (collections σ ++ [fresh s (length (maps σ)) (columnPrefix pc)]) /\
    wfSlice σ' s /\ outside_of σ s /\
    elems σ' s = filter (fun c => keep c = true) (elems σ (columns pc)).
Proof.
  intros Hp Hwf Hmemo. unfold subset.
  rewrite (bind_Ok _ _ _ _ _ (loadCC_spec _ _ _ Hp)), Hmemo.
  unfold newColumnCollectionWithPrefix, allocMap, allocCC.
  unfold bind at 1 2. cbn [maps collections set_maps set_collections].
  set (q := length (collections σ)). set (m := length (maps σ)).
  set (L := elems σ (columns pc)).
  unfold rangeSlice.
  match goal with |- context [foldM ?body _ _] => set (loop := body) end.
  set (σ1 := set_collections _ _).
  destruct (foldM_invariant
              (fun k (_ : unit) σ' =>
                 arrays σ `prefix_of` arrays σ' /\
                 cells σ `prefix_of` cells σ' /\
                 metaCache σ' = metaCache σ /\
                 exists s entries,
                   maps σ' = maps σ ++ [entries] /\
                   collections σ' =
                     collections σ ++ [fresh s m (columnPrefix pc)] /\
                   wfSlice σ' s /\ outside_of σ s /\
                   elems σ' s = filter (fun c => keep c = true) (take k L))
              loop (seq 0 (len (columns pc))) tt σ1)
    as ([] & σ2 & Hf & Hpre & Hcells & Hmc & s & entries & Hmaps & Hk & Hwfs & Hout & Hel).
  - subst σ1. cbn. do 3 (split; [done|]).
    exists nilSlice, ∅. by repeat split.
  - intros k i [] σ' Hi (Hpre & Hcells & Hmc & s & entries & Hmaps & Hk & Hwfs & Hout & Hel).
    apply lookup_seq in Hi as [-> Hlt]. cbn in Hlt.
    destruct (elems_prefix σ σ' (columns pc) Hpre Hwf) as [Hwfq Helq].
    assert (is_Some (L !! k)) as [c Hc].
    { apply lookup_lt_is_Some_2. unfold L. by rewrite elems_length. }
    unfold loop.
    rewrite (bind_Ok _ _ _ _ _ (index_spec σ' _ _ c Hwfq ltac:(by rewrite Helq))).
    rewrite (take_S_r _ _ _ Hc), filter_app, filter_cons, filter_nil.
    destruct (keep c) eqn:Hkeep.
    + assert (Hq : collections σ' !! q = Some (fresh s m (columnPrefix pc))).
      { by rewrite Hk, lookup_app_r, Nat.sub_diag. }
      destruct (Add_spec σ' q _ m c Hq Hwfs eq_refl)
        as (s' & σa & σ'' & Happ & HA & Ha' & Hc' & Hk' & Hmc' & Hl' & Ho').
      { rewrite Hmaps, length_app. cbn. lia. }
      exists tt, σ''. split; [done|].
      destruct (appended_outside σ (set_cells σ' (cells σ' ++ [c])) _ _ _ _
                  Hpre Hout Happ) as [Hpre' Hout'].
      split; [by rewrite Ha'|].
      split; [rewrite Hc'; by apply prefix_app_r|].
      split; [congruence|].
      destruct (snoc_change (maps σ) (maps σ'') entries) as [entries' Hmaps'].
      { by rewrite Hl', Hmaps. }
      { intros l Hl. by rewrite Ho', Hmaps. }
      exists s', entries'. split; [done|]. split.
      { rewrite Hk', Hk. unfold q.
        rewrite insert_app_r_alt, Nat.sub_diag by done. done. }
      split; [eapply wfSlice_arrays; [exact Ha'|];
              eapply appended_wf; [|exact Happ]; by eapply wfSlice_arrays|].
      split; [done|].
      rewrite decide_True by done. rewrite <- Hel.
      rewrite (elems_arrays σa σ'' _ Ha').
      rewrite <- (elems_arrays σ' (set_cells σ' (cells σ' ++ [c])) s eq_refl).
      eapply appended_elems; [|exact Happ]. by eapply wfSlice_arrays.
    + exists tt, σ'. split; [done|].
      rewrite decide_False by (by destruct (keep c)). rewrite app_nil_r.
      do 3 (split; [done|]). by exists s, entries.
  - rewrite (bind_Ok _ _ _ _ _ Hf).
    assert (Hp2 : collections σ2 !! p = Some pc).
    { rewrite Hk. by apply lookup_app_l_Some. }
    rewrite (bind_Ok _ _ _ _ _ (assign_spec _ _ _ _ Hp2)).
    exists s, entries. eexists. split; [reflexivity|]. cbn.
    rewrite length_seq in Hel. unfold L in Hel.
    rewrite <- (elems_length _ _ Hwf), firstn_all in Hel.
    rewrite Hk. by repeat split.
Qed.

Lemma insert_fill {A} (done_ : list A) (c z : A) (r : nat) :
  <[length done_:=c]> (done_ ++ replicate (Datatypes.S r) z) =
    (done_ ++ [c]) ++ replicate r z.
Proof.
  rewrite insert_app_r_alt, Nat.sub_diag by done. cbn. by rewrite <- app_assoc.
Qed.

(** The loop [total[off+x] = src[x]] over a new array that holds
    [before] in front. *)
Lemma copy_loop σ (src : slice) (before : list Column) (rest N : nat)
    (body : nat -> M unit) σ0 :
  wfSlice σ0 src -> arrays σ0 `prefix_of` arrays σ ->
  N = length before + len src + rest ->
  (forall i c A, arrays σ0 `prefix_of` A ->
     elems σ0 src !! i = Some c ->
     body i (set_arrays σ A) =
       setIndex (mkSlice (Some (length (arrays σ))) N N) (length before + i) c
         (set_arrays σ A)) ->
  forEach body (seq 0 (len src))
    (set_arrays σ (arrays σ ++
       [before ++ replicate (len src + rest) zeroColumn])) =
    Ok tt (set_arrays σ (arrays σ ++
             [(before ++ elems σ0 src) ++ replicate rest zeroColumn])).
Proof.
  intros Hwf Hpre -> Hbody. unfold forEach.
  set (L := elems σ0 src).
  assert (HL : length L = len src) by (by apply elems_length).
  destruct (foldM_invariant
              (fun k (_ : unit) σ' =>
                 σ' = set_arrays σ (arrays σ ++
                        [(before ++ take k L) ++
                         replicate (len src - k + rest) zeroColumn]))
              (fun _ x => body x) (seq 0 (len src)) tt
              (set_arrays σ (arrays σ ++
                 [before ++ replicate (len src + rest) zeroColumn])))
    as ([] & σ' & Hf & ->).
  - by rewrite take_0, app_nil_r, Nat.sub_0_r.
  - intros k i [] σ' Hi ->. apply lookup_seq in Hi as [-> Hlt]. cbn in Hlt.
    assert (is_Some (L !! k)) as [c Hc] by (apply lookup_lt_is_Some_2; lia).
    change (0 + k) with k.
    rewrite (Hbody k c _ (prefix_app_r _ _ _ Hpre) Hc).
    unfold setIndex. cbn [len array].
    assert ((length before + k <? length before + len src + rest) = true) as ->
      by (apply Nat.ltb_lt; lia).
    unfold writeArray. cbn [arrays set_arrays].
    rewrite lookup_app_r, Nat.sub_diag by done. simpl (_ !! 0). cbv iota beta.
    assert ((length before + k <?
             length ((before ++ take k L) ++
                     replicate (len src - k + rest) zeroColumn)) = true) as ->.
    { apply Nat.ltb_lt. rewrite !length_app, length_take, length_replicate. lia. }
    exists tt. eexists. split; [reflexivity|]. cbn. f_equal.
    rewrite insert_app_r_alt, Nat.sub_diag by done. cbn. do 2 f_equal.
    replace (len src - k + rest) with (Datatypes.S (len src - Datatypes.S k + rest)) by lia.
    replace (length before + k) with (length (before ++ take k L))
      by (rewrite length_app, length_take; lia).
    by rewrite insert_fill, (take_S_r _ _ _ Hc), app_assoc.
  - rewrite Hf. rewrite length_seq, <- HL, firstn_all, Nat.sub_diag. done.
Qed.

(** [ConcatWith] builds, in new objects, a collection of the receiver's
    columns followed by the other's. *)
Lemma ConcatWith_spec σ rc other oc :
  wfSlice σ (columns rc) -> collections σ !! other = Some oc ->
  wfSlice σ (columns oc) ->
  exists s entries σ',
    ConcatWith rc other σ = Ok (length (collections σ)) σ' /\
    arrays σ `prefix_of` arrays σ' /\ cells σ' = cells σ /\
    maps σ' = maps σ ++ [entries] /\ metaCache σ' = metaCache σ /\
    collections σ' = collections σ ++ [fresh s (length (maps σ)) ""] /\
    wfSlice σ' s /\
    elems σ' s = elems σ (columns rc) ++ elems σ (columns oc).
Proof.
  intros Hwfr Ho Hwfo. unfold ConcatWith.
  rewrite (bind_Ok _ _ _ _ _ (loadCC_spec _ _ _ Ho)).
  unfold makeSlice, allocArray. unfold bind at 1 2. unfold ret at 1.
  set (n := len (columns rc)). set (m := len (columns oc)).
  set (L1 := elems σ (columns rc)). set (L2 := elems σ (columns oc)).
  assert (HL1 : length L1 = n) by (by apply elems_length).
  assert (HL2 : length L2 = m) by (by apply elems_length).
  set (total := mkSlice (Some (length (arrays σ))) (n + m) (n + m)).
  cbn [arrays set_arrays].
  pose proof (copy_loop σ (columns rc) [] m (n + m)
                (fun x => c <- index (columns rc) x ;; setIndex total x c)
                σ Hwfr ltac:(done) eq_refl) as Hl1.
  cbn [app length Nat.add] in Hl1. fold n L1 in Hl1.
  match type of Hl1 with ?P -> _ => assert (Hb1 : P) end.
  { intros i c A Hpre Hc.
    destruct (elems_prefix σ (set_arrays σ A) _ Hpre Hwfr) as [Hw He].
    by rewrite (bind_Ok _ _ _ _ _ (index_spec _ _ _ c Hw ltac:(by rewrite He))). }
  rewrite (bind_Ok _ _ _ _ _ (Hl1 Hb1)). clear Hl1 Hb1.
  pose proof (copy_loop σ (columns oc) L1 0 (n + m)
                (fun y => o <- loadCC other ;;
                          c <- index (columns o) y ;;
                          setIndex total (n + y) c)
                σ Hwfo ltac:(done) ltac:(fold m; lia)) as Hl2.
  fold m L2 in Hl2. rewrite Nat.add_0_r in Hl2.
  match type of Hl2 with ?P -> _ => assert (Hb2 : P) end.
  { intros i c A Hpre Hc.
    destruct (elems_prefix σ (set_arrays σ A) _ Hpre Hwfo) as [Hw He].
    assert (Ho' : collections (set_arrays σ A) !! other = Some oc) by done.
    rewrite (bind_Ok _ _ _ _ _ (loadCC_spec _ _ _ Ho')).
    rewrite (bind_Ok _ _ _ _ _ (index_spec _ _ _ c Hw ltac:(by rewrite He))).
    by rewrite HL1. }
  rewrite (bind_Ok _ _ _ _ _ (Hl2 Hb2)). clear Hl2 Hb2.
  cbn [replicate]. rewrite app_nil_r.
  set (σ2 := set_arrays σ (arrays σ ++ [L1 ++ L2])).
  assert (Hwft : wfSlice σ2 total).
  { exists (L1 ++ L2). cbn. rewrite lookup_app_r, Nat.sub_diag by done.
    rewrite length_app. split; [done|]. split; lia. }
  destruct (newColumnCollectionFromColumns_spec σ2 total Hwft)
    as (u & σ3 & Hn & (-> & Ha & Hc & Hmc & [entries Hmaps] & Hk)).
  exists total, entries, σ3. split; [exact Hn|].
  split; [rewrite Ha; by apply prefix_app_r|].
  do 4 (split; [done|]).
  split; [by eapply wfSlice_arrays|].
  rewrite (elems_arrays σ2 σ3 _ Ha). unfold elems. cbn.
  rewrite lookup_app_r, Nat.sub_diag by done. cbn.
  apply take_ge. rewrite length_app. lia.
Qed.

(** *** Memoised derived collections *)

(** From [σ] to [σ'] arrays were only added, and every collection kept
    its slice header. *)
Definition grows (σ σ' : Store) : Prop :=
  arrays σ `prefix_of` arrays σ' /\
  forall i cc, collections σ !! i = Some cc ->
    exists cc', collections σ' !! i = Some cc' /\ columns cc' = columns cc.

Lemma grows_refl σ : grows σ σ.
Proof. split; [done|]. intros i cc Hi. by exists cc. Qed.

Lemma grows_trans σ1 σ2 σ3 : grows σ1 σ2 -> grows σ2 σ3 -> grows σ1 σ3.
Proof.
  intros [Ha Hk] [Ha' Hk']. split; [by etrans|].
  intros i cc Hi. destruct (Hk i cc Hi) as (cc' & Hi' & Hc).
  destruct (Hk' i cc' Hi') as (cc'' & Hi'' & Hc').
  exists cc''. split; [done|congruence].
Qed.

Lemma grows_columns σ σ' x :
  grows σ σ' -> wfColumns σ x -> wfColumns σ' x /\ columnsOf σ' x = columnsOf σ x.
Proof.
  intros [Ha Hk] (cc & Hx & Hwf). destruct (Hk x cc Hx) as (cc' & Hx' & Hc).
  destruct (elems_prefix σ σ' _ Ha Hwf) as [Hwf' He].
  split; [exists cc'; by rewrite Hc|].
  unfold columnsOf. by rewrite Hx, Hx', Hc.
Qed.

Lemma grows_assign σ p cc f :
  collections σ !! p = Some cc -> columns (f cc) = columns cc ->
  grows σ (set_collections σ (<[p:=f cc]> (collections σ))).
Proof.
  intros Hp Hf. split; [done|]. intros i cc' Hi. cbn.
  destruct (decide (i = p)) as [->|Hne].
  - exists (f cc). rewrite list_lookup_insert_eq by (by eapply lookup_lt_Some).
    split; [done|congruence].
  - exists cc'. by rewrite list_lookup_insert_ne.
Qed.

(** The pointer [q], if it is not nil, is a collection with the columns
    [L]. *)
Definition holds (σ : Store) (q : option loc) (L : list Column) : Prop :=
  forall x, q = Some x -> wfColumns σ x /\ columnsOf σ x = L.

Lemma holds_None σ L : holds σ None L.
Proof. by intros x. Qed.

Lemma holds_Some σ x L : wfColumns σ x -> columnsOf σ x = L -> holds σ (Some x) L.
Proof. by intros Hwf Hc y [= <-]. Qed.

Lemma grows_holds σ σ' q L : grows σ σ' -> holds σ q L -> holds σ' q L.
Proof.
  intros Hg Hh x Hx. destruct (Hh x Hx) as [Hwf Hc].
  destruct (grows_columns σ σ' x Hg Hwf) as [Hwf' Hc']. split; [done|congruence].
Qed.

(** One call of an accessor: either the memoised pointer comes back and
    the store is as it was, or a new collection is made and memoised. *)
Lemma subset_step memo set_memo keep t σ tc :
  (forall cc v, columns (set_memo cc v) = columns cc) ->
  collections σ !! t = Some tc -> wfSlice σ (columns tc) ->
  holds σ (memo tc) (filter (fun c => keep c = true) (elems σ (columns tc))) ->
  exists x σ',
    subset growslice memo set_memo keep t σ = Ok x σ' /\
    grows σ σ' /\ wfColumns σ' x /\
    columnsOf σ' x = filter (fun c => keep c = true) (elems σ (columns tc)) /\
    ((σ' = σ /\ memo tc = Some x) \/
     (memo tc = None /\ x = length (collections σ) /\
      collections σ' !! t = Some (set_memo tc (Some x)) /\
      (exists s m pre, collections σ' !! x = Some (fresh s m pre)) /\
      forall i, i <> t -> i < length (collections σ) ->
                collections σ' !! i = collections σ !! i)).
Proof.
  intros Hset Ht Hwf Hh. destruct (memo tc) as [x|] eqn:Hm.
  - exists x, σ. split; [by eapply subset_cached|].
    destruct (Hh x eq_refl) as [Hwfx Hc].
    split; [apply grows_refl|]. split; [done|]. split; [done|]. by left.
  - destruct (subset_computed memo set_memo keep t σ tc Ht Hwf Hm)
      as (s & entries & σ' & Hs & Ha & Hc & Hmaps & Hmc & Hk & Hwfs & Hout & Hel).
    pose proof (lookup_lt_Some _ _ _ Ht) as Hlt.
    assert (Hx : collections σ' !! length (collections σ) =
                 Some (fresh s (length (maps σ)) (columnPrefix tc))).
    { rewrite Hk, list_lookup_insert_ne by lia.
      by rewrite lookup_app_r, Nat.sub_diag. }
    assert (Hother : forall i, i <> t -> i < length (collections σ) ->
                       collections σ' !! i = collections σ !! i).
    { intros i Hne Hi. rewrite Hk, list_lookup_insert_ne by done.
      by rewrite lookup_app_l. }
    assert (Ht' : collections σ' !! t =
                  Some (set_memo tc (Some (length (collections σ))))).
    { rewrite Hk. apply list_lookup_insert_eq. rewrite length_app. lia. }
    exists (length (collections σ)), σ'. split; [done|]. split.
    { split; [done|]. intros i cc Hi.
      destruct (decide (i = t)) as [->|Hne].
      - eexists. split; [exact Ht'|]. rewrite Hset. congruence.
      - exists cc. split; [|done].
        rewrite Hother; [done..|]. by eapply lookup_lt_Some. }
    split; [by eexists|]. split; [unfold columnsOf; by rewrite Hx|].
    right. do 3 (split; [done|]). split; [by eexists _, _, _|done].
Qed.

Definition isPK (c : Column) : bool := IsPrimaryKey c.
Definition notPK (c : Column) : bool := negb (IsPrimaryKey c).
Definition notRO (c : Column) : bool := negb (IsReadOnly c).

(** A column that [Create] and [Update] write: not read-only and not a
    primary key. *)
Definition writable (c : Column) : bool :=
  negb (IsReadOnly c) && negb (IsPrimaryKey c).

Definition select (keep : Column -> bool) (L : list Column) : list Column :=
  filter (fun c => keep c = true) L.

Lemma select_writable L : select notPK (select notRO L) = select writable L.
Proof.
  unfold select. induction L as [|c L IH]; [done|].
  rewrite (filter_cons _ c L), (filter_cons (fun c => writable c = true) c L).
  change (writable c) with (notRO c && notPK c).
  destruct (notRO c); cbn [andb].
  - rewrite decide_True, filter_cons by done.
    destruct (notPK c).
    + rewrite !decide_True by done. by rewrite IH.
    + rewrite !decide_False by done. exact IH.
  - rewrite !decide_False by done. exact IH.
Qed.

(** The memoised collections of [p] that [WriteColumns] and
    [UpdateColumns] rely on are, where set, the matching selections of
    the columns [p] has now. *)
Definition memoOK (σ : Store) (p : loc) : Prop :=
  exists pc, collections σ !! p = Some pc /\ wfSlice σ (columns pc) /\
    let L := elems σ (columns pc) in
    holds σ (primaryKeys pc) (select isPK L) /\
    holds σ (notReadOnly pc) (select notRO L) /\
    (forall nro nc,
       notReadOnly pc = Some nro -> collections σ !! nro = Some nc ->
       nro <> p /\ holds σ (notPrimaryKeys nc) (select notPK (select notRO L))) /\
    holds σ (writeColumns pc) (select writable L) /\
    holds σ (updateColumns pc) (select writable L ++ select isPK L).

(** A collection none of whose derived collections was asked for. *)
Definition unmemoised (cc : ColumnCollection) : Prop :=
  autos cc = None /\ notAutos cc = None /\ readOnly cc = None /\
  notReadOnly cc = None /\ primaryKeys cc = None /\
  notPrimaryKeys cc = None /\ writeColumns cc = None /\ updateColumns cc = None.

Lemma unmemoised_memoOK σ p pc :
  collections σ !! p = Some pc -> wfSlice σ (columns pc) ->
  unmemoised pc -> memoOK σ p.
Proof.
  intros Hp Hwf (_ & _ & _ & Hnro & Hpk & _ & Hw & Hu).
  exists pc. split; [done|]. split; [done|]. cbn.
  rewrite Hnro, Hpk, Hw, Hu. repeat split; try apply holds_None; done.
Qed.

Ltac conjs := repeat (apply conj; [done|]); try done.

Lemma memoOK_columns σ σ' p :
  grows σ σ' -> memoOK σ p -> columnsOf σ' p = columnsOf σ p.
Proof.
  intros Hg (pc & Hp & Hwf & _). apply grows_columns; [done|by exists pc].
Qed.

(** Memoising the write columns, or the update columns, keeps
    [memoOK]. *)
Lemma memoOK_assign σ p pc f w :
  memoOK σ p -> collections σ !! p = Some pc ->
  columns (f pc) = columns pc -> primaryKeys (f pc) = primaryKeys pc ->
  notReadOnly (f pc) = notReadOnly pc ->
  (writeColumns (f pc) = Some w /\ updateColumns (f pc) = updateColumns pc /\
   columnsOf σ w = select writable (columnsOf σ p) \/
   updateColumns (f pc) = Some w /\ writeColumns (f pc) = writeColumns pc /\
   columnsOf σ w =
     select writable (columnsOf σ p) ++ select isPK (columnsOf σ p)) ->
  wfColumns σ w ->
  memoOK (set_collections σ (<[p:=f pc]> (collections σ))) p.
Proof.
  intros (pc' & Hp' & Hwf & Hpk & Hnro & Hnest & Hw & Hu) Hp Hcol Hfpk Hfnro Hcase Hwfw.
  assert (pc' = pc) as -> by congruence.
  set (σ' := set_collections σ (<[p:=f pc]> (collections σ))).
  assert (Hg : grows σ σ') by (by apply grows_assign).
  assert (Hp1 : collections σ' !! p = Some (f pc)).
  { cbn. apply list_lookup_insert_eq. by eapply lookup_lt_Some. }
  assert (HL : columnsOf σ p = elems σ (columns pc)).
  { unfold columnsOf. by rewrite Hp. }
  exists (f pc). split; [done|]. rewrite Hcol.
  split; [by eapply wfSlice_arrays|].
  rewrite (elems_arrays σ σ' (columns pc) eq_refl). cbn zeta in *.
  rewrite Hfpk, Hfnro.
  split; [by eapply grows_holds|]. split; [by eapply grows_holds|].
  split.
  { intros nro nc Hn Hnc. destruct (decide (nro = p)) as [->|Hne].
    - destruct (Hnest p pc Hn Hp) as [? _]. done.
    - cbn in Hnc. rewrite list_lookup_insert_ne in Hnc by done.
      destruct (Hnest nro nc Hn Hnc) as [_ Hh]. split; [done|].
      by eapply grows_holds. }
  destruct (grows_columns σ σ' w Hg Hwfw) as [Hwfw' Hcw].
  destruct Hcase as [(Hfw & Hfu & Hc)|(Hfu & Hfw & Hc)]; rewrite Hfw, Hfu.
  - split; [apply holds_Some; [done|congruence]|by eapply grows_holds].
  - split; [by eapply grows_holds|apply holds_Some; [done|congruence]].
Qed.

Lemma PrimaryKeys_step σ p :
  memoOK σ p ->
  exists k σ',
    PrimaryKeys growslice p σ = Ok k σ' /\ grows σ σ' /\ memoOK σ' p /\
    wfColumns σ' k /\ columnsOf σ' k = select isPK (columnsOf σ p).
Proof.
  intros (pc & Hp & Hwf & Hpk & Hnro & Hnest & Hw & Hu). cbn zeta in *.
  destruct (subset_step primaryKeys set_primaryKeys IsPrimaryKey p σ pc)
    as (k & σ' & Hs & Hg & Hwfk & Hck & Hcase); [done..|].
  exists k, σ'. split; [done|]. split; [done|].
  assert (HL : columnsOf σ p = elems σ (columns pc)).
  { unfold columnsOf. by rewrite Hp. }
  split; [|by rewrite HL].
  destruct Hcase as [[-> Hm]|(Hm & -> & Hp' & (s & m & pre & Hk') & Hother)].
  { exists pc. conjs. }
  pose proof (lookup_lt_Some _ _ _ Hp) as Hlt.
  destruct (elems_prefix σ σ' (columns pc) (proj1 Hg) Hwf) as [Hwf' He].
  eexists. split; [exact Hp'|]. cbn. rewrite He.
  split; [done|]. split; [by apply holds_Some|].
  split; [by eapply grows_holds|]. split.
  { intros nro nc Hn Hnc. destruct (Hnro nro Hn) as [(nc0 & Hnc0 & _) _].
    destruct (decide (nro = p)) as [->|Hne];
      [by destruct (Hnest p pc Hn Hp)|].
    rewrite Hother in Hnc; [|done|by eapply lookup_lt_Some].
    destruct (Hnest nro nc Hn Hnc) as [_ Hh]. split; [done|].
    by eapply grows_holds. }
  split; by eapply grows_holds.
Qed.

Lemma NotReadOnly_step σ p :
  memoOK σ p ->
  exists nro σ' pc' nc,
    NotReadOnly growslice p σ = Ok nro σ' /\ grows σ σ' /\ memoOK σ' p /\
    collections σ' !! p = Some pc' /\ notReadOnly pc' = Some nro /\
    nro <> p /\ collections σ' !! nro = Some nc /\
    wfSlice σ' (columns nc) /\
    elems σ' (columns nc) = select notRO (columnsOf σ p) /\
    holds σ' (notPrimaryKeys nc) (select notPK (select notRO (columnsOf σ p))).
Proof.
  intros (pc & Hp & Hwf & Hpk & Hnro & Hnest & Hw & Hu). cbn zeta in *.
  destruct (subset_step notReadOnly set_notReadOnly
              (fun c => negb (IsReadOnly c)) p σ pc)
    as (nro & σ' & Hs & Hg & Hwfn & Hcn & Hcase); [done..|].
  assert (HL : columnsOf σ p = elems σ (columns pc)).
  { unfold columnsOf. by rewrite Hp. }
  rewrite HL.
  destruct Hcase as [[-> Hm]|(Hm & -> & Hp' & (s & m & pre & Hk') & Hother)].
  { destruct Hwfn as (nc & Hnc & Hwfnc).
    destruct (Hnest nro nc Hm Hnc) as [Hne Hh].
    exists nro, σ, pc, nc. do 2 (split; [done|]).
    split; [exists pc; conjs|]. do 5 (split; [done|]).
    split; [|done]. unfold columnsOf in Hcn. by rewrite Hnc in Hcn. }
  pose proof (lookup_lt_Some _ _ _ Hp) as Hlt.
  destruct (elems_prefix σ σ' (columns pc) (proj1 Hg) Hwf) as [Hwf' He].
  destruct Hwfn as (nc & Hnc & Hwfnc).
  assert (nc = fresh s m pre) as -> by congruence.
  eexists _, σ', _, _. do 2 (split; [done|]).
  split; [|split; [exact Hp'|]; split; [done|]; split; [lia|];
           split; [exact Hk'|]; split; [done|]; split; [|apply holds_None]].
  - eexists. split; [exact Hp'|]. cbn. rewrite He.
    split; [done|]. split; [by eapply grows_holds|].
    split; [apply holds_Some; [by eexists|done]|].
    split; [|split; by eapply grows_holds].
    intros nro' nc' Hn' Hnc'. injection Hn' as <-. split; [lia|].
    assert (nc' = fresh s m pre) as -> by congruence. apply holds_None.
  - unfold columnsOf in Hcn. by rewrite Hk' in Hcn.
Qed.

Lemma NotPrimaryKeys_step σ p pc nro nc :
  memoOK σ p -> collections σ !! p = Some pc -> notReadOnly pc = Some nro ->
  collections σ !! nro = Some nc ->
  exists w σ',
    NotPrimaryKeys growslice nro σ = Ok w σ' /\ grows σ σ' /\ memoOK σ' p /\
    collections σ' !! p = Some pc /\
    wfColumns σ' w /\ columnsOf σ' w = select writable (columnsOf σ p).
Proof.
  intros (pc' & Hp' & Hwf & Hpk & Hnro & Hnest & Hw & Hu) Hp Hn Hnc.
  assert (pc' = pc) as -> by congruence. cbn zeta in *.
  destruct (Hnro nro Hn) as [(nc' & Hnc' & Hwfnc) Hcn].
  assert (nc' = nc) as -> by congruence.
  destruct (Hnest nro nc Hn Hnc) as [Hne Hh].
  unfold columnsOf in Hcn. rewrite Hnc in Hcn.
  destruct (subset_step notPrimaryKeys set_notPrimaryKeys
              (fun c => negb (IsPrimaryKey c)) nro σ nc)
    as (w & σ' & Hs & Hg & Hwfw & Hcw & Hcase); [done|done|done| |].
  { by rewrite Hcn. }
  assert (HL : columnsOf σ p = elems σ (columns pc)).
  { unfold columnsOf. by rewrite Hp. }
  rewrite Hcn in Hcw.
  change (columnsOf σ' w = select notPK (select notRO (elems σ (columns pc)))) in Hcw.
  rewrite select_writable in Hcw.
  exists w, σ'. split; [done|]. split; [done|]. rewrite HL.
  destruct Hcase as [[-> Hm]|(Hm & -> & Hnro' & (s & m & pre & Hk') & Hother)].
  { split; [exists pc; conjs|]. conjs. }
  pose proof (lookup_lt_Some _ _ _ Hp) as Hlt.
  assert (Hp1 : collections σ' !! p = Some pc).
  { by rewrite Hother by done. }
  destruct (elems_prefix σ σ' (columns pc) (proj1 Hg) Hwf) as [Hwf' He].
  split; [|conjs].
  exists pc. split; [done|]. cbn. rewrite He.
  split; [done|]. split; [by eapply grows_holds|].
  split; [by eapply grows_holds|].
  split; [|split; by eapply grows_holds].
  intros nro2 nc2 Hn2 Hnc2. assert (nro2 = nro) as -> by congruence.
  split; [done|]. assert (nc2 = set_notPrimaryKeys nc (Some (length (collections σ))))
    as -> by congruence.
  cbn. apply holds_Some; [done|]. by rewrite select_writable.
Qed.

Lemma memoOK_extend σ σ' p :
  memoOK σ p -> arrays σ `prefix_of` arrays σ' ->
  (forall i cc, collections σ !! i = Some cc -> collections σ' !! i = Some cc) ->
  grows σ σ' /\ memoOK σ' p.
Proof.
  intros (pc & Hp & Hwf & Hpk & Hnro & Hnest & Hw & Hu) Ha Hk. cbn zeta in *.
  assert (Hg : grows σ σ').
  { split; [done|]. intros i cc Hi. exists cc. split; [by apply Hk|done]. }
  split; [done|].
  destruct (elems_prefix σ σ' (columns pc) Ha Hwf) as [Hwf' He].
  exists pc. split; [by apply Hk|]. cbn. rewrite He.
  split; [done|]. split; [by eapply grows_holds|].
  split; [by eapply grows_holds|].
  split; [|split; by eapply grows_holds].
  intros nro nc Hn Hnc. destruct (Hnro nro Hn) as [(nc0 & Hnc0 & _) _].
  assert (nc = nc0) as -> by (apply Hk in Hnc0; congruence).
  destruct (Hnest nro nc0 Hn Hnc0) as [Hne Hh]. split; [done|].
  by eapply grows_holds.
Qed.

Lemma WriteColumns_step σ p :
  memoOK σ p ->
  exists w σ',
    WriteColumns growslice p σ = Ok w σ' /\ grows σ σ' /\ memoOK σ' p /\
    wfColumns σ' w /\ columnsOf σ' w = select writable (columnsOf σ p).
Proof.
  intros Hok. pose proof Hok as (pc & Hp & Hwf & Hpk & Hnro & Hnest & Hw & Hu).
  cbn zeta in *. unfold WriteColumns.
  rewrite (bind_Ok _ _ _ _ _ (loadCC_spec _ _ _ Hp)).
  assert (HL : columnsOf σ p = elems σ (columns pc)).
  { unfold columnsOf. by rewrite Hp. }
  destruct (writeColumns pc) as [w|] eqn:Hwc.
  - destruct (Hw w eq_refl) as [Hwfw Hcw].
    exists w, σ. split; [done|]. split; [apply grows_refl|].
    split; [done|]. split; [done|]. by rewrite HL.
  - destruct (NotReadOnly_step σ p Hok)
      as (nro & σ1 & pc1 & nc & Hs1 & Hg1 & Hok1 & Hp1 & Hn1 & Hne & Hnc & _).
    rewrite (bind_Ok _ _ _ _ _ Hs1).
    destruct (NotPrimaryKeys_step σ1 p pc1 nro nc Hok1 Hp1 Hn1 Hnc)
      as (w & σ2 & Hs2 & Hg2 & Hok2 & Hp2 & Hwfw & Hcw).
    rewrite (bind_Ok _ _ _ _ _ Hs2).
    rewrite (bind_Ok _ _ _ _ _ (assign_spec _ _ _ _ Hp2)).
    set (σ3 := set_collections σ2 _).
    assert (Hg3 : grows σ2 σ3)
      by (by apply (grows_assign σ2 p pc1 (fun this => set_writeColumns this (Some w)))).
    pose proof (memoOK_columns σ σ1 p Hg1 Hok) as Hc1.
    pose proof (memoOK_columns σ1 σ2 p Hg2 Hok1) as Hc2.
    exists w, σ3. split; [done|].
    split; [eapply grows_trans; [|exact Hg3]; by eapply grows_trans|].
    split.
    { apply (memoOK_assign σ2 p pc1 (fun this => set_writeColumns this (Some w)) w);
        try done.
      left. cbn. conjs. congruence. }
    destruct (grows_columns σ2 σ3 w Hg3 Hwfw) as [Hwfw3 Hcw3].
    split; [done|congruence].
Qed.

Lemma UpdateColumns_step σ p :
  memoOK σ p ->
  exists u σ',
    UpdateColumns growslice p σ = Ok u σ' /\ grows σ σ' /\ memoOK σ' p /\
    wfColumns σ' u /\
    columnsOf σ' u =
      select writable (columnsOf σ p) ++ select isPK (columnsOf σ p).
Proof.
  intros Hok. pose proof Hok as (pc & Hp & Hwf & Hpk & Hnro & Hnest & Hw & Hu).
  cbn zeta in *. unfold UpdateColumns.
  rewrite (bind_Ok _ _ _ _ _ (loadCC_spec _ _ _ Hp)).
  assert (HL : columnsOf σ p = elems σ (columns pc)).
  { unfold columnsOf. by rewrite Hp. }
  destruct (updateColumns pc) as [u|] eqn:Huc.
  - destruct (Hu u eq_refl) as [Hwfu Hcu].
    exists u, σ. split; [done|]. split; [apply grows_refl|].
    split; [done|]. split; [done|]. by rewrite HL.
  - destruct (NotReadOnly_step σ p Hok)
      as (nro & σ1 & pc1 & nc & Hs1 & Hg1 & Hok1 & Hp1 & Hn1 & Hne & Hnc & _).
    rewrite (bind_Ok _ _ _ _ _ Hs1).
    destruct (NotPrimaryKeys_step σ1 p pc1 nro nc Hok1 Hp1 Hn1 Hnc)
      as (w & σ2 & Hs2 & Hg2 & Hok2 & Hp2 & Hwfw & Hcw).
    rewrite (bind_Ok _ _ _ _ _ Hs2).
    destruct (PrimaryKeys_step σ2 p Hok2)
      as (k & σ3 & Hs3 & Hg3 & Hok3 & Hwfk & Hck).
    rewrite (bind_Ok _ _ _ _ _ Hs3).
    destruct (grows_columns σ2 σ3 w Hg3 Hwfw) as [(wc & Hwc & Hwfwc) Hcw3].
    rewrite (bind_Ok _ _ _ _ _ (loadCC_spec _ _ _ Hwc)).
    destruct Hwfk as (kc & Hkc & Hwfkc).
    destruct (ConcatWith_spec σ3 wc k kc Hwfwc Hkc Hwfkc)
      as (s & entries & σ4 & Hs4 & Ha4 & _ & _ & _ & Hk4 & Hwfs & Hel).
    rewrite (bind_Ok _ _ _ _ _ Hs4).
    destruct (memoOK_extend σ3 σ4 p Hok3 Ha4) as [Hg4 Hok4].
    { intros i cc Hi. rewrite Hk4. by apply lookup_app_l_Some. }
    pose proof Hok4 as (pc4 & Hp4 & _).
    rewrite (bind_Ok _ _ _ _ _ (assign_spec _ _ _ _ Hp4)).
    set (u := length (collections σ3)).
    set (σ5 := set_collections σ4 _).
    assert (Hg5 : grows σ4 σ5)
      by (by apply (grows_assign σ4 p pc4 (fun this => set_updateColumns this (Some u)))).
    pose proof (memoOK_columns σ σ1 p Hg1 Hok) as Hc1.
    pose proof (memoOK_columns σ1 σ2 p Hg2 Hok1) as Hc2.
    pose proof (memoOK_columns σ2 σ3 p Hg3 Hok2) as Hc3.
    pose proof (memoOK_columns σ3 σ4 p Hg4 Hok3) as Hc4.
    assert (Hu4 : collections σ4 !! u = Some (fresh s (length (maps σ3)) "")).
    { unfold u. by rewrite Hk4, lookup_app_r, Nat.sub_diag. }
    assert (Hwfu : wfColumns σ4 u) by (by eexists).
    assert (Hcu : columnsOf σ4 u =
                  select writable (columnsOf σ p) ++ select isPK (columnsOf σ p)).
    { unfold columnsOf at 1. rewrite Hu4. cbn. rewrite Hel.
      assert (E1 : columnsOf σ3 w = elems σ3 (columns wc))
        by (unfold columnsOf; by rewrite Hwc).
      assert (E2 : columnsOf σ3 k = elems σ3 (columns kc))
        by (unfold columnsOf; by rewrite Hkc).
      rewrite <- E1, <- E2, Hcw3, Hck, Hcw. congruence. }
    exists u, σ5. split; [done|].
    split.
    { apply (grows_trans σ σ1); [done|]. apply (grows_trans σ1 σ2); [done|].
      apply (grows_trans σ2 σ3); [done|]. by apply (grows_trans σ3 σ4). }
    split.
    { apply (memoOK_assign σ4 p pc4 (fun this => set_updateColumns this (Some u)) u);
        try done.
      right. cbn. conjs. congruence. }
    destruct (grows_columns σ4 σ5 _ Hg5 Hwfu) as [Hwfu5 Hcu5].
    split; [done|congruence].
Qed.

Lemma select_writable_elem (c : Column) (L : list Column) :
  c ∈ select writable L <->
  c ∈ L /\ IsReadOnly c = false /\ IsPrimaryKey c = false.
Proof.
  unfold select. rewrite list_elem_of_filter. unfold writable.
  destruct (IsReadOnly c), (IsPrimaryKey c); cbn; intuition congruence.
Qed.

(** C5, as the code has it.  Let the derived collections that are
    memoised in a collection be the matching selections of the columns
    it has now, or let no derived collection be memoised in it at all,
    as in a collection that was just resolved or copied.  Then
    [WriteColumns] returns a
    collection of exactly the columns that are neither read-only nor
    primary keys, in the order of the collection; [UpdateColumns]
    returns those columns followed by the primary keys; and when the
    three accessors are called one after the other, the columns of the
    collection that [UpdateColumns] returned are the columns of the one
    [WriteColumns] returned followed by those of the one [PrimaryKeys]
    returned.  The collection keeps its columns, and the condition
    holds again after every call. *)
Theorem WriteColumns_UpdateColumns σ p :
  memoOK σ p \/
  (exists pc, collections σ !! p = Some pc /\ wfSlice σ (columns pc) /\
              unmemoised pc) ->
  let L := columnsOf σ p in
  (exists w σ',
     WriteColumns growslice p σ = Ok w σ' /\
     columnsOf σ' w = select writable L /\
     columnsOf σ' p = L /\ memoOK σ' p) /\
  (exists u σ',
     UpdateColumns growslice p σ = Ok u σ' /\
     columnsOf σ' u = select writable L ++ select isPK L /\
     columnsOf σ' p = L /\ memoOK σ' p) /\
  (exists w u k σ',
     (w <- WriteColumns growslice p ;;
      u <- UpdateColumns growslice p ;;
      k <- PrimaryKeys growslice p ;;
      ret (w, u, k)) σ = Ok (w, u, k) σ' /\
     columnsOf σ' w = select writable L /\
     columnsOf σ' k = select isPK L /\
     columnsOf σ' u = columnsOf σ' w ++ columnsOf σ' k) /\
  (forall c, c ∈ select writable L <->
             c ∈ L /\ IsReadOnly c = false /\ IsPrimaryKey c = false).
Proof.
  intros Hcase L.
  assert (Hok : memoOK σ p).
  { destruct Hcase as [Hok|(pc & Hp & Hwf & Hun)]; [exact Hok|].
    by eapply unmemoised_memoOK. }
  clear Hcase. split; [|split; [|split]].
  - destruct (WriteColumns_step σ p Hok) as (w & σ' & Hs & Hg & Hok' & _ & Hc).
    exists w, σ'. do 2 (split; [done|]). split; [by apply memoOK_columns|done].
  - destruct (UpdateColumns_step σ p Hok) as (u & σ' & Hs & Hg & Hok' & _ & Hc).
    exists u, σ'. do 2 (split; [done|]). split; [by apply memoOK_columns|done].
  - destruct (WriteColumns_step σ p Hok) as (w & σ1 & Hs1 & Hg1 & Hok1 & Hwfw & Hcw).
    destruct (UpdateColumns_step σ1 p Hok1) as (u & σ2 & Hs2 & Hg2 & Hok2 & Hwfu & Hcu).
    destruct (PrimaryKeys_step σ2 p Hok2) as (k & σ3 & Hs3 & Hg3 & Hok3 & Hwfk & Hck).
    exists w, u, k, σ3.
    rewrite (bind_Ok _ _ _ _ _ Hs1), (bind_Ok _ _ _ _ _ Hs2), (bind_Ok _ _ _ _ _ Hs3).
    split; [done|].
    pose proof (memoOK_columns σ σ1 p Hg1 Hok) as Hc1.
    pose proof (memoOK_columns σ1 σ2 p Hg2 Hok1) as Hc2.
    destruct (grows_columns σ1 σ2 w Hg2 Hwfw) as [Hwfw2 Hcw2].
    destruct (grows_columns σ2 σ3 w Hg3 Hwfw2) as [Hwfw3 Hcw3].
    destruct (grows_columns σ2 σ3 u Hg3 Hwfu) as [Hwfu3 Hcu3].
    fold L in Hcw. rewrite Hc2, Hc1 in Hck. rewrite Hc1 in Hcu. fold L in Hck, Hcu.
    split; [congruence|]. split; [done|]. congruence.
  - intros c. apply select_writable_elem.
Qed.

(** *** The metadata cache *)

(** What a call of [getCachedColumnCollectionFromType] did: the key it
    was called with, how many collections it constructed, and the
    pointer it returned ([None] when it panicked). *)
Record Resolution := mkResolution {
  key : string;
  constructed : nat;
  returned : option loc
}.

Definition resolve (identifier : string) (t : reflect.Type') (σ : Store) :
    Resolution * Store :=
  match getCachedColumnCollectionFromType lowerNonASCII TableNameByType
          growslice identifier t σ with
  | Ok p σ' =>
      (mkResolution identifier
         (length (collections σ') - length (collections σ)) (Some p), σ')
  | Panic _ σ' =>
      (mkResolution identifier
         (length (collections σ') - length (collections σ)) None, σ')
  end.

(** What happens in a process as far as the cache can tell: calls of
    [getCachedColumnCollectionFromType], which the mutex lets in one at a
    time, and between them any other code, which may leave the store in
    any state but cannot touch the package variable [metaCache]. *)
Inductive Step :=
| Resolve (identifier : string) (t : reflect.Type')
| Elsewhere (σ' : Store).

Fixpoint run (steps : list Step) (σ : Store) : list Resolution :=
  match steps with
  | [] => []
  | Resolve identifier t :: rest =>
      let '(r, σ') := resolve identifier t σ in r :: run rest σ'
  | Elsewhere σ' :: rest => run rest (set_metaCache σ' (metaCache σ))
  end.

(** The calls for the key [k], in the order they were made. *)
Definition callsFor (k : string) (log : list Resolution) : list Resolution :=
  filter (fun r => key r = k) log.

Definition cached (σ : Store) (k : string) : option loc :=
  default ∅ (metaCache σ) !! k.

(** The calls for one key, given what the cache holds for it: with an
    entry [p], every call returns [p] and constructs nothing; without
    one, a call panics and constructs nothing, or constructs one
    collection and returns it, and from then on the cache holds it. *)
Fixpoint consistent (known : option loc) (calls : list Resolution) : Prop :=
  match calls with
  | [] => True
  | r :: rest =>
      match known with
      | Some p => returned r = Some p /\ constructed r = 0 /\ consistent known rest
      | None =>
          (returned r = None /\ constructed r = 0 /\ consistent None rest) \/
          (exists p, returned r = Some p /\ constructed r = 1 /\
                     consistent (Some p) rest)
      end
  end.

Lemma resolve_hit identifier t σ p :
  cached σ identifier = Some p ->
  resolve identifier t σ = (mkResolution identifier 0 (Some p), σ).
Proof.
  unfold cached, resolve, getCachedColumnCollectionFromType.
  destruct (metaCache σ) as [cache|] eqn:Hc; cbn; [|done].
  rewrite Hc. cbn. intros ->. by rewrite Nat.sub_diag.
Qed.

Lemma resolve_miss identifier t σ :
  cached σ identifier = None ->
  exists r σ',
    resolve identifier t σ = (r, σ') /\ key r = identifier /\
    ((returned r = None /\ constructed r = 0 /\
      forall k, cached σ' k = cached σ k) \/
     (exists p, returned r = Some p /\ constructed r = 1 /\
                cached σ' identifier = Some p /\
                forall k, k <> identifier -> cached σ' k = cached σ k)).
Proof.
  intros Hmiss.
  set (σ1 := match metaCache σ with
             | Some _ => σ
             | None => set_metaCache σ (Some ∅)
             end).
  assert (Hsame : forall k, cached σ1 k = cached σ k).
  { intros k. unfold cached, σ1.
    destruct (metaCache σ) eqn:E; cbn; by rewrite ?E. }
  assert (Hlen : collections σ1 = collections σ).
  { unfold σ1. by destruct (metaCache σ). }
  assert (Hmiss1 : default ∅ (metaCache σ1) !! identifier = None).
  { by rewrite <- Hmiss, <- Hsame. }
  unfold resolve, getCachedColumnCollectionFromType. fold σ1. rewrite Hmiss1.
  destruct (elemType t) as [e|name fields|kind n] eqn:Ht.
  - destruct (generateColumnCollectionForType_panics t σ1) as [msg Hp];
      [congruence|].
    rewrite (bind_Panic _ _ _ _ _ Hp). eexists _, _. split; [reflexivity|].
    split; [done|]. left. cbn. rewrite Hlen, Nat.sub_diag. by repeat split.
  - destruct (generateColumnCollectionForType_spec t name fields σ1 Ht)
      as (p & σ2 & Hg & _ & _ & _ & Hl & Hmc).
    rewrite (bind_Ok _ _ _ _ _ Hg). eexists _, _. split; [reflexivity|].
    split; [done|]. right. exists p. cbn. rewrite Hl, Hlen.
    split; [done|]. split; [lia|]. unfold cached. cbn. rewrite Hmc.
    split; [by rewrite lookup_insert_eq|].
    intros k Hk. rewrite lookup_insert_ne by done. apply Hsame.
  - destruct (generateColumnCollectionForType_panics t σ1) as [msg Hp];
      [congruence|].
    rewrite (bind_Panic _ _ _ _ _ Hp). eexists _, _. split; [reflexivity|].
    split; [done|]. left. cbn. rewrite Hlen, Nat.sub_diag. by repeat split.
Qed.

Lemma resolve_key identifier t σ : key (fst (resolve identifier t σ)) = identifier.
Proof. unfold resolve. by destruct (getCachedColumnCollectionFromType _ _ _ _ _ _). Qed.

Lemma resolve_other identifier t σ k :
  k <> identifier -> cached (snd (resolve identifier t σ)) k = cached σ k.
Proof.
  intros Hk. destruct (cached σ identifier) as [p|] eqn:Hc.
  - by rewrite (resolve_hit _ t _ _ Hc).
  - destruct (resolve_miss identifier t σ Hc)
      as (r & σ' & -> & _ & [(_ & _ & Hs)|(p & _ & _ & _ & Hs)]); cbn; auto.
Qed.

Lemma run_consistent steps σ k :
  consistent (cached σ k) (callsFor k (run steps σ)).
Proof.
  revert σ. induction steps as [|[identifier t|σ'] rest IH]; intros σ;
    cbn [run]; [done| |apply (IH (set_metaCache σ' (metaCache σ)))].
  destruct (resolve identifier t σ) as [r σ1] eqn:Hr.
  unfold callsFor. rewrite filter_cons.
  pose proof (resolve_key identifier t σ) as Hkey. rewrite Hr in Hkey. cbn in Hkey.
  destruct (decide (key r = k)) as [Hk|Hk].
  - assert (identifier = k) as -> by congruence. cbn [consistent].
    destruct (cached σ k) as [p|] eqn:Hc.
    + rewrite (resolve_hit _ t _ _ Hc) in Hr. injection Hr as <- <-.
      repeat split. specialize (IH σ). by rewrite Hc in IH.
    + destruct (resolve_miss k t σ Hc)
        as (r' & σ' & Hr' & _ & [(Hret & Hcon & Hs)|(p & Hret & Hcon & Hp & _)]);
        rewrite Hr in Hr'; injection Hr' as <- <-.
      * left. repeat split; [done..|].
        specialize (IH σ1). by rewrite Hs, Hc in IH.
      * right. exists p. repeat split; [done..|].
        specialize (IH σ1). by rewrite Hp in IH.
  - specialize (IH σ1).
    pose proof (resolve_other identifier t σ k ltac:(congruence)) as Ho.
    rewrite Hr in Ho. cbn in Ho. by rewrite Ho in IH.
Qed.

Definition builds (calls : list Resolution) : nat :=
  sum_list (map constructed calls).

Lemma builds_app calls1 calls2 :
  builds (calls1 ++ calls2) = builds calls1 + builds calls2.
Proof.
  unfold builds. induction calls1 as [|r l IH]; cbn; [done|].
  rewrite IH. lia.
Qed.

Lemma consistent_known p calls :
  consistent (Some p) calls ->
  builds calls = 0 /\
  forall r, r ∈ calls -> returned r = Some p /\ constructed r = 0.
Proof.
  induction calls as [|r rest IH]; cbn.
  - intros _. split; [done|]. by intros r ?%elem_of_nil.
  - intros (Hret & Hcon & Hrest). destruct (IH Hrest) as [Hb Hall].
    unfold builds in *. cbn. rewrite Hcon, Hb. split; [done|].
    intros r' [->|Hin]%elem_of_cons; auto.
Qed.

Lemma consistent_unknown calls :
  consistent None calls ->
  builds calls <= 1 /\
  (forall i r p,
     calls !! i = Some r -> returned r = Some p ->
     builds (take (Datatypes.S i) calls) = 1 /\
     forall j r', i < j -> calls !! j = Some r' ->
                  returned r' = Some p /\ constructed r' = 0) /\
  (forall i r p,
     calls !! i = Some r -> returned r = Some p ->
     (forall j r', j < i -> calls !! j = Some r' -> returned r' = None) ->
     constructed r = 1).
Proof.
  induction calls as [|r0 rest IH]; cbn [consistent].
  - intros _. split; [cbn; lia|]. by split; intros i r p ?.
  - intros [(Hret & Hcon & Hrest)|(p0 & Hret & Hcon & Hrest)].
    + destruct (IH Hrest) as (Hb & Hlater & Hfirst).
      split; [unfold builds in *; cbn; lia|]. split.
      * intros [|i] r p Hi Hr; cbn in Hi; [congruence|].
        destruct (Hlater i r p Hi Hr) as [Hsum Hj].
        split; [unfold builds in *; cbn; rewrite Hcon; exact Hsum|].
        intros [|j] r' Hij Hj'; [lia|]. apply (Hj j); [lia|done].
      * intros [|i] r p Hi Hr Hbefore; cbn in Hi; [congruence|].
        apply (Hfirst i r p Hi Hr). intros j r' Hj Hj'.
        apply (Hbefore (Datatypes.S j)); [lia|done].
    + destruct (consistent_known p0 rest Hrest) as [Hb Hall].
      split; [unfold builds in *; cbn; lia|]. split.
      * intros [|i] r p Hi Hr; cbn in Hi.
        -- injection Hi as <-. assert (p = p0) as -> by congruence.
           split; [unfold builds; cbn; rewrite take_0; cbn; lia|].
           intros [|j] r' Hij Hj'; [lia|].
           apply Hall. by eapply list_elem_of_lookup_2.
        -- destruct (Hall r (list_elem_of_lookup_2 _ _ _ Hi)) as [Hr' _].
           assert (p = p0) as -> by congruence.
           split.
           ++ destruct (consistent_known p0 (take (Datatypes.S i) rest)) as [Hb' _].
              { clear -Hrest. revert i. induction rest as [|x l IHl]; intros i; [done|].
                cbn in *. destruct Hrest as (? & ? & ?). repeat split; [done..|].
                destruct i; [by rewrite take_0|]. by apply IHl. }
              unfold builds in *. cbn. rewrite Hcon. cbn in Hb'. lia.
           ++ intros [|j] r' Hij Hj'; [lia|].
              apply Hall. by eapply list_elem_of_lookup_2.
      * intros [|i] r p Hi Hr Hbefore; cbn in Hi; [congruence|].
        specialize (Hbefore 0 r0 ltac:(lia) eq_refl). congruence.
Qed.

(** C1.  Take any process, from the start, where [metaCache] is nil:
    calls of [getCachedColumnCollectionFromType] with any keys and
    types, and any other code between them.  For every key, over all
    the calls with that key: at most one collection is constructed; the
    first call that returns constructs exactly one collection, which
    the cache then holds; every later call returns that same pointer
    and constructs nothing.  So once a call for the key has returned,
    the number of collections constructed for the key is one and stays
    one. *)
Theorem metaCache_builds_once steps σ0 k :
  metaCache σ0 = None ->
  let calls := callsFor k (run steps σ0) in
  builds calls <= 1 /\
  (forall i r p,
     calls !! i = Some r -> returned r = Some p ->
     (forall j r', j < i -> calls !! j = Some r' -> returned r' = None) ->
     constructed r = 1) /\
  (forall i r p,
     calls !! i = Some r -> returned r = Some p ->
     builds (take (Datatypes.S i) calls) = 1 /\
     builds calls = 1 /\
     forall j r', i < j -> calls !! j = Some r' ->
                  returned r' = Some p /\ constructed r' = 0).
Proof.
  intros Hnil calls.
  pose proof (run_consistent steps σ0 k) as Hcons.
  unfold cached in Hcons. rewrite Hnil in Hcons. cbn in Hcons.
  rewrite lookup_empty in Hcons. fold calls in Hcons.
  destruct (consistent_unknown calls Hcons) as (Hb & Hlater & Hfirst).
  split; [done|]. split; [done|].
  intros i r p Hi Hr. destruct (Hlater i r p Hi Hr) as [Hsum Hj].
  split; [done|]. split; [|done].
  assert (builds (take (Datatypes.S i) calls) <= builds calls).
  { rewrite <- (take_drop (Datatypes.S i) calls) at 2.
    rewrite builds_app. lia. }
  lia.
Qed.

(** *** Adding, removing and looking up columns *)

(** The collection at [q] is there, its slice fits the store, and its
    lookup is the map [entries]. *)
Definition usable (σ : Store) (q : loc) (qc : ColumnCollection)
    (entries : gmap string ColumnPtr) : Prop :=
  collections σ !! q = Some qc /\ wfSlice σ (columns qc) /\
  exists m, lookup qc = Some m /\ maps σ !! m = Some entries.

Lemma HasColumn_spec σ q qc entries name :
  usable σ q qc entries ->
  HasColumn q name σ = Ok (bool_decide (is_Some (entries !! name))) σ.
Proof.
  intros (Hq & _ & m & Hm & He). unfold HasColumn.
  rewrite (bind_Ok _ _ _ _ _ (loadCC_spec _ _ _ Hq)).
  unfold bind, mapGet, ret. by rewrite Hm, He.
Qed.

Lemma usable_columnsOf σ q qc entries :
  usable σ q qc entries -> columnsOf σ q = elems σ (columns qc).
Proof. intros (Hq & _). unfold columnsOf. by rewrite Hq. Qed.

(** All that [Add] does. *)
Lemma Add_effect σ q qc entries c :
  usable σ q qc entries ->
  exists m s' σa σ',
    lookup qc = Some m /\
    appended (set_cells σ (cells σ ++ [c])) (columns qc) c s' σa /\
    Add growslice q c σ = Ok tt σ' /\
    arrays σ' = arrays σa /\
    cells σ' = cells σ ++ [c] /\
    collections σ' = <[q:=set_columns qc s']> (collections σ) /\
    metaCache σ' = metaCache σ /\
    maps σ' =
      <[m:=<[ColumnName c:=CellPtr (length (cells σ))]> entries]> (maps σ) /\
    usable σ' q (set_columns qc s')
      (<[ColumnName c:=CellPtr (length (cells σ))]> entries) /\
    elems σ' s' = elems σ (columns qc) ++ [c].
Proof.
  intros (Hq & Hwf & m & Hm & He). unfold Add.
  unfold bind at 1. unfold allocCell.
  set (σc := set_cells σ (cells σ ++ [c])).
  assert (Hqc : collections σc !! q = Some qc) by done.
  assert (Hwfc : wfSlice σc (columns qc)) by (by eapply wfSlice_arrays).
  rewrite (bind_Ok _ _ _ _ _ (loadCC_spec _ _ _ Hqc)).
  destruct (append_spec σc (columns qc) c Hwfc) as (s' & σa & Ha & Happ).
  rewrite (bind_Ok _ _ _ _ _ Ha).
  destruct (appended_rest _ _ _ _ _ Happ) as (Hc & Hmaps & Hk & Hmc).
  assert (Hqa : collections σa !! q = Some qc) by (by rewrite Hk).
  rewrite (bind_Ok _ _ _ _ _ (assign_spec _ _ _ _ Hqa)).
  set (σ2 := set_collections σa (<[q:=set_columns qc s']> (collections σa))).
  assert (Hq2 : collections σ2 !! q = Some (set_columns qc s')).
  { cbn. apply list_lookup_insert_eq. by eapply lookup_lt_Some. }
  rewrite (bind_Ok _ _ _ _ _ (loadCC_spec _ _ _ Hq2)). cbn [lookup set_columns].
  rewrite Hm. unfold mapSet.
  assert (He2 : maps σ2 !! m = Some entries) by (cbn; by rewrite Hmaps).
  rewrite He2.
  exists m, s', σa. eexists. split; [done|]. split; [done|].
  split; [reflexivity|]. cbn.
  rewrite Hc, Hk, Hmc, Hmaps. cbn.
  do 5 (split; [done|]).
  pose proof (appended_wf _ _ _ _ _ Hwfc Happ) as Hwf'.
  pose proof (appended_elems _ _ _ _ _ Hwfc Happ) as Hel.
  split; [|exact Hel].
  split; [apply list_lookup_insert_eq; by eapply lookup_lt_Some|].
  split; [exact Hwf'|].
  exists m. split; [done|]. cbn.
  apply list_lookup_insert_eq. by eapply lookup_lt_Some.
Qed.

(** [Add] puts the column at the end of the collection and under its
    name in the lookup: the columns are the old ones followed by the new
    one, [Len] is one more, [HasColumn] finds the new name (the lookup
    points to the caller's column), and answers as before for every
    other name. *)
Theorem Add_appends σ q qc entries c :
  usable σ q qc entries ->
  exists σ',
    Add growslice q c σ = Ok tt σ' /\
    columnsOf σ' q = columnsOf σ q ++ [c] /\
    Len q σ' = Ok (Datatypes.S (length (columnsOf σ q))) σ' /\
    HasColumn q (ColumnName c) σ' = Ok true σ' /\
    (exists ptr entries',
       lookupOf σ' q = Some entries' /\
       entries' !! ColumnName c = Some ptr /\ deref σ' ptr = Some c) /\
    (forall name b,
       name <> ColumnName c ->
       HasColumn q name σ = Ok b σ -> HasColumn q name σ' = Ok b σ').
Proof.
  intros Hu.
  destruct (Add_effect σ q qc entries c Hu)
    as (m & s' & σa & σ' & Hm & Happ & Hadd & Ha & Hc & Hk & Hmc & Hmaps & Hu' & Hel).
  exists σ'. split; [exact Hadd|].
  rewrite (usable_columnsOf _ _ _ _ Hu), (usable_columnsOf _ _ _ _ Hu').
  split; [exact Hel|].
  split.
  { rewrite Len_spec by (destruct Hu' as (? & ? & _); by eexists).
    rewrite (usable_columnsOf _ _ _ _ Hu'). cbn [columns set_columns].
    by rewrite Hel, length_app, Nat.add_1_r. }
  split.
  { rewrite (HasColumn_spec _ _ _ _ _ Hu'), lookup_insert_eq.
    by rewrite bool_decide_eq_true_2. }
  split.
  { exists (CellPtr (length (cells σ))). eexists. split; [|split].
    - destruct Hu' as (Hq' & _ & m' & Hm' & He'). unfold lookupOf.
      rewrite Hq'. cbn in Hm'. cbn. rewrite Hm'. cbn. exact He'.
    - apply lookup_insert_eq.
    - cbn. rewrite Hc. by rewrite lookup_app_r, Nat.sub_diag. }
  intros name b Hne. rewrite (HasColumn_spec _ _ _ _ _ Hu).
  rewrite (HasColumn_spec _ _ _ _ _ Hu'), lookup_insert_ne by done.
  by intros [= <-].
Qed.

Lemma filter_keep_name (columnName : string) (L : list Column) :
  filter (fun c => negb (String.eqb (ColumnName c) columnName) = true) L =
  filter (fun c => ColumnName c <> columnName) L.
Proof.
  apply list_filter_iff. intros c.
  rewrite negb_true_iff. apply String.eqb_neq.
Qed.

(** All that [Remove] does. *)
Lemma Remove_effect σ q qc entries columnName :
  usable σ q qc entries ->
  exists m s' σ',
    lookup qc = Some m /\
    Remove growslice q columnName σ = Ok tt σ' /\
    arrays σ `prefix_of` arrays σ' /\
    cells σ' = cells σ /\
    collections σ' = <[q:=set_columns qc s']> (collections σ) /\
    metaCache σ' = metaCache σ /\
    maps σ' = <[m:=delete columnName entries]> (maps σ) /\
    usable σ' q (set_columns qc s') (delete columnName entries) /\
    elems σ' s' =
      filter (fun c => ColumnName c <> columnName) (elems σ (columns qc)).
Proof.
  intros (Hq & Hwf & m & Hm & He). unfold Remove.
  rewrite (bind_Ok _ _ _ _ _ (loadCC_spec _ _ _ Hq)).
  set (keep := fun c => negb (String.eqb (ColumnName c) columnName)).
  unfold rangeSlice.
  match goal with |- context [foldM ?body _ _] => set (loop := body) end.
  destruct (foldM_invariant
              (fun k s' σ' =>
                 arrays σ `prefix_of` arrays σ' /\ outside_of σ s' /\
                 wfSlice σ' s' /\
                 elems σ' s' =
                   filter (fun c => keep c = true) (take k (elems σ (columns qc))) /\
                 cells σ' = cells σ /\ maps σ' = maps σ /\
                 collections σ' = collections σ /\ metaCache σ' = metaCache σ)
              loop (seq 0 (len (columns qc))) nilSlice σ)
    as (s' & σ1 & Hf & Hpre & Hout & Hwf' & Hel & Hc & Hmaps & Hk & Hmc).
  - by repeat split.
  - intros k i s1 σ1 Hi (Hpre & Hout & Hwf1 & Hel & Hc & Hmaps & Hk & Hmc).
    apply lookup_seq in Hi as [-> Hlt']. cbn in *.
    destruct (elems_prefix σ σ1 (columns qc) Hpre Hwf) as [Hwfq Helq].
    assert (is_Some (elems σ (columns qc) !! k)) as [c Hc'].
    { apply lookup_lt_is_Some_2. by rewrite elems_length. }
    unfold loop.
    rewrite (bind_Ok _ _ _ _ _ (index_spec σ1 _ _ c Hwfq ltac:(by rewrite Helq))).
    rewrite (take_S_r _ _ _ Hc'), filter_app, filter_cons, filter_nil.
    fold (keep c). destruct (keep c) eqn:Hkeep.
    + destruct (append_spec σ1 s1 c Hwf1) as (s2 & σ2 & Ha & Happ).
      exists s2, σ2. split; [done|].
      destruct (appended_rest _ _ _ _ _ Happ) as (? & ? & ? & ?).
      destruct (appended_outside _ _ _ _ _ _ Hpre Hout Happ).
      repeat split; try congruence; try done;
        [eapply appended_wf; [exact Hwf1|exact Happ]|].
      rewrite decide_True by done. rewrite <- Hel.
      eapply appended_elems; [exact Hwf1|exact Happ].
    + exists s1, σ1. split; [done|].
      rewrite decide_False by (by destruct (keep c)). rewrite app_nil_r.
      by repeat split.
  - rewrite (bind_Ok _ _ _ _ _ Hf).
    assert (Hq1 : collections σ1 !! q = Some qc) by (by rewrite Hk).
    rewrite (bind_Ok _ _ _ _ _ (assign_spec _ _ _ _ Hq1)).
    set (σ2 := set_collections σ1 (<[q:=set_columns qc s']> (collections σ1))).
    assert (Hq2 : collections σ2 !! q = Some (set_columns qc s')).
    { cbn. apply list_lookup_insert_eq. by eapply lookup_lt_Some. }
    rewrite (bind_Ok _ _ _ _ _ (loadCC_spec _ _ _ Hq2)). cbn [lookup set_columns].
    rewrite Hm. unfold mapDelete.
    assert (He2 : maps σ2 !! m = Some entries) by (cbn; by rewrite Hmaps).
    rewrite He2.
    rewrite length_seq, <- (elems_length _ _ Hwf), firstn_all in Hel.
    unfold keep in Hel. rewrite filter_keep_name in Hel.
    exists m, s'. eexists. split; [done|]. split; [reflexivity|]. cbn.
    rewrite Hc, Hk, Hmc, Hmaps.
    do 5 (split; [done|]). split; [|exact Hel].
    split; [apply list_lookup_insert_eq; by eapply lookup_lt_Some|].
    split; [exact Hwf'|].
    exists m. split; [done|]. cbn.
    apply list_lookup_insert_eq. by eapply lookup_lt_Some.
Qed.

(** [Remove] takes every column of that name out of the collection and
    the name out of the lookup: the columns are the old ones whose name
    differs, in their order, [HasColumn] no longer finds the name and
    answers as before for every other name.  Removing a name that no
    column has leaves the sequence of columns as it was. *)
Theorem Remove_removes σ q qc entries columnName :
  usable σ q qc entries ->
  exists σ',
    Remove growslice q columnName σ = Ok tt σ' /\
    columnsOf σ' q =
      filter (fun c => ColumnName c <> columnName) (columnsOf σ q) /\
    Len q σ' = Ok (length (columnsOf σ' q)) σ' /\
    HasColumn q columnName σ' = Ok false σ' /\
    (forall name b,
       name <> columnName ->
       HasColumn q name σ = Ok b σ -> HasColumn q name σ' = Ok b σ') /\
    (columnName ∉ map ColumnName (columnsOf σ q) ->
     columnsOf σ' q = columnsOf σ q).
Proof.
  intros Hu.
  destruct (Remove_effect σ q qc entries columnName Hu)
    as (m & s' & σ' & Hm & Hrm & Ha & Hc & Hk & Hmc & Hmaps & Hu' & Hel).
  exists σ'. split; [exact Hrm|].
  rewrite (usable_columnsOf _ _ _ _ Hu), (usable_columnsOf _ _ _ _ Hu').
  cbn [columns set_columns].
  split; [exact Hel|].
  split.
  { rewrite Len_spec by (destruct Hu' as (? & ? & _); by eexists).
    by rewrite (usable_columnsOf _ _ _ _ Hu'). }
  split.
  { rewrite (HasColumn_spec _ _ _ _ _ Hu'), lookup_delete_eq.
    rewrite bool_decide_eq_false_2; [done|]. by intros [? ?]. }
  split.
  { intros name b Hne. rewrite (HasColumn_spec _ _ _ _ _ Hu).
    rewrite (HasColumn_spec _ _ _ _ _ Hu'), lookup_delete_ne by done.
    by intros [= <-]. }
  intros Hnot. rewrite Hel.
  clear -Hnot. induction (elems σ (columns qc)) as [|c L IH]; [done|].
  rewrite filter_cons. cbn in Hnot.
  apply not_elem_of_cons in Hnot as [Hne Hrest].
  rewrite decide_True by done. by rewrite IH.
Qed.

(** *** The lookup and the columns agree *)

(** The names in a lookup are the names of the columns [L]. *)
Definition named (entries : gmap string ColumnPtr) (L : list Column) : Prop :=
  forall name, is_Some (entries !! name) <-> name ∈ map ColumnName L.

(** [HasColumn] says of every name whether a column of the collection
    has it. *)
Definition indexed (σ : Store) (q : loc) : Prop :=
  forall name,
    HasColumn q name σ =
      Ok (bool_decide (name ∈ map ColumnName (columnsOf σ q))) σ.

Lemma named_indexed σ q qc entries :
  usable σ q qc entries -> named entries (elems σ (columns qc)) -> indexed σ q.
Proof.
  intros Hu Hn name.
  rewrite (HasColumn_spec _ _ _ _ _ Hu), (usable_columnsOf _ _ _ _ Hu).
  f_equal. apply bool_decide_ext, Hn.
Qed.

Lemma named_snoc entries L c ptr :
  named entries L -> named (<[ColumnName c:=ptr]> entries) (L ++ [c]).
Proof.
  intros Hn name. specialize (Hn name).
  rewrite lookup_insert_is_Some, map_app, elem_of_app.
  cbn. rewrite list_elem_of_singleton.
  destruct (decide (ColumnName c = name)); intuition congruence.
Qed.

Lemma named_filter entries L columnName :
  named entries L ->
  named (delete columnName entries)
        (filter (fun c => ColumnName c <> columnName) L).
Proof.
  intros Hn name. specialize (Hn name).
  rewrite lookup_delete_is_Some, list_elem_of_fmap.
  rewrite list_elem_of_fmap in Hn. split.
  - intros [Hne (c & -> & Hin)%Hn]. exists c. split; [done|].
    apply list_elem_of_filter. split; [congruence|done].
  - intros (c & -> & [Hne Hin]%list_elem_of_filter).
    split; [congruence|]. apply Hn. by exists c.
Qed.

(** The loop of the constructors enters the name of every element. *)
Lemma fillLookup_keys σ m s σ' :
  wfSlice σ s -> maps σ !! m = Some ∅ ->
  fillLookup m s σ = Ok tt σ' ->
  exists entries, maps σ' !! m = Some entries /\ named entries (elems σ s).
Proof.
  intros Hwf Hm Hrun. unfold fillLookup, forEach in Hrun.
  destruct (foldM_invariant
              (fun k _ σ1 =>
                 sameButMap m σ σ1 /\
                 exists entries, maps σ1 !! m = Some entries /\
                                 named entries (take k (elems σ s)))
              (fun _ i =>
                 c <- index s i ;;
                 match array s with
                 | Some a => mapSet (Some m) (ColumnName c) (ElemPtr a i)
                 | None => panic nilDereference
                 end)
              (seq 0 (len s)) tt σ) as ([] & σ2 & Hf & _ & entries & He & Hn).
  - split; [apply sameButMap_refl|]. exists ∅. split; [done|].
    intros name. rewrite lookup_empty, take_0. cbn.
    split; [by intros [? ?]|by intros ?%elem_of_nil].
  - intros k i [] σ1 Hk (Hσ1 & entries & He & Hn).
    apply lookup_seq in Hk as [-> Hlt]. cbn.
    pose proof (sameButMap_wf _ _ _ s Hσ1 Hwf) as Hwf1.
    assert (is_Some (elems σ s !! k)) as [c Hc].
    { apply lookup_lt_is_Some_2. by rewrite elems_length. }
    assert (Hc1 : elems σ1 s !! k = Some c)
      by (by rewrite (sameButMap_elems _ _ _ _ Hσ1)).
    rewrite (bind_Ok _ _ _ _ _ (index_spec _ _ _ _ Hwf1 Hc1)).
    pose proof Hwf1 as Hwf1'.
    unfold wfSlice in Hwf1'. destruct (array s) as [a|] eqn:Ha; [|lia].
    destruct (mapSet_spec σ1 m (ColumnName c) (ElemPtr a k))
      as (σ3 & Hs & Hsame & entries' & He' & He3).
    { by eapply lookup_lt_Some. }
    exists tt, σ3. split; [done|]. split; [by eapply sameButMap_trans|].
    exists (<[ColumnName c:=ElemPtr a k]> entries'). split; [done|].
    assert (entries' = entries) as -> by congruence.
    rewrite (take_S_r _ _ _ Hc). by apply named_snoc.
  - rewrite Hf in Hrun. injection Hrun as <-.
    exists entries. split; [done|].
    by rewrite length_seq, <- (elems_length _ _ Hwf), firstn_all in Hn.
Qed.

(** A collection that a constructor has just built is [usable], and its
    lookup has the names of its columns. *)
Lemma constructed_named σ prefix s q σ1 :
  wfSlice σ s ->
  newColumnCollectionWithPrefixFromColumns prefix s σ = Ok q σ1 ->
  exists qc entries,
    usable σ1 q qc entries /\ named entries (elems σ1 (columns qc)) /\
    columns qc = s /\ columnPrefix qc = prefix /\
    elems σ1 s = elems σ s /\ q = length (collections σ).
Proof.
  intros Hwf. unfold newColumnCollectionWithPrefixFromColumns.
  unfold bind at 1. unfold allocMap.
  set (σ0 := set_maps σ (maps σ ++ [∅])).
  destruct (fillLookup_spec σ0 (length (maps σ)) s) as (σ2 & Hf & Hsame).
  { done. }
  { subst σ0. cbn. rewrite length_app. cbn. lia. }
  destruct (fillLookup_keys σ0 (length (maps σ)) s σ2) as (entries & He & Hn);
    [done|subst σ0; cbn; by rewrite lookup_app_r, Nat.sub_diag|done|].
  rewrite (bind_Ok _ _ _ _ _ Hf). unfold allocCC. intros [= <- <-].
  assert (Hwf2 : wfSlice σ2 s) by (by eapply sameButMap_wf).
  assert (Hel : elems σ2 s = elems σ s)
    by (by rewrite (sameButMap_elems _ _ _ _ Hsame)).
  destruct Hsame as (_ & _ & Hk & _).
  eexists _, entries. split; [|split; [|split; [|split; [|split]]]].
  - split; [cbn; by rewrite lookup_app_r, Nat.sub_diag|].
    split; [exact Hwf2|]. eexists. split; [reflexivity|exact He].
  - cbn. change (named entries (elems σ2 s)). by rewrite Hel.
  - reflexivity.
  - reflexivity.
  - exact Hel.
  - by rewrite Hk.
Qed.

Lemma mutate_named σ q qc entries mu :
  usable σ q qc entries -> named entries (elems σ (columns qc)) ->
  exists σ' qc' entries',
    mutate q mu σ = Ok tt σ' /\
    usable σ' q qc' entries' /\ named entries' (elems σ' (columns qc')).
Proof.
  intros Hu Hn. destruct mu as [prefix|c|columnName]; cbn [mutate].
  - pose proof Hu as (Hq & Hwf & m & Hm & He).
    rewrite (assign_spec _ _ _ _ Hq).
    eexists _, (set_columnPrefix qc prefix), entries. split; [reflexivity|].
    split; [|exact Hn].
    split; [cbn; apply list_lookup_insert_eq; by eapply lookup_lt_Some|].
    split; [exact Hwf|]. by exists m.
  - destruct (Add_effect σ q qc entries c Hu)
      as (m & s' & σa & σ' & _ & _ & Hadd & _ & _ & _ & _ & _ & Hu' & Hel).
    eexists σ', _, _. split; [exact Hadd|]. split; [exact Hu'|].
    cbn [columns set_columns]. rewrite Hel. by apply named_snoc.
  - destruct (Remove_effect σ q qc entries columnName Hu)
      as (m & s' & σ' & _ & Hrm & _ & _ & _ & _ & _ & Hu' & Hel).
    eexists σ', _, _. split; [exact Hrm|]. split; [exact Hu'|].
    cbn [columns set_columns]. rewrite Hel. by apply named_filter.
Qed.

Lemma mutations_named σ q qc entries ms :
  usable σ q qc entries -> named entries (elems σ (columns qc)) ->
  exists σ', forEach (mutate q) ms σ = Ok tt σ' /\ indexed σ' q.
Proof.
  revert σ qc entries. induction ms as [|mu ms IH]; intros σ qc entries Hu Hn.
  - exists σ. split; [done|]. by eapply named_indexed.
  - destruct (mutate_named σ q qc entries mu Hu Hn)
      as (σ1 & qc1 & entries1 & Hmu & Hu1 & Hn1).
    destruct (IH σ1 qc1 entries1 Hu1 Hn1) as (σ' & Hrest & Hi).
    exists σ'. split; [|exact Hi].
    unfold forEach in *. cbn [foldM]. by rewrite (bind_Ok _ _ _ _ _ Hmu).
Qed.

(** The constructor that [generateColumnCollectionForType] ends with,
    and the slice it is given. *)
Lemma generateColumnCollectionForType_constructed t name fields σ p σ' :
  elemType t = reflect.StructOf name fields ->
  generateColumnCollectionForType lowerNonASCII TableNameByType growslice t σ
    = Ok p σ' ->
  exists cols σ1,
    wfSlice σ1 cols /\
    newColumnCollectionWithPrefixFromColumns "" cols σ1 = Ok p σ'.
Proof.
  intros Ht. unfold generateColumnCollectionForType. rewrite Ht.
  match goal with |- context [foldM ?body _ _] => set (loop := body) end.
  destruct (foldM_invariant (fun _ cols σ1 => wfSlice σ1 cols)
              loop (seq 0 (length fields)) nilSlice σ)
    as (cols & σ1 & Hf & Hwf).
  - apply wfSlice_nil.
  - intros k i cols σ1 Hi Hwf.
    apply lookup_seq in Hi as [-> Hlt]. cbn in *.
    destruct (lookup_lt_is_Some_2 fields k Hlt) as [field Hfield].
    unfold loop. rewrite Hfield.
    destruct (reflect.Anonymous field); cbn [negb]; [by exists cols, σ1|].
    destruct (NewColumnFromFieldTag lowerNonASCII field) as [col|];
      [|by exists cols, σ1].
    destruct (append_spec σ1 cols
                (set_TableName (set_Index col (Z.of_nat k))
                   (TableNameByType (reflect.StructOf name fields))) Hwf)
      as (cols' & σ2 & Ha & Happ).
    exists cols', σ2. split; [done|]. by eapply appended_wf.
  - rewrite (bind_Ok _ _ _ _ _ Hf). intros Hrun. by exists cols, σ1.
Qed.

(** In a collection that [generateColumnCollectionForType], [Copy] or
    [CopyWithColumnPrefix] has made, and after any sequence of prefix
    changes, [Add] and [Remove] on it, [HasColumn] is true of a name
    exactly when one of the columns of the collection has that name. *)
Theorem HasColumn_agrees :
  (forall σ t name fields p σ1 ms,
     elemType t = reflect.StructOf name fields ->
     generateColumnCollectionForType lowerNonASCII TableNameByType growslice
       t σ = Ok p σ1 ->
     exists σ2, forEach (mutate p) ms σ1 = Ok tt σ2 /\ indexed σ2 p) /\
  (forall σ pc prefix q σ1 ms,
     wfSlice σ (columns pc) ->
     Copy pc σ = Ok q σ1 \/ CopyWithColumnPrefix pc prefix σ = Ok q σ1 ->
     exists σ2, forEach (mutate q) ms σ1 = Ok tt σ2 /\ indexed σ2 q).
Proof.
  split.
  - intros σ t name fields p σ1 ms Ht Hgen.
    destruct (generateColumnCollectionForType_constructed _ _ _ _ _ _ Ht Hgen)
      as (cols & σ0 & Hwf & Hnew).
    destruct (constructed_named _ _ _ _ _ Hwf Hnew)
      as (qc & entries & Hu & Hn & _).
    by eapply mutations_named.
  - intros σ pc prefix q σ1 ms Hwf [Hcopy|Hcopy];
      destruct (constructed_named _ _ _ _ _ Hwf Hcopy)
        as (qc & entries & Hu & Hn & _);
      by eapply mutations_named.
Qed.

(** *** The derived collections *)

(** What an accessor does on a collection in which its result is not
    memoised yet: it returns a new collection that holds the columns of
    the receiver that [keep] selects, in their order, under the
    receiver's prefix; the receiver keeps its columns and memoises the
    result, so the next call returns the same collection and changes
    nothing. *)
Definition derives (accessor : loc -> M loc)
    (memo : ColumnCollection -> option loc) (keep : Column -> bool) : Prop :=
  forall σ p pc,
    collections σ !! p = Some pc -> wfSlice σ (columns pc) -> memo pc = None ->
    exists x xc σ',
      accessor p σ = Ok x σ' /\
      collections σ !! x = None /\
      collections σ' !! x = Some xc /\
      columnPrefix xc = columnPrefix pc /\ unmemoised xc /\
      columnsOf σ' x = filter (fun c => keep c = true) (columnsOf σ p) /\
      columnsOf σ' p = columnsOf σ p /\
      accessor p σ' = Ok x σ'.

Lemma subset_derives memo set_memo keep :
  (forall cc v, columns (set_memo cc v) = columns cc) ->
  (forall cc v, memo (set_memo cc v) = v) ->
  derives (subset growslice memo set_memo keep) memo keep.
Proof.
  intros Hcols Hmemo σ p pc Hp Hwf Hnone.
  destruct (subset_computed memo set_memo keep p σ pc Hp Hwf Hnone)
    as (s & entries & σ' & Hs & Ha & Hc & Hmaps & Hmc & Hk & Hwfs & Hout & Hel).
  pose proof (lookup_lt_Some _ _ _ Hp) as Hlt.
  assert (Hx : collections σ' !! length (collections σ) =
               Some (fresh s (length (maps σ)) (columnPrefix pc))).
  { rewrite Hk, list_lookup_insert_ne by lia.
    by rewrite lookup_app_r, Nat.sub_diag. }
  assert (Hp' : collections σ' !! p =
                Some (set_memo pc (Some (length (collections σ))))).
  { rewrite Hk. apply list_lookup_insert_eq. rewrite length_app. lia. }
  exists (length (collections σ)), (fresh s (length (maps σ)) (columnPrefix pc)), σ'.
  split; [exact Hs|]. split; [by apply lookup_ge_None_2|].
  split; [exact Hx|]. split; [done|]. split; [by repeat split|].
  split; [unfold columnsOf; by rewrite Hx, Hp|].
  split.
  - unfold columnsOf. rewrite Hp', Hp, Hcols.
    by destruct (elems_prefix σ σ' (columns pc) Ha Hwf).
  - eapply subset_cached; [exact Hp'|]. by rewrite Hmemo.
Qed.

(** Each of [PrimaryKeys], [NotPrimaryKeys], [Autos], [NotAutos],
    [ReadOnly] and [NotReadOnly], called on a collection in which its
    result is not memoised, returns a new collection with exactly the
    columns its name says, in the order of the receiver and under the
    receiver's prefix, and memoises it: the next call returns the same
    collection and leaves the store as it is. *)
Theorem accessors_derive :
  derives (PrimaryKeys growslice) primaryKeys IsPrimaryKey /\
  derives (NotPrimaryKeys growslice) notPrimaryKeys
    (fun c => negb (IsPrimaryKey c)) /\
  derives (Autos growslice) autos IsAuto /\
  derives (NotAutos growslice) notAutos (fun c => negb (IsAuto c)) /\
  derives (ReadOnly growslice) readOnly IsReadOnly /\
  derives (NotReadOnly growslice) notReadOnly (fun c => negb (IsReadOnly c)).
Proof. repeat split; by apply subset_derives. Qed.

(** [ConcatWith] returns a new collection whose columns are those of
    the receiver followed by those of the other collection, whatever
    their names, and whose length is the sum of the two lengths.  Its
    prefix is empty, whatever the prefixes of the two were, and nothing
    is memoised in it.  The collections that were there before are as
    they were. *)
Theorem ConcatWith_concatenates σ rc other oc :
  wfSlice σ (columns rc) -> collections σ !! other = Some oc ->
  wfSlice σ (columns oc) ->
  exists u uc σ',
    ConcatWith rc other σ = Ok u σ' /\
    collections σ !! u = None /\
    collections σ' !! u = Some uc /\
    columnPrefix uc = "" /\ unmemoised uc /\
    columnsOf σ' u = elems σ (columns rc) ++ elems σ (columns oc) /\
    Len u σ' = Ok (len (columns rc) + len (columns oc)) σ' /\
    (forall i cc, collections σ !! i = Some cc ->
                  collections σ' !! i = Some cc) /\
    (forall s, wfSlice σ s -> elems σ' s = elems σ s).
Proof.
  intros Hwfr Ho Hwfo.
  destruct (ConcatWith_spec σ rc other oc Hwfr Ho Hwfo)
    as (s & entries & σ' & Hrun & Ha & Hc & Hmaps & Hmc & Hk & Hwfs & Hel).
  assert (Hu : collections σ' !! length (collections σ) =
               Some (fresh s (length (maps σ)) "")).
  { by rewrite Hk, lookup_app_r, Nat.sub_diag. }
  exists (length (collections σ)), (fresh s (length (maps σ)) ""), σ'.
  split; [exact Hrun|]. split; [by apply lookup_ge_None_2|].
  split; [exact Hu|]. split; [done|]. split; [by repeat split|].
  assert (Hcols : columnsOf σ' (length (collections σ)) =
                  elems σ (columns rc) ++ elems σ (columns oc)).
  { unfold columnsOf. by rewrite Hu. }
  split; [exact Hcols|]. split.
  { rewrite Len_spec by (by eexists). rewrite Hcols, length_app.
    by rewrite !elems_length. }
  split.
  - intros i cc Hi. rewrite Hk. by apply lookup_app_l_Some.
  - intros s0 Hwf0. by destruct (elems_prefix σ σ' s0 Ha Hwf0).
Qed.

(** *** Names *)

Lemma assignAt_spec {A} (l : list A) (i : nat) (v : A) (σ : Store) :
  i < length l -> assignAt l i v σ = Ok (<[i:=v]> l) σ.
Proof.
  intros Hi. unfold assignAt. apply Nat.ltb_lt in Hi. by rewrite Hi.
Qed.

(** A loop that fills a slice of strings, one string per column. *)
Lemma names_loop σ (s : slice) (f : Column -> string) (body : list string -> nat -> M (list string)) :
  wfSlice σ s ->
  (forall names x c, elems σ s !! x = Some c -> x < length names ->
     body names x σ = Ok (<[x:=f c]> names) σ) ->
  foldM body (seq 0 (len s)) (replicate (len s) "") σ =
    Ok (map f (elems σ s)) σ.
Proof.
  intros Hwf Hbody.
  destruct (foldM_invariant
              (fun k names σ' =>
                 σ' = σ /\
                 names = map f (take k (elems σ s)) ++ replicate (len s - k) "")
              body (seq 0 (len s)) (replicate (len s) "") σ)
    as (names & σ' & Hf & -> & Hn).
  - split; [done|]. by rewrite take_0, Nat.sub_0_r.
  - intros k x names σ' Hk [-> ->].
    apply lookup_seq in Hk as [-> Hlt]. cbn in *.
    assert (is_Some (elems σ s !! k)) as [c Hc].
    { apply lookup_lt_is_Some_2. by rewrite elems_length. }
    assert (Hlen : length (map f (take k (elems σ s))) = k).
    { rewrite length_map, length_take, elems_length by done. lia. }
    eexists _, σ. split.
    + apply (Hbody _ _ c Hc). rewrite length_app, Hlen, length_replicate. lia.
    + split; [done|].
      rewrite (take_S_r _ _ _ Hc), map_app. cbn.
      replace (len s - k) with (Datatypes.S (len s - Datatypes.S k)) by lia.
      pose proof (insert_fill (map f (take k (elems σ s))) (f c) ""
                    (len s - Datatypes.S k)) as Hfill.
      rewrite Hlen in Hfill. exact Hfill.
  - rewrite Hf. f_equal.
    rewrite length_seq, Nat.sub_diag, app_nil_r in Hn.
    by rewrite <- (elems_length _ _ Hwf), firstn_all in Hn.
Qed.

Lemma empty_prefix (prefix : string) :
  negb (String.length prefix =? 0) = false -> prefix = "".
Proof. by destruct prefix. Qed.

(** [ColumnNames] returns one name per column, in the order of the
    columns: the column name behind the prefix of the collection.
    [String] joins these names with a comma and a space.
    [ColumnNamesFromAlias] returns [alias.name] for every column, with
    [as] and the prefixed name behind it when the collection has a
    prefix.  None of them changes the store. *)
Theorem ColumnNames_prefixed σ cc tableAlias :
  wfSlice σ (columns cc) ->
  let L := elems σ (columns cc) in
  let names := map (fun c => (columnPrefix cc ++ ColumnName c)%string) L in
  ColumnNames cc σ = Ok names σ /\
  length names = len (columns cc) /\
  ColumnCollection_String cc σ = Ok (strings.Join names ", ") σ /\
  ColumnNamesFromAlias cc tableAlias σ =
    Ok (map (fun c =>
               if decide (columnPrefix cc = "")
               then (tableAlias ++ "." ++ ColumnName c)%string
               else (tableAlias ++ "." ++ ColumnName c ++ " as " ++
                     columnPrefix cc ++ ColumnName c)%string) L) σ.
Proof.
  intros Hwf L names.
  assert (Hnames : ColumnNames cc σ = Ok names σ).
  { unfold ColumnNames. apply names_loop; [done|].
    intros ns x c Hc Hx.
    rewrite (bind_Ok _ _ _ _ _ (index_spec _ _ _ _ Hwf Hc)).
    destruct (negb (String.length (columnPrefix cc) =? 0)) eqn:Hp.
    - by apply assignAt_spec.
    - rewrite (empty_prefix _ Hp). by apply assignAt_spec. }
  split; [exact Hnames|].
  split; [unfold names, L; by rewrite length_map, elems_length|].
  split.
  { unfold ColumnCollection_String. by rewrite (bind_Ok _ _ _ _ _ Hnames). }
  unfold ColumnNamesFromAlias. apply names_loop; [done|].
  intros ns x c Hc Hx.
  rewrite (bind_Ok _ _ _ _ _ (index_spec _ _ _ _ Hwf Hc)).
  destruct (negb (String.length (columnPrefix cc) =? 0)) eqn:Hp.
  - rewrite decide_False; [by apply assignAt_spec|].
    intros Heq. by rewrite Heq in Hp.
  - rewrite decide_True by (by apply empty_prefix). by apply assignAt_spec.
Qed.

(** [FirstOrDefault] returns nil exactly when the collection has no
    column; otherwise it returns a pointer into the array of the
    collection, and what it points to is the first column. *)
Theorem FirstOrDefault_first σ cc :
  wfSlice σ (columns cc) ->
  exists r,
    FirstOrDefault cc σ = Ok r σ /\
    (r = None <-> elems σ (columns cc) = []) /\
    (forall ptr, r = Some ptr ->
       (exists a, array (columns cc) = Some a /\ ptr = ElemPtr a 0) /\
       deref σ ptr = head (elems σ (columns cc))).
Proof.
  intros Hwf. unfold FirstOrDefault.
  pose proof (elems_length _ _ Hwf) as Hlen.
  destruct (len (columns cc)) as [|n] eqn:Hn; cbn.
  - exists None. split; [done|]. split; [|done].
    split; [|done]. intros _. by apply length_zero_iff_nil.
  - unfold wfSlice in Hwf. unfold elems in *.
    destruct (array (columns cc)) as [a|] eqn:Ha; [|lia].
    destruct Hwf as (arr & Harr & Hl & Hle).
    exists (Some (ElemPtr a 0)). split; [done|]. split.
    + split; [done|]. intros Hnil. rewrite Hnil in Hlen. cbn in Hlen. lia.
    + intros ptr [= <-]. split; [by exists a|].
      cbn. rewrite Harr. cbn. rewrite Hn.
      destruct arr; [cbn in *; lia|done].
Qed.

(** *** Resolving through the cache *)

(** A resolution that returns leaves its key in the cache, and every
    later call with that key, for whatever type, returns the same
    collection and changes nothing. *)
Lemma getCachedColumnCollectionFromType_hit identifier t σ p σ1 :
  getCachedColumnCollectionFromType lowerNonASCII TableNameByType growslice
    identifier t σ = Ok p σ1 ->
  cached σ1 identifier = Some p /\
  forall t',
    getCachedColumnCollectionFromType lowerNonASCII TableNameByType growslice
      identifier t' σ1 = Ok p σ1.
Proof.
  intros Hrun.
  assert (Hc : cached σ1 identifier = Some p).
  { destruct (cached σ identifier) as [q|] eqn:Hq.
    - pose proof (resolve_hit identifier t σ q Hq) as Hr.
      unfold resolve in Hr. rewrite Hrun in Hr. by injection Hr as _ <- <-.
    - destruct (resolve_miss identifier t σ Hq)
        as (r & σ' & Hr & _ & [(Hret & _)|(q & Hret & _ & Hcq & _)]);
        unfold resolve in Hr; rewrite Hrun in Hr; injection Hr as <- <-;
        cbn in Hret; congruence. }
  split; [exact Hc|]. intros t'.
  pose proof (resolve_hit identifier t' σ1 p Hc) as Hr.
  unfold resolve in Hr.
  destruct (getCachedColumnCollectionFromType _ _ _ identifier t' σ1)
    as [q σ2|msg σ2]; [|discriminate].
  by injection Hr as _ -> ->.
Qed.

Variable Type_String : reflect.Type' -> string.
Variable TableNameOf : reflect.Type' -> option string.

(** The cache is keyed by the string that [newColumnCacheKey] makes of
    a type, and by nothing else: once an instance of one type has been
    resolved, an instance of any type with the same key, be it another
    type, gets the collection that was built for the first, and nothing
    is built for it.  The nil interface has no type, and resolving it
    panics. *)
Theorem getCachedColumnCollectionFromInstance_by_key :
  (forall t1 t2 σ p σ1,
     newColumnCacheKey Type_String TableNameOf t1 =
       newColumnCacheKey Type_String TableNameOf t2 ->
     getCachedColumnCollectionFromInstance lowerNonASCII TableNameByType
       growslice Type_String TableNameOf (Some t1) σ = Ok p σ1 ->
     getCachedColumnCollectionFromInstance lowerNonASCII TableNameByType
       growslice Type_String TableNameOf (Some t2) σ1 = Ok p σ1) /\
  (forall σ,
     getCachedColumnCollectionFromInstance lowerNonASCII TableNameByType
       growslice Type_String TableNameOf None σ = Panic nilDereference σ).
Proof.
  split; [|done].
  intros t1 t2 σ p σ1 Hkey Hrun. unfold getCachedColumnCollectionFromInstance in *.
  rewrite <- Hkey.
  by destruct (getCachedColumnCollectionFromType_hit _ _ _ _ _ Hrun) as [_ H].
Qed.

Lemma not_a_struct_panics identifier t σ cache :
  (forall name fields, elemType t <> reflect.StructOf name fields) ->
  metaCache σ = Some cache -> cache !! identifier = None ->
  exists msg,
    generateColumnCollectionForType lowerNonASCII TableNameByType growslice
      t σ = Panic msg σ /\
    getCachedColumnCollectionFromType lowerNonASCII TableNameByType growslice
      identifier t σ = Panic msg σ.
Proof.
  intros Hns Hmc Hc.
  destruct (generateColumnCollectionForType_panics t σ Hns) as [msg Hp].
  exists msg. split; [exact Hp|].
  unfold getCachedColumnCollectionFromType. rewrite Hmc. cbn.
  rewrite Hmc. cbn. rewrite Hc. by rewrite (bind_Panic _ _ _ _ _ Hp).
Qed.

(** Resolving a type that is not a struct, nor a pointer to one, under
    a key that the cache does not hold panics.  The cache map has been
    made by then, but nothing is entered in it and no collection is
    built, so the next call with that key panics in the same way. *)
Theorem getCachedColumnCollectionFromType_not_a_struct identifier t σ :
  (forall name fields, elemType t <> reflect.StructOf name fields) ->
  cached σ identifier = None ->
  exists msg σ',
    getCachedColumnCollectionFromType lowerNonASCII TableNameByType growslice
      identifier t σ = Panic msg σ' /\
    metaCache σ' = Some (default ∅ (metaCache σ)) /\
    cached σ' identifier = None /\
    collections σ' = collections σ /\ arrays σ' = arrays σ /\
    maps σ' = maps σ /\ cells σ' = cells σ /\
    getCachedColumnCollectionFromType lowerNonASCII TableNameByType growslice
      identifier t σ' = Panic msg σ'.
Proof.
  intros Hns Hc. unfold cached in Hc.
  destruct (metaCache σ) as [cache|] eqn:Hmc; cbn in Hc.
  - destruct (not_a_struct_panics identifier t σ cache Hns Hmc Hc)
      as (msg & _ & Hrun).
    exists msg, σ. split; [exact Hrun|]. split; [by rewrite Hmc|].
    split; [unfold cached; by rewrite Hmc|]. by repeat split.
  - destruct (not_a_struct_panics identifier t (set_metaCache σ (Some ∅)) ∅
                Hns eq_refl (lookup_empty _)) as (msg & Hgen & Hrun).
    exists msg, (set_metaCache σ (Some ∅)).
    split; [|split; [done|]; split; [done|]; by repeat split].
    unfold getCachedColumnCollectionFromType. rewrite Hmc. cbn.
    rewrite lookup_empty. by rewrite (bind_Panic _ _ _ _ _ Hgen).
Qed.

(** *** The prefix of the write and update columns *)

Lemma subset_fresh memo set_memo keep p σ pc :
  collections σ !! p = Some pc -> wfSlice σ (columns pc) -> memo pc = None ->
  exists s m σ',
    subset growslice memo set_memo keep p σ = Ok (length (collections σ)) σ' /\
    arrays σ `prefix_of` arrays σ' /\
    collections σ' !! p = Some (set_memo pc (Some (length (collections σ)))) /\
    collections σ' !! length (collections σ) =
      Some (fresh s m (columnPrefix pc)) /\
    wfSlice σ' s /\
    length (collections σ') = Datatypes.S (length (collections σ)) /\
    (forall i, i <> p -> i < length (collections σ) ->
               collections σ' !! i = collections σ !! i).
Proof.
  intros Hp Hwf Hnone.
  destruct (subset_computed memo set_memo keep p σ pc Hp Hwf Hnone)
    as (s & entries & σ' & Hs & Ha & Hc & Hmaps & Hmc & Hk & Hwfs & Hout & Hel).
  pose proof (lookup_lt_Some _ _ _ Hp) as Hlt.
  exists s, (length (maps σ)), σ'. split; [exact Hs|]. split; [exact Ha|].
  split; [rewrite Hk; apply list_lookup_insert_eq; rewrite length_app; lia|].
  split.
  { rewrite Hk, list_lookup_insert_ne by lia.
    by rewrite lookup_app_r, Nat.sub_diag. }
  split; [exact Hwfs|].
  split; [rewrite Hk, length_insert, length_app; cbn; lia|].
  intros i Hne Hi. rewrite Hk, list_lookup_insert_ne by done.
  by rewrite lookup_app_l.
Qed.

(** The first steps that [WriteColumns] and [UpdateColumns] share, on a
    collection in which nothing is memoised. *)
Lemma writable_fresh σ p pc :
  collections σ !! p = Some pc -> wfSlice σ (columns pc) -> unmemoised pc ->
  exists nro npk s m σ2,
    (nro <- NotReadOnly growslice p ;; NotPrimaryKeys growslice nro) σ =
      Ok npk σ2 /\
    arrays σ `prefix_of` arrays σ2 /\
    collections σ2 !! p = Some (set_notReadOnly pc (Some nro)) /\
    collections σ2 !! npk = Some (fresh s m (columnPrefix pc)) /\
    wfSlice σ2 s /\ npk <> p /\ npk < length (collections σ2).
Proof.
  intros Hp Hwf (_ & _ & _ & Hnro & _).
  pose proof (lookup_lt_Some _ _ _ Hp) as Hlt.
  destruct (subset_fresh notReadOnly set_notReadOnly
              (fun c => negb (IsReadOnly c)) p σ pc Hp Hwf Hnro)
    as (s1 & m1 & σ1 & Hs1 & Ha1 & Hp1 & Hn1 & Hwf1 & Hl1 & Ho1).
  destruct (subset_fresh notPrimaryKeys set_notPrimaryKeys
              (fun c => negb (IsPrimaryKey c)) (length (collections σ)) σ1 _
              Hn1 Hwf1 eq_refl)
    as (s2 & m2 & σ2 & Hs2 & Ha2 & Hp2 & Hn2 & Hwf2 & Hl2 & Ho2).
  exists (length (collections σ)), (length (collections σ1)), s2, m2, σ2.
  split.
  { unfold NotReadOnly, NotPrimaryKeys.
    by rewrite (bind_Ok _ _ _ _ _ Hs1). }
  split; [by etrans|].
  split; [rewrite Ho2 by lia; exact Hp1|].
  split; [exact Hn2|]. split; [exact Hwf2|]. lia.
Qed.

(** On a collection with a prefix in which nothing is memoised yet,
    [WriteColumns] returns a collection with the same prefix, so its
    [ColumnNames] carry the prefix; [UpdateColumns] returns a collection
    with the empty prefix, as [ConcatWith] makes it, so its
    [ColumnNames] are the bare column names. *)
Theorem UpdateColumns_drops_prefix σ p pc :
  collections σ !! p = Some pc -> wfSlice σ (columns pc) -> unmemoised pc ->
  let L := columnsOf σ p in
  (exists w wc σ',
     WriteColumns growslice p σ = Ok w σ' /\
     collections σ' !! w = Some wc /\
     columnPrefix wc = columnPrefix pc /\
     ColumnNames wc σ' =
       Ok (map (fun c => (columnPrefix pc ++ ColumnName c)%string)
             (select writable L)) σ') /\
  (exists u uc σ',
     UpdateColumns growslice p σ = Ok u σ' /\
     collections σ' !! u = Some uc /\
     columnPrefix uc = "" /\
     ColumnNames uc σ' =
       Ok (map ColumnName (select writable L ++ select isPK L)) σ').
Proof.
  intros Hp Hwf Hun L. subst L.
  pose proof (unmemoised_memoOK σ p pc Hp Hwf Hun) as Hok.
  pose proof Hun as (_ & _ & _ & Hnro & Hpk & _ & Hwc & Huc).
  pose proof (lookup_lt_Some _ _ _ Hp) as Hlt.
  destruct (writable_fresh σ p pc Hp Hwf Hun)
    as (nro & npk & s & m & σ2 & Hrun2 & Ha2 & Hp2 & Hn2 & Hwf2 & Hne2 & Hlt2).
  split.
  - destruct (WriteColumns_step σ p Hok) as (w & σ' & Hs & _ & _ & Hwfw & Hcw).
    assert (Hrun : WriteColumns growslice p σ =
                   Ok npk (set_collections σ2
                             (<[p:=set_writeColumns
                                     (set_notReadOnly pc (Some nro)) (Some npk)]>
                                (collections σ2)))).
    { unfold WriteColumns.
      rewrite (bind_Ok _ _ _ _ _ (loadCC_spec _ _ _ Hp)), Hwc.
      unfold bind at 1. unfold bind in Hrun2.
      destruct (NotReadOnly growslice p σ) as [x σ1|]; [|discriminate].
      unfold bind at 1. rewrite Hrun2.
      by rewrite (bind_Ok _ _ _ _ _ (assign_spec _ _ _ _ Hp2)). }
    rewrite Hrun in Hs. injection Hs as <- <-.
    eexists npk, _, _. split; [exact Hrun|].
    split; [cbn; rewrite list_lookup_insert_ne by done; exact Hn2|].
    split; [done|].
    assert (Hwfs : wfSlice
                     (set_collections σ2
                        (<[p:=set_writeColumns
                                (set_notReadOnly pc (Some nro)) (Some npk)]>
                           (collections σ2))) s) by exact Hwf2.
    destruct (ColumnNames_prefixed _ (fresh s m (columnPrefix pc)) "" Hwfs)
      as [Hnames _].
    rewrite Hnames. do 2 f_equal. cbn [columns fresh].
    rewrite <- Hcw. unfold columnsOf. cbn [collections set_collections].
    rewrite list_lookup_insert_ne by done. by rewrite Hn2.
  - destruct (UpdateColumns_step σ p Hok) as (u & σ' & Hs & _ & _ & Hwfu & Hcu).
    assert (Hwfp2 : wfSlice σ2 (columns pc))
      by (by destruct (elems_prefix σ σ2 (columns pc) Ha2 Hwf)).
    destruct (subset_fresh primaryKeys set_primaryKeys IsPrimaryKey p σ2 _
                Hp2 Hwfp2 Hpk)
      as (s3 & m3 & σ3 & Hs3 & Ha3 & Hp3 & Hn3 & Hwf3 & Hl3 & Ho3).
    assert (Hnpk3 : collections σ3 !! npk = Some (fresh s m (columnPrefix pc))).
    { rewrite Ho3 by done. exact Hn2. }
    assert (Hwfs3 : wfSlice σ3 s)
      by (by destruct (elems_prefix σ2 σ3 s Ha3 Hwf2)).
    destruct (ConcatWith_spec σ3 (fresh s m (columnPrefix pc))
                (length (collections σ2)) _ Hwfs3 Hn3 Hwf3)
      as (s4 & entries & σ4 & Hs4 & Ha4 & _ & _ & _ & Hk4 & Hwf4 & Hel4).
    assert (Hp4 : collections σ4 !! p =
                  Some (set_primaryKeys (set_notReadOnly pc (Some nro))
                          (Some (length (collections σ2))))).
    { rewrite Hk4. by apply lookup_app_l_Some. }
    assert (Hrun : exists σ5,
               UpdateColumns growslice p σ = Ok (length (collections σ3)) σ5 /\
               collections σ5 !! length (collections σ3) =
                 Some (fresh s4 (length (maps σ3)) "") /\
               arrays σ5 = arrays σ4).
    { eexists. split.
      - unfold UpdateColumns.
        rewrite (bind_Ok _ _ _ _ _ (loadCC_spec _ _ _ Hp)), Huc.
        unfold bind at 1. unfold bind in Hrun2.
        destruct (NotReadOnly growslice p σ) as [x σ1|]; [|discriminate].
        unfold bind at 1. rewrite Hrun2.
        unfold PrimaryKeys. rewrite (bind_Ok _ _ _ _ _ Hs3).
        rewrite (bind_Ok _ _ _ _ _ (loadCC_spec _ _ _ Hnpk3)).
        rewrite (bind_Ok _ _ _ _ _ Hs4).
        by rewrite (bind_Ok _ _ _ _ _ (assign_spec _ _ _ _ Hp4)).
      - split; [|done]. cbn.
        apply lookup_lt_Some in Hp3.
        rewrite list_lookup_insert_ne by lia.
        by rewrite Hk4, lookup_app_r, Nat.sub_diag. }
    destruct Hrun as (σ5 & Hrun & Hu5 & Ha5).
    rewrite Hrun in Hs. injection Hs as <- <-.
    eexists _, _, σ5. split; [exact Hrun|]. split; [exact Hu5|].
    split; [done|].
    assert (Hwfs5 : wfSlice σ5 s4) by (by eapply wfSlice_arrays).
    destruct (ColumnNames_prefixed _ (fresh s4 (length (maps σ3)) "") "" Hwfs5)
      as [Hnames _].
    rewrite Hnames. do 2 f_equal. cbn [columns fresh].
    rewrite <- Hcu. unfold columnsOf. by rewrite Hu5.
Qed.

(** *** The lookup under the prefix *)

Lemma append_inj (prefix k1 k2 : string) :
  (prefix ++ k1)%string = (prefix ++ k2)%string -> k1 = k2.
Proof.
  induction prefix as [|c prefix IH]; cbn; [done|].
  intros [= H]. by apply IH.
Qed.

(** The map that the loop of [Lookup] builds from the entries it
    visits. *)
Definition prefixed (prefix : string) (visited : list (string * ColumnPtr)) :
    gmap string ColumnPtr :=
  foldl (fun acc kv => <[(prefix ++ fst kv)%string:=snd kv]> acc) ∅ visited.

Lemma prefixed_snoc prefix visited kv :
  prefixed prefix (visited ++ [kv]) =
    <[(prefix ++ fst kv)%string:=snd kv]> (prefixed prefix visited).
Proof. unfold prefixed. by rewrite foldl_app. Qed.

Lemma prefixed_keys prefix visited key :
  is_Some (prefixed prefix visited !! key) ->
  exists k, key = (prefix ++ k)%string /\ k ∈ visited.*1.
Proof.
  induction visited as [|kv visited IH] using rev_ind.
  - unfold prefixed. cbn. rewrite lookup_empty. by intros [? ?].
  - rewrite prefixed_snoc, lookup_insert_is_Some.
    intros [<-|[_ (k & -> & Hk)%IH]].
    + exists (fst kv). split; [done|]. rewrite fmap_app, elem_of_app.
      right. cbn. by apply list_elem_of_singleton.
    + exists k. split; [done|]. rewrite fmap_app, elem_of_app. by left.
Qed.

Lemma prefixed_lookup prefix visited k v :
  NoDup visited.*1 ->
  prefixed prefix visited !! (prefix ++ k)%string = Some v <-> (k, v) ∈ visited.
Proof.
  induction visited as [|[k0 v0] visited IH] using rev_ind; intros Hnd.
  - unfold prefixed. cbn. rewrite lookup_empty.
    split; [done|by intros ?%elem_of_nil].
  - rewrite fmap_app in Hnd. apply NoDup_app in Hnd as (Hnd & Hfresh & _).
    rewrite prefixed_snoc, elem_of_app, list_elem_of_singleton. cbn [fst snd].
    destruct (decide (k0 = k)) as [->|Hne].
    + rewrite lookup_insert_eq. split.
      * intros [= ->]. by right.
      * intros [Hin|[= ->]]; [|done]. exfalso.
        apply (Hfresh k); [|cbn; by apply list_elem_of_singleton].
        apply list_elem_of_fmap. by exists (k, v).
    + rewrite lookup_insert_ne by (intros ?%append_inj; done).
      rewrite (IH Hnd). split; [by left|]. by intros [?|[= ? ?]].
Qed.

(** The loop of [Lookup], from any map that the new map may hold. *)
Lemma Lookup_loop σ prefix visited acc :
  forEach (fun kv =>
             mapSet (Some (length (maps σ))) (prefix ++ fst kv)%string (snd kv))
          visited (set_maps σ (maps σ ++ [acc])) =
    Ok tt (set_maps σ
             (maps σ ++
              [foldl (fun acc kv => <[(prefix ++ fst kv)%string:=snd kv]> acc)
                 acc visited])).
Proof.
  revert acc. induction visited as [|kv visited IH]; intros acc; [done|].
  unfold forEach in *. cbn [foldl foldM].
  unfold bind at 1. unfold mapSet at 1. cbn [maps set_maps].
  rewrite lookup_app_r, Nat.sub_diag by done.
  simpl ([acc] !! 0). cbv iota beta.
  rewrite insert_app_r_alt, Nat.sub_diag by done.
  simpl (<[0:=_]> [acc]). apply IH.
Qed.

Variable rangeOrder : gmap string ColumnPtr -> list (string * ColumnPtr).
Hypothesis rangeOrder_visits :
  forall entries, rangeOrder entries ≡ₚ map_to_list entries.

(** [Lookup] on a collection without a prefix returns the lookup map of
    the collection itself, not a copy of it.  On a collection with a
    prefix it returns a new map, in whatever order [range] visits the
    entries: it holds under [prefix ++ name] what the lookup of the
    collection holds under [name], and nothing under any other key; the
    collection and its own lookup are as they were. *)
Theorem Lookup_prefixed σ p pc entries :
  usable σ p pc entries ->
  (columnPrefix pc = "" ->
   Lookup rangeOrder p σ = Ok (lookup pc) σ) /\
  (columnPrefix pc <> "" ->
   exists entries' σ',
     Lookup rangeOrder p σ = Ok (Some (length (maps σ))) σ' /\
     lookup pc <> Some (length (maps σ)) /\
     σ' = set_maps σ (maps σ ++ [entries']) /\
     (forall name,
        entries' !! (columnPrefix pc ++ name)%string = entries !! name) /\
     (forall key, is_Some (entries' !! key) ->
        exists name, key = (columnPrefix pc ++ name)%string /\
                     is_Some (entries !! name))).
Proof.
  intros (Hp & Hwf & m & Hm & He). split.
  - intros Hpre. unfold Lookup.
    rewrite (bind_Ok _ _ _ _ _ (loadCC_spec _ _ _ Hp)). by rewrite Hpre.
  - intros Hpre. unfold Lookup.
    rewrite (bind_Ok _ _ _ _ _ (loadCC_spec _ _ _ Hp)).
    assert (negb (String.length (columnPrefix pc) =? 0) = true) as ->.
    { destruct (columnPrefix pc); [done|reflexivity]. }
    unfold bind at 1. unfold allocMap.
    unfold bind at 1. unfold mapEntries. rewrite Hm. cbn [maps set_maps].
    assert (Hlt : m < length (maps σ)) by (by eapply lookup_lt_Some).
    rewrite lookup_app_l, He by done.
    pose proof (Lookup_loop σ (columnPrefix pc) (rangeOrder entries) ∅) as Hloop.
    rewrite (bind_Ok _ _ _ _ _ Hloop).
    fold (prefixed (columnPrefix pc) (rangeOrder entries)).
    assert (Hnd : NoDup (rangeOrder entries).*1).
    { rewrite (rangeOrder_visits entries). apply NoDup_fst_map_to_list. }
    eexists _, _. split; [reflexivity|].
    split; [intros [= ->]; lia|]. split; [reflexivity|]. split.
    + intros name. apply option_eq. intros v.
      rewrite (prefixed_lookup _ _ _ _ Hnd), (rangeOrder_visits entries).
      apply elem_of_map_to_list.
    + intros key (name & -> & Hin)%prefixed_keys.
      exists name. split; [done|].
      rewrite (rangeOrder_visits entries) in Hin.
      apply list_elem_of_fmap in Hin as ([k v] & -> & Hkv).
      apply elem_of_map_to_list in Hkv. cbn. eauto.
Qed.

End StoreFacts.

(** ** Setting a field *)

Section TypeFacts.

Import reflect.

Lemma Type_ind' (P : Type' -> Prop) :
  (forall e, P e -> P (PtrTo e)) ->
  (forall name fields, Forall (fun f => P (Type_ f)) fields -> P (StructOf name fields)) ->
  (forall k name, P (Other k name)) ->
  forall t, P t.
Proof.
  intros Hp Hs Ho.
  refine (fix IH (t : Type') : P t :=
            match t with
            | PtrTo e => Hp e (IH e)
            | StructOf name fields =>
                Hs name fields
                  ((fix go (fs : list StructField) : Forall (fun f => P (Type_ f)) fs :=
                      match fs with
                      | [] => @List.Forall_nil _ _
                      | f :: r => @List.Forall_cons _ _ _ _ (IH (Type_ f)) (go r)
                      end) fields)
            | Other k name => Ho k name
            end).
Qed.

Lemma Type_eqb_eq (t1 t2 : Type') : Type_eqb t1 t2 = true <-> t1 = t2.
Proof.
  revert t2. induction t1 as [e IH|name fields IH|k name] using Type_ind';
    intros [e2|name2 fields2|k2 name2]; cbn; try (split; [done|congruence]).
  - rewrite IH. split; congruence.
  - rewrite andb_true_iff, String.eqb_eq.
    assert (Hfs : forall fs2,
              (fix fields_eqb (fs1 fs2 : list StructField) : bool :=
                 match fs1, fs2 with
                 | [], [] => true
                 | f1 :: r1, f2 :: r2 =>
                     String.eqb (Name f1) (Name f2) &&
                     Bool.eqb (Anonymous f1) (Anonymous f2) &&
                     bool_decide (Tag f1 = Tag f2) &&
                     Type_eqb (Type_ f1) (Type_ f2) &&
                     fields_eqb r1 r2
                 | _, _ => false
                 end) fields fs2 = true <-> fields = fs2).
    { induction IH as [|f r Hf Hr IHr]; intros [|f2 r2];
        try (split; [done|congruence]).
      rewrite !andb_true_iff, String.eqb_eq, Bool.eqb_true_iff,
        bool_decide_eq_true, Hf, IHr.
      destruct f, f2; cbn. split; [intros ((((-> & ->) & ->) & ->) & ->)|]; [done|].
      intros [= -> -> -> -> ->]. done. }
    rewrite Hfs. split; [by intros [-> ->]|by intros [= -> ->]].
  - rewrite andb_true_iff, bool_decide_eq_true, String.eqb_eq.
    split; [by intros [-> ->]|by intros [= -> ->]].
Qed.

Lemma Type_eqb_refl (t : Type') : Type_eqb t t = true.
Proof. by apply Type_eqb_eq. Qed.

End TypeFacts.

Section SetValueFacts.

Import reflect exception.

Context {V iface : Type}.
Variable assignableRule : Type' -> Type' -> bool.
Variable convertRule : Type' -> Data V -> Type' -> option (Data V).
Variable reflectValue : iface -> Value V.
Variable FieldByName : Value V -> string -> option (Value V).
Variable jsonUnmarshal :
  string -> Type' -> option (Data V) -> Data V * option error.

Abbreviation SetValue :=
  (SetValue assignableRule convertRule reflectValue FieldByName jsonUnmarshal).
Abbreviation AssignableTo := (AssignableTo assignableRule).

Lemma AssignableTo_refl (t : Type') : AssignableTo t t = true.
Proof. unfold reflect.AssignableTo. by rewrite Type_eqb_refl. Qed.

(** C3, as the code has it.  Let the object have the field of the
    column.  If the field cannot be set, [SetValue] returns the error
    that says so and changes nothing.  Otherwise, if the source Value is
    the zero Value, it returns nil and changes nothing.  Otherwise, for a
    column that is not a JSON column and a source that was not reached
    through an unexported field:
    - if the source's type is assignable to the field's type, the field
      receives the source's data; but when the field is of pointer kind
      and the source is addressable, [Set] is called with the source's
      address, so the field receives that address when a pointer to the
      source's type is assignable to the field's type, and [Set] panics
      when it is not;
    - else, if the field is of pointer kind: it receives the source's
      address when the source is addressable and of the field's element
      type, and [SetValue] returns the error "cannot take address of
      value" and changes nothing when the source is not addressable;
    - else the source is converted to the field's type and the field
      receives the result ([Convert] panics when there is no such
      conversion).
    For a JSON column none of these three cases applies.  A source that
    is a [sql.NullString] that is valid and whose text is not empty is
    decoded by [json.Unmarshal] into the field: when that fails,
    [SetValue] returns the error wrapped and the field holds what the
    decoder left there; when it succeeds, the field holds the decoded
    value and [SetValue] returns nil.  Every other source, assignable
    or not, leaves the field as it was, and [SetValue] returns nil.  A
    source that was reached through an unexported field makes
    [Interface] panic. *)
Theorem SetValue_contract (c : Column) (object value : iface)
    (mem : gmap addr (Data V)) fieldType fieldData fieldHome fieldRO :
  FieldByName (reflectValue object) (FieldName c) =
    Some (Val fieldType fieldData fieldHome fieldRO) ->
  let field := Val fieldType fieldData fieldHome fieldRO in
  (CanSet field = false ->
   SetValue c object value mem = Ok (Some (cannotSetField c)) mem) /\
  (CanSet field = true -> reflectValue value = Zero ->
   SetValue c object value mem = Ok None mem) /\
  (forall a vt vd vh,
     CanSet field = true -> fieldHome = Some a ->
     IsJSON c = false -> reflectValue value = Val vt vd vh false ->
     (AssignableTo vt fieldType = true ->
      (Kind_of fieldType <> Ptr \/ vh = None ->
       SetValue c object value mem = Ok None (<[a:=vd]> mem)) /\
      (forall h, Kind_of fieldType = Ptr -> vh = Some h ->
         if AssignableTo (PtrTo vt) fieldType
         then SetValue c object value mem =
                Ok None (<[a:=Pointer (Some h)]> mem)
         else exists msg, SetValue c object value mem = Panic msg mem)) /\
     (AssignableTo vt fieldType = false ->
      (forall h, fieldType = PtrTo vt -> vh = Some h ->
         SetValue c object value mem =
           Ok None (<[a:=Pointer (Some h)]> mem)) /\
      (Kind_of fieldType = Ptr -> vh = None ->
       SetValue c object value mem = Ok (Some cannotTakeAddress) mem) /\
      (Kind_of fieldType <> Ptr ->
       match convertRule vt vd fieldType with
       | Some d => SetValue c object value mem = Ok None (<[a:=d]> mem)
       | None => exists msg, SetValue c object value mem = Panic msg mem
       end))) /\
  (forall a vt vd vh,
     CanSet field = true -> fieldHome = Some a ->
     IsJSON c = true -> reflectValue value = Val vt vd vh false ->
     match vd with
     | NullString text valid =>
         if Type_eqb vt NullStringType && valid &&
            (0 <? String.length text)%nat
         then match jsonUnmarshal text fieldType (mem !! a) with
              | (d, Some e) =>
                  SetValue c object value mem =
                    Ok (Some (exception.New e)) (<[a:=d]> mem)
              | (d, None) =>
                  SetValue c object value mem = Ok None (<[a:=d]> mem)
              end
         else SetValue c object value mem = Ok None mem
     | _ => SetValue c object value mem = Ok None mem
     end) /\
  (forall vt vd vh,
     CanSet field = true -> IsJSON c = true ->
     reflectValue value = Val vt vd vh true ->
     exists msg, SetValue c object value mem = Panic msg mem).
Proof.
  intros Hfield field. subst field.
  split; [|split; [|split; [|split]]]; cycle 3.
  - intros a vt vd vh Hset -> Hjson Hvalue.
    assert (fieldRO = false) as -> by (by destruct fieldRO).
    unfold db.SetValue, orPanic. rewrite Hfield.
    unfold bind, ret. cbn -[reflect.AssignableTo Type_eqb].
    rewrite Hvalue, Hjson. cbn -[reflect.AssignableTo Type_eqb].
    destruct vd as [ptr|text valid|plain];
      cbn -[reflect.AssignableTo Type_eqb]; [done| |done].
    destruct (Type_eqb vt NullStringType);
      cbn -[reflect.AssignableTo Type_eqb]; [|done].
    destruct valid; cbn -[reflect.AssignableTo Type_eqb]; [|done].
    destruct (String.length text); cbn -[reflect.AssignableTo Type_eqb];
      [done|].
    unfold Memory.
    destruct (jsonUnmarshal text fieldType (mem !! a)) as [d [e|]];
      cbn -[reflect.AssignableTo Type_eqb]; [done|].
    unfold Set', Set_. rewrite AssignableTo_refl. by rewrite insert_insert_eq.
  - intros vt vd vh Hset Hjson Hvalue.
    destruct fieldHome as [a|]; [|done].
    assert (fieldRO = false) as -> by (by destruct fieldRO).
    unfold db.SetValue, orPanic. rewrite Hfield.
    unfold bind, ret. cbn -[reflect.AssignableTo Type_eqb].
    rewrite Hvalue, Hjson. cbn. by eexists.
  - intros Hset. unfold db.SetValue, orPanic. rewrite Hfield.
    unfold bind, ret. cbn -[CanSet]. by rewrite Hset.
  - intros Hset Hzero. unfold db.SetValue, orPanic. rewrite Hfield.
    unfold bind, ret. cbn -[CanSet]. by rewrite Hset, Hzero.
  - intros a vt vd vh Hset -> Hjson Hvalue.
    assert (fieldRO = false) as -> by (by destruct fieldRO).
    split.
    + intros Hassign. split.
      * intros Hcase. unfold db.SetValue, orPanic. rewrite Hfield.
        unfold bind, ret. cbn -[reflect.AssignableTo]. rewrite Hvalue, Hjson.
        cbn -[reflect.AssignableTo]. rewrite Hassign.
        destruct Hcase as [Hk| ->].
        -- rewrite bool_decide_eq_false_2 by done. cbn -[reflect.AssignableTo].
           unfold Set', Set_. by rewrite Hassign.
        -- rewrite andb_false_r. unfold Set', Set_. by rewrite Hassign.
      * intros h Hk ->.
        destruct (AssignableTo (PtrTo vt) fieldType) eqn:Hp.
        -- unfold db.SetValue, orPanic. rewrite Hfield.
           unfold bind, ret. cbn -[reflect.AssignableTo]. rewrite Hvalue, Hjson.
           cbn -[reflect.AssignableTo]. rewrite Hassign.
           rewrite bool_decide_eq_true_2 by done. cbn -[reflect.AssignableTo].
           unfold Set', Set_. by rewrite Hp.
        -- unfold db.SetValue, orPanic. rewrite Hfield.
           unfold bind, ret. cbn -[reflect.AssignableTo]. rewrite Hvalue, Hjson.
           cbn -[reflect.AssignableTo]. rewrite Hassign.
           rewrite bool_decide_eq_true_2 by done. cbn -[reflect.AssignableTo].
           unfold Set', Set_. rewrite Hp. by eexists.
    + intros Hassign. split; [|split].
      * intros h -> ->. unfold db.SetValue, orPanic. rewrite Hfield.
        unfold bind, ret. cbn -[reflect.AssignableTo]. rewrite Hvalue, Hjson.
        cbn -[reflect.AssignableTo]. rewrite Hassign.
        rewrite Type_eqb_refl. cbn -[reflect.AssignableTo].
        unfold Set', Set_. by rewrite AssignableTo_refl.
      * intros Hk ->. unfold db.SetValue, orPanic. rewrite Hfield.
        unfold bind, ret. cbn -[reflect.AssignableTo]. rewrite Hvalue, Hjson.
        cbn -[reflect.AssignableTo]. rewrite Hassign.
        by rewrite bool_decide_eq_true_2 by done.
      * intros Hk. unfold db.SetValue, orPanic. rewrite Hfield.
        unfold bind, ret. cbn -[reflect.AssignableTo]. rewrite Hvalue, Hjson.
        cbn -[reflect.AssignableTo]. rewrite Hassign.
        rewrite bool_decide_eq_false_2 by done.
        unfold Convert. destruct (convertRule vt vd fieldType) as [d|];
          [|by eexists].
        unfold Set', Set_. by rewrite AssignableTo_refl.
Qed.

End SetValueFacts.

(** ** The connection life cycle *)

Section ConnectionFacts.

Variable outside : Outside.

(** The world a call leaves behind, whether it returned or panicked. *)
Definition after {A} (r : Result World A) : World :=
  match r with
  | Ok _ w => w
  | Panic _ w => w
  end.

(** [n] calls of [Open] in a row: every call with the world it started
    in and its result. *)
Fixpoint OpenTimes (n : nat) (w : World) : list (World * Result World (option exception.error)) :=
  match n with
  | O => []
  | S n' => (w, Open outside w) :: OpenTimes n' (after (Open outside w))
  end.

(** A call set the handle when it started without a handle and left one
    in the receiver. *)
Definition setsHandle (step : World * Result World (option exception.error)) : bool :=
  bool_decide (connection (this (fst step)) = None) &&
  bool_decide (is_Some (connection (this (after (snd step))))).

Lemma openNewSQLConnection_result w v w' :
  openNewSQLConnection outside w = Ok (v, None) w' -> is_Some v.
Proof.
  unfold openNewSQLConnection, bind, receiver, call, update, ret.
  destruct (config (this w)) as [cfg|]; [|discriminate].
  cbn. destruct (answer_Open _ _ _ _) as [h|e]; [|discriminate].
  cbn. destruct (String.length (GetSchema cfg)); cbn.
  - destruct (answer_Exec _ _ _ _); [discriminate|].
    intros [= <- _]. eauto.
  - destruct (answer_Exec _ _ _ _); [discriminate|]. cbn.
    destruct (answer_Exec _ _ _ _); [discriminate|].
    intros [= <- _]. eauto.
Qed.

Lemma openNewSQLConnection_returns w :
  exists r w', openNewSQLConnection outside w = Ok r w'.
Proof.
  unfold openNewSQLConnection, bind, receiver, call, update, ret.
  destruct (config (this w)) as [cfg|]; [|eauto].
  cbn. destruct (answer_Open _ _ _ _) as [h|e]; [|eauto].
  cbn. destruct (String.length (GetSchema cfg)); cbn.
  - destruct (answer_Exec _ _ _ _); eauto.
  - destruct (answer_Exec _ _ _ _); [eauto|]. cbn.
    destruct (answer_Exec _ _ _ _); eauto.
Qed.

Lemma openNewSQLConnection_connection w r w' :
  openNewSQLConnection outside w = Ok r w' ->
  connection (this w') = connection (this w).
Proof.
  unfold openNewSQLConnection, bind, receiver, call, update, ret.
  destruct (config (this w)) as [cfg|]; [|by intros [= _ <-]].
  cbn. destruct (answer_Open _ _ _ _) as [h|e]; [|by intros [= _ <-]].
  cbn. destruct (String.length (GetSchema cfg)); cbn.
  - destruct (answer_Exec _ _ _ _); by intros [= _ <-].
  - destruct (answer_Exec _ _ _ _); [by intros [= _ <-]|]. cbn.
    destruct (answer_Exec _ _ _ _); by intros [= _ <-].
Qed.

(** Once the receiver holds a handle, [Open] returns it as it is. *)
Lemma Open_opened w :
  is_Some (connection (this w)) -> Open outside w = Ok None w.
Proof.
  intros [h Hh]. unfold Open, bind, receiver. by rewrite Hh.
Qed.

(** A call that returns without an error leaves a handle. *)
Lemma Open_success w w' :
  Open outside w = Ok None w' -> is_Some (connection (this w')).
Proof.
  unfold Open, bind, receiver.
  destruct (connection (this w)) as [h|] eqn:Hc.
  - intros [= <-]. rewrite Hc. eauto.
  - destruct (connectionLock (this w)); [|discriminate].
    rewrite Hc.
    destruct (openNewSQLConnection outside w) as [[v [e|]] w1|] eqn:Ho;
      cbn; try discriminate.
    apply openNewSQLConnection_result in Ho as [h ->].
    unfold update, ret. intros [= <-]. cbn. eauto.
Qed.

(** A call that fails or panics leaves the handle as it was. *)
Lemma Open_failure r w :
  Open outside w = r -> r <> Ok None (after r) ->
  connection (this (after r)) = connection (this w).
Proof.
  intros <-. unfold Open, bind, receiver.
  destruct (connection (this w)) as [h|] eqn:Hc.
  - cbn. congruence.
  - destruct (connectionLock (this w)); [|cbn; congruence].
    rewrite Hc.
    destruct (openNewSQLConnection outside w) as [[v [e|]] w1|] eqn:Ho; cbn.
    + intros _. rewrite <- Hc. by eapply openNewSQLConnection_connection.
    + unfold update, ret. cbn. congruence.
    + destruct (openNewSQLConnection_returns w) as (r & w' & Hr). congruence.
Qed.

Lemma OpenTimes_S n w :
  OpenTimes (S n) w = (w, Open outside w) :: OpenTimes n (after (Open outside w)).
Proof. reflexivity. Qed.

Lemma OpenTimes_opened n w :
  is_Some (connection (this w)) ->
  Forall (fun step => step = (w, Ok None w)) (OpenTimes n w).
Proof.
  intros Hw. induction n as [|n IH]; [constructor|].
  rewrite OpenTimes_S, (Open_opened w Hw). constructor; [done|exact IH].
Qed.

Lemma setsHandle_opened n w :
  is_Some (connection (this w)) ->
  length (filter (fun step => setsHandle step = true) (OpenTimes n w)) = 0.
Proof.
  intros Hw. pose proof (OpenTimes_opened n w Hw) as Hall.
  induction Hall as [|step steps -> _ IH]; [done|].
  rewrite filter_cons. destruct (decide _) as [Hc|_]; [|exact IH].
  unfold setsHandle in Hc. cbn in Hc.
  destruct Hw as [h Hh]. rewrite Hh in Hc.
  rewrite bool_decide_eq_false_2 in Hc; [discriminate|done].
Qed.

Lemma setsHandle_once n w :
  length (filter (fun step => setsHandle step = true) (OpenTimes n w)) <= 1.
Proof.
  revert w. induction n as [|n IH]; intros w; [cbn; lia|].
  rewrite OpenTimes_S, filter_cons.
  destruct (connection (this w)) as [h|] eqn:Hc.
  - destruct (decide _) as [Hp|_].
    + unfold setsHandle in Hp. cbn in Hp. rewrite Hc in Hp.
      rewrite bool_decide_eq_false_2 in Hp; [discriminate|done].
    + apply IH.
  - destruct (Open outside w) as [[e|] w'|msg w'] eqn:Ho.
    + pose proof (Open_failure _ w Ho ltac:(discriminate)) as Hk.
      cbn in Hk. rewrite Hc in Hk.
      destruct (decide _) as [Hp|_]; [|apply IH].
      unfold setsHandle in Hp. cbn in Hp. rewrite Hk in Hp.
      rewrite (bool_decide_eq_false_2 (is_Some None)) in Hp;
        [by rewrite andb_false_r in Hp|by intros [? ?]].
    + apply Open_success in Ho. cbn [after].
      destruct (decide _); cbn [length];
        rewrite (setsHandle_opened n w' Ho); lia.
    + pose proof (Open_failure _ w Ho ltac:(discriminate)) as Hk.
      cbn in Hk. rewrite Hc in Hk.
      destruct (decide _) as [Hp|_]; [|apply IH].
      unfold setsHandle in Hp. cbn in Hp. rewrite Hk in Hp.
      rewrite (bool_decide_eq_false_2 (is_Some None)) in Hp;
        [by rewrite andb_false_r in Hp|by intros [? ?]].
Qed.

(** The calls of [sql.Open] that a call of [Open] made, that is, the
    pools it created, and whether it returned an error. *)
Definition is_sql_Open (c : Call) : bool :=
  match c with sql_Open _ _ => true | _ => false end.

Definition poolsOpened (step : World * Result World (option exception.error)) : nat :=
  length (filter (fun c => is_sql_Open c = true)
            (drop (length (calls (fst step))) (calls (after (snd step))))).

Definition failed (step : World * Result World (option exception.error)) : bool :=
  match snd step with Ok (Some _) _ => true | _ => false end.

(** What one call of [Open] can do. *)
Lemma Open_step w :
  (is_Some (connection (this w)) /\ Open outside w = Ok None w) \/
  (connection (this w) = None /\
   ((poolsOpened (w, Open outside w) = 0 /\
     connection (this (after (Open outside w))) = None) \/
    (poolsOpened (w, Open outside w) = 1 /\
     failed (w, Open outside w) = true /\
     connection (this (after (Open outside w))) = None) \/
    (poolsOpened (w, Open outside w) = 1 /\
     is_Some (connection (this (after (Open outside w))))))).
Proof.
  destruct (connection (this w)) as [h|] eqn:Hc.
  { left. split; [eauto|]. apply Open_opened. rewrite Hc. eauto. }
  right. split; [done|].
  unfold poolsOpened, failed. cbn [fst snd].
  unfold Open, openNewSQLConnection, bind, receiver, call, update, ret.
  rewrite Hc. destruct (connectionLock (this w)).
  2:{ left. cbn. by rewrite drop_all. }
  cbn [this calls]. rewrite Hc.
  destruct (config (this w)) as [cfg|].
  2:{ left. cbn. by rewrite drop_all. }
  cbn [this calls].
  destruct (answer_Open outside (calls w) "postgres" (CreateDSN cfg)) as [h|e].
  2:{ right. left. cbn. by rewrite drop_app_length. }
  cbn [this calls after]. rewrite <- ?app_assoc. cbn [app].
  destruct (0 <? String.length (GetSchema cfg))%nat;
    cbn [this calls after]; rewrite <- ?app_assoc; cbn [app].
  - destruct (answer_Exec _ _ _ _);
      cbn [this calls after]; rewrite <- ?app_assoc; cbn [app].
    { right. left. cbn. by rewrite drop_app_length. }
    destruct (answer_Exec _ _ _ _);
      cbn [this calls after]; rewrite <- ?app_assoc; cbn [app].
    { right. left. cbn. by rewrite drop_app_length. }
    right. right. cbn. rewrite drop_app_length. cbn. eauto.
  - destruct (answer_Exec _ _ _ _);
      cbn [this calls after]; rewrite <- ?app_assoc; cbn [app].
    { right. left. cbn. by rewrite drop_app_length. }
    right. right. cbn. rewrite drop_app_length. cbn. eauto.
Qed.

Lemma OpenTimes_pools n w :
  sum_list (map poolsOpened (OpenTimes n w)) <=
    length (filter (fun step => failed step = true) (OpenTimes n w)) +
    (if connection (this w) is Some _ then 0 else 1).
Proof.
  revert w. induction n as [|n IH]; intros w; [cbn; lia|].
  rewrite OpenTimes_S. cbn [map sum_list]. rewrite filter_cons.
  specialize (IH (after (Open outside w))).
  destruct (Open_step w) as [[[h Hh] Ho]|[Hc [[Hp Ha]|[(Hp & Hf & Ha)|[Hp [h Ha]]]]]].
  - rewrite Ho in *. cbn [after] in IH. rewrite Hh in *.
    unfold poolsOpened at 1. cbn [fst snd after]. rewrite drop_all. cbn.
    rewrite decide_False by done. exact IH.
  - rewrite Hc, Hp. rewrite Ha in IH. unfold sum_list, id in *.
    destruct (decide _); cbn [length]; lia.
  - rewrite Hc, Hp. rewrite Ha in IH. unfold sum_list, id in *.
    rewrite decide_True by done. cbn [length]. lia.
  - rewrite Hc, Hp. rewrite Ha in IH. unfold sum_list, id in *.
    destruct (decide _); cbn [length]; lia.
Qed.

(** C7, as the code has it.  [Open] is idempotent once it has
    succeeded.  When a call of [Open] has returned without an error,
    the receiver holds a pool handle, and every later call returns the
    receiver without an error, makes no call out of the package, so
    creates no pool, and leaves the receiver, handle included, as it
    is.  In any run of calls of [Open] on one [Connection], at most one
    of them sets the handle, that is, finds the receiver without a
    handle and leaves it with one.  Pools can be created more often
    than that, as every call that fails after [sql.Open] leaves the
    receiver without a handle: in any run of calls of [Open], the
    number of calls of [sql.Open] is at most the number of calls of
    [Open] that returned an error, plus one. *)
Theorem Open_idempotent :
  (forall w w', Open outside w = Ok None w' ->
     is_Some (connection (this w')) /\
     forall n, Forall (fun step => step = (w', Ok None w')) (OpenTimes n w')) /\
  (forall n w,
     length (filter (fun step => setsHandle step = true) (OpenTimes n w)) <= 1) /\
  (forall n w,
     sum_list (map poolsOpened (OpenTimes n w)) <=
       length (filter (fun step => failed step = true) (OpenTimes n w)) + 1).
Proof.
  split; [|split].
  - intros w w' Ho. apply Open_success in Ho. split; [exact Ho|].
    intros n. by apply OpenTimes_opened.
  - apply setsHandle_once.
  - intros n w. pose proof (OpenTimes_pools n w) as H.
    destruct (connection (this w)); lia.
Qed.

(** C8.  [Close] closes the statement cache first.  If that fails,
    [Close] returns the error at once and the pool is not closed: the
    cache's close is the only call made.  If it succeeds, the pool is
    closed next, and its result is the result of [Close]. *)
Theorem Close_cache_then_pool w sc :
  statementCache (this w) = Some sc ->
  let closed := mkWorld (this w) (calls w ++ [StatementCache_Close sc]) in
  match answer_StatementCache_Close outside (calls w) sc with
  | Some err => Close outside w = Ok (Some err) closed
  | None =>
      match connection (this w) with
      | Some db =>
          Close outside w =
            Ok (answer_DB_Close outside (calls closed) db)
               (mkWorld (this w)
                  (calls w ++ [StatementCache_Close sc; DB_Close db]))
      | None => Close outside w = Panic nilDereference closed
      end
  end.
Proof.
  intros Hsc closed. subst closed.
  unfold Close, bind, receiver, call, ret. rewrite Hsc. cbn.
  destruct (answer_StatementCache_Close _ _ _); [reflexivity|].
  destruct (connection (this w)) eqn:Hc; cbn; rewrite Hc; [|reflexivity].
  cbn. by rewrite <- app_assoc.
Qed.

Ltac enter_Open :=
  unfold Open, openNewSQLConnection, bind, receiver, call, update, ret.

Ltac tidy_calls :=
  repeat (progress (cbn [this calls after]; rewrite <- ?app_assoc; cbn [app])).

Lemma nonempty_length (s : string) :
  s <> ""%string -> (0 <? String.length s)%nat = true.
Proof. by destruct s. Qed.

(** What is left of the receiver when [Open] fails after [sql.Open]
    gave the handle [db]. *)
Definition abandoned (dbc : Connection) (db : DB) : Connection :=
  set_statementCache dbc (Some (newStatementCache db)).

(** The calls that configure the pool [db]. *)
Definition configured (cfg : Config) (db : DB) : list Call :=
  [sql_Open "postgres" (CreateDSN cfg);
   SetConnMaxLifetime db (GetMaxLifetime cfg);
   SetMaxIdleConns db (GetIdleConnections cfg);
   SetMaxOpenConns db (GetMaxConnections cfg)].

Definition searchPath (cfg : Config) : string :=
  ("SET search_path TO " ++ GetSchema cfg ++ ",public;")%string.

Definition probe : string := "select 'ok!'".

(** C9.  Let [Open] run on a [Connection] without a handle, and let
    [sql.Open] give the handle [db].  If setting the schema fails, or the
    probe fails, then [Open] returns that error wrapped, the handle field
    is still nil, and the [statementCache] field holds a new statement
    cache made for [db]; nothing else of the receiver changed.  A later
    call of [Open] starts again with [sql.Open]. *)
Theorem Open_failure_not_atomic w cfg db err :
  connection (this w) = None ->
  connectionLock (this w) = true ->
  config (this w) = Some cfg ->
  answer_Open outside (calls w) "postgres" (CreateDSN cfg) = inl db ->
  let setup := (calls w ++ configured cfg db)%list in
  (GetSchema cfg <> "" /\
   answer_Exec outside setup db (searchPath cfg) = Some err ->
   Open outside w =
     Ok (Some (exception.New err))
        (mkWorld (abandoned (this w) db)
           (setup ++ [Exec db (searchPath cfg)]))) /\
  (GetSchema cfg = "" /\
   answer_Exec outside setup db probe = Some err ->
   Open outside w =
     Ok (Some (exception.New err))
        (mkWorld (abandoned (this w) db) (setup ++ [Exec db probe]))) /\
  (GetSchema cfg <> "" /\
   answer_Exec outside setup db (searchPath cfg) = None /\
   answer_Exec outside (setup ++ [Exec db (searchPath cfg)]) db probe = Some err ->
   Open outside w =
     Ok (Some (exception.New err))
        (mkWorld (abandoned (this w) db)
           (setup ++ [Exec db (searchPath cfg); Exec db probe]))) /\
  connection (abandoned (this w) db) = None /\
  statementCache (abandoned (this w) db) = Some (newStatementCache db) /\
  (forall cs, exists rest,
     calls (after (Open outside (mkWorld (abandoned (this w) db) cs))) =
       cs ++ sql_Open "postgres" (CreateDSN cfg) :: rest).
Proof.
  intros Hc Hl Hcfg Hopen setup. subst setup.
  unfold configured, searchPath, probe, abandoned.
  repeat split.
  - intros [Hs He]. enter_Open.
    rewrite Hc, Hl. cbn [this calls]. rewrite Hc, Hcfg, Hopen.
    cbn [this calls]. rewrite (nonempty_length _ Hs).
    tidy_calls. rewrite He. tidy_calls. reflexivity.
  - intros [Hs He]. enter_Open.
    rewrite Hc, Hl. cbn [this calls]. rewrite Hc, Hcfg, Hopen.
    cbn [this calls]. rewrite Hs. cbn [String.length Nat.ltb Nat.leb].
    tidy_calls. rewrite He. tidy_calls. reflexivity.
  - intros (Hs & He1 & He2). rewrite <- app_assoc in He2. cbn [app] in He2.
    enter_Open.
    rewrite Hc, Hl. cbn [this calls]. rewrite Hc, Hcfg, Hopen.
    cbn [this calls]. rewrite (nonempty_length _ Hs).
    tidy_calls. rewrite He1. tidy_calls. rewrite He2. tidy_calls.
    reflexivity.
  - exact Hc.
  - intros cs. enter_Open.
    cbn [this calls connection connectionLock config set_statementCache].
    rewrite Hc, Hl.
    cbn [this calls connection connectionLock config set_statementCache].
    rewrite Hc.
    cbn [this calls connection connectionLock config set_statementCache].
    rewrite Hcfg. tidy_calls.
    destruct (answer_Open outside cs "postgres" (CreateDSN cfg)) as [h|e];
      [|cbn; eauto].
    tidy_calls.
    destruct (0 <? String.length (GetSchema cfg))%nat; tidy_calls.
    + destruct (answer_Exec _ _ _ _); tidy_calls; [eauto|].
      destruct (answer_Exec _ _ _ _); tidy_calls; eauto.
    + destruct (answer_Exec _ _ _ _); tidy_calls; eauto.
Qed.

(** C10.  On a [Connection] whose statement cache and pool handle are
    both nil, [Close] returns no error value: it skips the statement
    cache, reaches the call of [Close] on the nil handle and panics
    there; no call leaves the package. *)
Theorem Close_unopened_panics w :
  statementCache (this w) = None ->
  connection (this w) = None ->
  Close outside w = Panic nilDereference w.
Proof.
  intros Hsc Hc. unfold Close, bind, receiver, ret. rewrite Hsc. cbn.
  by rewrite Hc.
Qed.

(** ** More on the connection life cycle *)

(** [Open] on a [Connection] whose configuration is nil returns the error
    "connection configuration is unset"; no call leaves the package and
    the receiver is as it was. *)
Theorem Open_unconfigured w :
  connection (this w) = None ->
  connectionLock (this w) = true ->
  config (this w) = None ->
  Open outside w =
    Ok (Some (exception.NewString "connection configuration is unset")) w.
Proof.
  intros Hc Hl Hcfg. enter_Open.
  rewrite Hc, Hl. cbn [this calls]. rewrite Hc, Hcfg. by destruct w.
Qed.

(** When [sql.Open] fails, [Open] returns its error wrapped; [sql.Open]
    is the only call made, and the receiver is as it was: no handle, and
    the statement cache it had before. *)
Theorem Open_driver_failure w cfg e :
  connection (this w) = None ->
  connectionLock (this w) = true ->
  config (this w) = Some cfg ->
  answer_Open outside (calls w) "postgres" (CreateDSN cfg) = inr e ->
  Open outside w =
    Ok (Some (exception.New e))
       (mkWorld (this w) (calls w ++ [sql_Open "postgres" (CreateDSN cfg)])).
Proof.
  intros Hc Hl Hcfg Hopen. enter_Open.
  rewrite Hc, Hl. cbn [this calls]. rewrite Hc, Hcfg, Hopen. reflexivity.
Qed.

(** The statement that sets the search path, when the configuration
    names a schema. *)
Definition schemaCalls (cfg : Config) (db : DB) : list Call :=
  if (0 <? String.length (GetSchema cfg))%nat then [Exec db (searchPath cfg)]
  else [].

(** When [sql.Open] gives a handle and the statements succeed, [Open]
    returns nil after exactly these calls, in this order: [sql.Open], the
    three pool settings, the search path if the configuration names a
    schema, and the probe.  The receiver then holds the handle and a
    statement cache made for it, and is otherwise as before. *)
Theorem Open_success_calls w cfg db :
  connection (this w) = None ->
  connectionLock (this w) = true ->
  config (this w) = Some cfg ->
  answer_Open outside (calls w) "postgres" (CreateDSN cfg) = inl db ->
  let setup := (calls w ++ configured cfg db)%list in
  (GetSchema cfg <> "" ->
   answer_Exec outside setup db (searchPath cfg) = None) ->
  answer_Exec outside (setup ++ schemaCalls cfg db) db probe = None ->
  Open outside w =
    Ok None
       (mkWorld (set_connection (abandoned (this w) db) (Some db))
          (setup ++ schemaCalls cfg db ++ [Exec db probe])).
Proof.
  intros Hc Hl Hcfg Hopen setup Hschema Hprobe. subst setup.
  unfold schemaCalls, configured, searchPath, probe, abandoned in *.
  enter_Open.
  rewrite Hc, Hl. cbn [this calls]. rewrite Hc, Hcfg, Hopen.
  cbn [this calls].
  destruct (0 <? String.length (GetSchema cfg))%nat eqn:Hlen.
  - assert (Hne : GetSchema cfg <> ""%string).
    { intros Heq. by rewrite Heq in Hlen. }
    specialize (Hschema Hne).
    rewrite <- app_assoc in Hprobe. cbn [app] in Hprobe.
    tidy_calls. rewrite Hschema. tidy_calls. rewrite Hprobe. tidy_calls.
    reflexivity.
  - rewrite app_nil_r in Hprobe.
    tidy_calls. rewrite Hprobe. tidy_calls. reflexivity.
Qed.

(** [Close] never changes the receiver: the handle and the statement
    cache stay in their fields.  So on a [Connection] that holds a
    handle, [Open] after [Close] makes no call and returns the receiver
    with the handle that was closed. *)
Theorem Close_keeps_handle w :
  this (after (Close outside w)) = this w /\
  (is_Some (connection (this w)) ->
   Open outside (after (Close outside w)) = Ok None (after (Close outside w))).
Proof.
  assert (Hthis : this (after (Close outside w)) = this w).
  { unfold Close, bind, receiver, call, ret.
    destruct (statementCache (this w)) as [sc|]; cbn.
    - destruct (answer_StatementCache_Close _ _ _); cbn; [done|].
      by destruct (connection (this w)).
    - by destruct (connection (this w)). }
  split; [exact Hthis|]. intros Hsome. apply Open_opened. by rewrite Hthis.
Qed.

(** After an [Open] that returned nil, [Close] does not panic.  It
    closes the statement cache, if there is one, and then the pool whose
    handle [Open] left in the receiver, unless closing the cache failed.
    If that [Open] started without a handle, the cache is the one made
    for this handle. *)
Theorem Open_then_Close w w' :
  Open outside w = Ok None w' ->
  exists db r w'',
    connection (this w') = Some db /\
    Close outside w' = Ok r w'' /\
    (connection (this w) = None ->
     statementCache (this w') = Some (newStatementCache db)) /\
    (last (calls w'') = Some (DB_Close db) \/
     exists sc err,
       statementCache (this w') = Some sc /\ r = Some err /\
       calls w'' = (calls w' ++ [StatementCache_Close sc])%list).
Proof.
  intros Ho. destruct (Open_success _ _ Ho) as [db Hdb].
  exists db.
  assert (Hcache : connection (this w) = None ->
                   statementCache (this w') = Some (newStatementCache db)).
  { intros Hc. revert Ho Hdb. enter_Open. rewrite Hc.
    destruct (connectionLock (this w)); [|discriminate].
    cbn [this calls]. rewrite Hc.
    destruct (config (this w)) as [cfg|]; [|discriminate].
    cbn [this calls].
    destruct (answer_Open outside (calls w) "postgres" (CreateDSN cfg)) as [h|e];
      [|discriminate].
    tidy_calls.
    destruct (0 <? String.length (GetSchema cfg))%nat; tidy_calls.
    - destruct (answer_Exec _ _ _ _); tidy_calls; [discriminate|].
      destruct (answer_Exec _ _ _ _); tidy_calls; [discriminate|].
      intros [= <-]. cbn. by intros [= ->].
    - destruct (answer_Exec _ _ _ _); tidy_calls; [discriminate|].
      intros [= <-]. cbn. by intros [= ->]. }
  unfold Close, bind, receiver, call, ret.
  destruct (statementCache (this w')) as [sc|] eqn:Hsc; cbn.
  - destruct (answer_StatementCache_Close outside (calls w') sc) as [err|] eqn:He.
    + eexists _, _. split; [done|]. split; [reflexivity|]. split; [done|].
      right. by exists sc, err.
    + cbn. rewrite Hdb. cbn.
      eexists _, _. split; [done|]. split; [reflexivity|]. split; [done|].
      left. cbn. by rewrite last_snoc.
  - rewrite Hdb. cbn.
    eexists _, _. split; [done|]. split; [reflexivity|]. split; [done|].
    left. cbn. by rewrite last_snoc.
Qed.

(** A [Connection] as [New] returns it has its locks and a
    configuration, and neither a handle nor a statement cache.  So
    [Close] on it panics; [Open] on it does not panic and starts with
    [sql.Open] on the data source name of its configuration; and once
    [WithConfig] has set the configuration to nil, [Open] returns the
    error "connection configuration is unset". *)
Theorem New_unopened (zeroConfig : Config) (useCache : bool) (cs : list Call) :
  let w := mkWorld (New zeroConfig useCache) cs in
  Close outside w = Panic nilDereference w /\
  (exists r w' rest,
     Open outside w = Ok r w' /\
     calls w' = (cs ++ sql_Open "postgres" (CreateDSN zeroConfig) :: rest)%list) /\
  (WithConfig None ;;; Open outside) w =
    Ok (Some (exception.NewString "connection configuration is unset"))
       (mkWorld (set_config (New zeroConfig useCache) None) cs).
Proof.
  intros w. subst w. split; [reflexivity|]. split; [|reflexivity].
  enter_Open. cbn [this calls connection connectionLock config New].
  tidy_calls.
  destruct (answer_Open outside cs "postgres" (CreateDSN zeroConfig)) as [h|e];
    [|cbn; eauto].
  tidy_calls.
  destruct (0 <? String.length (GetSchema zeroConfig))%nat; tidy_calls.
  - destruct (answer_Exec _ _ _ _); tidy_calls; [eauto|].
    destruct (answer_Exec _ _ _ _); tidy_calls; eauto.
  - destruct (answer_Exec _ _ _ _); tidy_calls; eauto.
Qed.

End ConnectionFacts.
(** * Part III: the properties at work on the test struct *)

Section Examples.

Import strings go db db_test reflect.

(** ** The metadata cache *)

(** A process that resolves [myStruct] twice, with other code and another
    type between the two calls. *)
Definition process : list Step :=
  [Resolve "db.myStruct" myStruct;
   Elsewhere store;
   Resolve "db.subStruct" subStruct;
   Resolve "db.myStruct" (PtrTo myStruct)].

Lemma metaCache_builds_once_witness :
  metaCache emptyStore = None /\
  let calls :=
    callsFor "db.myStruct"
      (run lowerNonASCII TableNameByType growslice process emptyStore) in
  builds calls = 1 /\
  forall j r', 0 < j -> calls !! j = Some r' ->
               returned r' = Some 0 /\ constructed r' = 0.
Proof.
  split; [reflexivity|].
  pose proof (metaCache_builds_once lowerNonASCII TableNameByType growslice
                process emptyStore "db.myStruct" eq_refl) as (_ & _ & Hlater).
  destruct (Hlater 0 (mkResolution "db.myStruct" 1 (Some 0)) 0) as (_ & Hb & Hj);
    [vm_compute; reflexivity|reflexivity|].
  split; [exact Hb|exact Hj].
Defined.

(** ** Descriptors *)

Lemma NewColumnFromFieldTag_descriptor_witness :
  hasByte ","%char "auto_column" = false /\
  Forall (fun f => hasByte ","%char f = false) ["auto"%string] /\
  tagged AutoCol (descriptor "auto_column" ["auto"%string]) /\
  descriptor "auto_column" ["auto"%string] <> "-"%string /\
  exists col,
    NewColumnFromFieldTag lowerNonASCII AutoCol = Some col /\
    FieldName col = "AutoCol"%string /\
    ColumnName col = "auto_column"%string /\
    IsPrimaryKey col = false /\ IsAuto col = true /\ IsReadOnly col = false /\
    IsNullable col = false /\ IsJSON col = false.
Proof.
  assert (H1 : hasByte ","%char "auto_column" = false) by reflexivity.
  assert (H2 : Forall (fun f => hasByte ","%char f = false) ["auto"%string])
    by (repeat constructor).
  assert (H3 : tagged AutoCol (descriptor "auto_column" ["auto"%string]))
    by reflexivity.
  assert (H4 : descriptor "auto_column" ["auto"%string] <> "-"%string)
    by discriminate.
  do 4 (split; [assumption|]).
  destruct (proj1 (NewColumnFromFieldTag_descriptor lowerNonASCII)
              AutoCol "auto_column"%string ["auto"%string] H1 H2 H3 H4)
    as (col & Hcol & Hf & Hn & Hpk & Hauto & Hro & Hnull & Hjson & _).
  exists col. repeat split; assumption.
Defined.

(** ** Resolving the test struct *)

Lemma generateColumnCollectionForType_columns_witness :
  elemType myStruct = myStruct /\
  exists p σ',
    generateColumnCollectionForType lowerNonASCII TableNameByType growslice
      myStruct emptyStore = Ok p σ' /\
    Len p σ' = Ok 8 σ' /\
    map FieldName (columnsOf σ' p) =
      ["PrimaryKeyCol"; "AutoCol"; "InferredName"; "NullableCol";
       "InferredWithFlags"; "BigIntColumn"; "PointerColumn";
       "JSONColumn"]%string.
Proof.
  split; [reflexivity|].
  destruct (generateColumnCollectionForType_columns lowerNonASCII
              TableNameByType growslice myStruct _ _ emptyStore eq_refl)
    as (p & σ' & Hrun & _ & Hlen & _ & Hnames & _).
  exists p, σ'. split; [exact Hrun|]. split; [exact Hlen|exact Hnames].
Defined.

(** ** Write and update columns *)

Lemma store_resolved :
  generateColumnCollectionForType lowerNonASCII TableNameByType growslice
    myStruct emptyStore = Ok meta store.
Proof. vm_compute. reflexivity. Qed.

Lemma store_meta : collections store !! meta = Some metaCollection.
Proof. vm_compute. reflexivity. Qed.

Lemma store_wfSlice : wfSlice store (columns metaCollection).
Proof.
  eexists. split; [vm_compute; reflexivity|]. split; [reflexivity|].
  cbn. lia.
Qed.

Lemma WriteColumns_UpdateColumns_witness :
  collections store !! meta = Some metaCollection /\
  wfSlice store (columns metaCollection) /\
  unmemoised metaCollection /\
  exists w u k σ',
    (w <- WriteColumns growslice meta ;;
     u <- UpdateColumns growslice meta ;;
     k <- PrimaryKeys growslice meta ;;
     ret (w, u, k)) store = Ok (w, u, k) σ' /\
    map ColumnName (columnsOf σ' w) =
      ["auto_column"; "inferredname"; "nullable"; "big_int"; "pointer_col";
       "json_col"]%string /\
    map ColumnName (columnsOf σ' k) = ["primary_key_column"]%string /\
    columnsOf σ' u = columnsOf σ' w ++ columnsOf σ' k.
Proof.
  assert (Hun : unmemoised metaCollection) by (by repeat split).
  split; [exact store_meta|]. split; [exact store_wfSlice|].
  split; [exact Hun|].
  destruct (WriteColumns_UpdateColumns growslice store meta
              (or_intror
                 (ex_intro _ metaCollection
                    (conj store_meta (conj store_wfSlice Hun)))))
    as (_ & _ & (w & u & k & σ' & Hrun & Hw & Hk & Hu) & _).
  exists w, u, k, σ'. split; [exact Hrun|].
  split; [rewrite Hw; vm_compute; reflexivity|].
  split; [rewrite Hk; vm_compute; reflexivity|exact Hu].
Defined.

(** C5 as the specification has it fails on a collection that got a
    column after its write columns were asked for: the collection now
    has the writable column [extra], and [WriteColumns] still returns
    the collection it memoised before. *)
Lemma WriteColumns_stale_after_Add :
  exists w σ,
    (WriteColumns growslice meta ;;;
     Add growslice meta extra ;;;
     WriteColumns growslice meta) store = Ok w σ /\
    map ColumnName (columnsOf σ meta) =
      ["primary_key_column"; "auto_column"; "inferredname"; "nullable";
       "inferredwithflags"; "big_int"; "pointer_col"; "json_col";
       "extra"]%string /\
    IsReadOnly extra = false /\ IsPrimaryKey extra = false /\
    map ColumnName (select writable (columnsOf σ meta)) =
      ["auto_column"; "inferredname"; "nullable"; "big_int"; "pointer_col";
       "json_col"; "extra"]%string /\
    map ColumnName (columnsOf σ w) =
      ["auto_column"; "inferredname"; "nullable"; "big_int"; "pointer_col";
       "json_col"]%string.
Proof.
  eexists _, _. split; [vm_compute; reflexivity|].
  repeat split; vm_compute; reflexivity.
Qed.

(** ** Copies *)

Lemma Copy_independent_witness :
  wfCollection store meta /\
  collections store !! meta = Some metaCollection /\
  exists q σ1,
    Copy metaCollection store = Ok q σ1 /\ q <> meta /\
    exists σ2,
      forEach (mutate growslice q)
        [SetPrefix "foo_"; RemoveColumn "primary_key_column"; AddColumn extra]
        σ1 = Ok tt σ2 /\
      sameCollection meta store σ2.
Proof.
  assert (Hwf : wfCollection store meta).
  { apply (generateColumnCollectionForType_wfCollection lowerNonASCII
             TableNameByType growslice myStruct _ _ emptyStore meta store
             eq_refl).
    exact store_resolved. }
  split; [exact Hwf|]. split; [exact store_meta|].
  destruct (Copy_independent growslice store meta metaCollection Hwf store_meta
              Copy "" (or_introl (conj eq_refl eq_refl)))
    as (q & σ1 & Hrun & Hne & _ & _ & _ & Hms).
  exists q, σ1. split; [exact Hrun|]. split; [exact Hne|].
  exact (Hms [SetPrefix "foo_"; RemoveColumn "primary_key_column";
              AddColumn extra]).
Defined.

(** C6 as the specification has it fails once the source has grown
    within the capacity of its array: the copy shares that array, so
    [Add] on the copy writes where the source keeps its new column.
    Here the source gets the column [extra], which leaves spare
    capacity, is copied, and gets the column [late]; then [other] is
    added to the copy, and the last column of the source is [other]. *)
Lemma Copy_Add_overwrites_source :
  exists q σ1 σ2,
    (Add growslice meta extra ;;;
     this <- loadCC meta ;;
     q <- Copy this ;;
     Add growslice meta late ;;;
     ret q) store = Ok q σ1 /\
    q <> meta /\
    map ColumnName (columnsOf σ1 meta) =
      ["primary_key_column"; "auto_column"; "inferredname"; "nullable";
       "inferredwithflags"; "big_int"; "pointer_col"; "json_col";
       "extra"; "late"]%string /\
    mutate growslice q (AddColumn other) σ1 = Ok tt σ2 /\
    map ColumnName (columnsOf σ2 meta) =
      ["primary_key_column"; "auto_column"; "inferredname"; "nullable";
       "inferredwithflags"; "big_int"; "pointer_col"; "json_col";
       "extra"; "other"]%string.
Proof.
  eexists _, _, _. split; [vm_compute; reflexivity|].
  split; [vm_compute; discriminate|]. split; [vm_compute; reflexivity|].
  split; vm_compute; reflexivity.
Qed.

(** ** Setting a field *)

Abbreviation runSetValue :=
  (SetValue assignableRule convertRule reflectValue FieldByName jsonUnmarshal).

Lemma SetValue_contract_witness :
  FieldByName (reflectValue obj) (FieldName AutoColumn) =
    Some (Val string_type (Plain 0%Z) (Some 101) false) /\
  CanSet (Val string_type (Plain 0%Z) (Some 101) false) = true /\
  IsJSON AutoColumn = false /\
  reflectValue (Val string_type (Plain 42%Z) None false) =
    Val string_type (Plain 42%Z) None false /\
  AssignableTo assignableRule string_type string_type = true /\
  runSetValue AutoColumn obj (Val string_type (Plain 42%Z) None false) ∅ =
    Ok None (<[101:=Plain 42%Z]> ∅) /\
  FieldByName (reflectValue obj) (FieldName JSONColumn) =
    Some (Val subStruct (Plain 0%Z) (Some 108) false) /\
  IsJSON JSONColumn = true /\
  runSetValue JSONColumn obj
    (Val NullStringType (NullString "{}" true) None false) ∅ =
    Ok None (<[108:=Plain 1%Z]> ∅) /\
  runSetValue JSONColumn obj
    (Val NullStringType (NullString "{" true) None false) ∅ =
    Ok (Some (exception.New
                (exception.Message "unexpected end of JSON input")))
       (<[108:=Plain 0%Z]> ∅) /\
  runSetValue JSONColumn obj
    (Val NullStringType (NullString "" true) None false) ∅ = Ok None ∅.
Proof.
  do 5 (split; [reflexivity|]).
  pose proof (SetValue_contract assignableRule convertRule reflectValue
                FieldByName jsonUnmarshal AutoColumn obj
                (Val string_type (Plain 42%Z) None false) ∅
                string_type (Plain 0%Z) (Some 101) false eq_refl)
    as (_ & _ & Hset & _).
  destruct (Hset 101 string_type (Plain 42%Z) None eq_refl eq_refl eq_refl eq_refl)
    as [Hassign _].
  destruct (Hassign eq_refl) as [Hplain _].
  split; [apply Hplain; right; reflexivity|].
  do 2 (split; [reflexivity|]).
  split; [|split].
  - exact (proj1 (proj2 (proj2 (proj2
             (SetValue_contract assignableRule convertRule reflectValue
                FieldByName jsonUnmarshal JSONColumn obj
                (Val NullStringType (NullString "{}" true) None false) ∅
                subStruct (Plain 0%Z) (Some 108) false eq_refl))))
             108 NullStringType (NullString "{}" true) None
             eq_refl eq_refl eq_refl eq_refl).
  - exact (proj1 (proj2 (proj2 (proj2
             (SetValue_contract assignableRule convertRule reflectValue
                FieldByName jsonUnmarshal JSONColumn obj
                (Val NullStringType (NullString "{" true) None false) ∅
                subStruct (Plain 0%Z) (Some 108) false eq_refl))))
             108 NullStringType (NullString "{" true) None
             eq_refl eq_refl eq_refl eq_refl).
  - exact (proj1 (proj2 (proj2 (proj2
             (SetValue_contract assignableRule convertRule reflectValue
                FieldByName jsonUnmarshal JSONColumn obj
                (Val NullStringType (NullString "" true) None false) ∅
                subStruct (Plain 0%Z) (Some 108) false eq_refl))))
             108 NullStringType (NullString "" true) None
             eq_refl eq_refl eq_refl eq_refl).
Defined.

(** C3 as the specification has it fails on a JSON column: the field
    can be set and the source is a valid value of the field's own type,
    so its type is assignable to the field's; [SetValue] returns nil and
    the field is not assigned. *)
Lemma SetValue_json_column_not_assigned :
  FieldByName (reflectValue obj) (FieldName JSONColumn) =
    Some (Val subStruct (Plain 0%Z) (Some 108) false) /\
  CanSet (Val subStruct (Plain 0%Z) (Some 108) false) = true /\
  IsValid (reflectValue (Val subStruct (Plain 42%Z) None false)) = true /\
  AssignableTo assignableRule subStruct subStruct = true /\
  IsJSON JSONColumn = true /\
  runSetValue JSONColumn obj (Val subStruct (Plain 42%Z) None false) ∅ =
    Ok None ∅.
Proof. repeat split. Qed.

(** The conversion of an addressable source for a pointer field is not
    assigned either: the source is an [int64] that can be addressed, the
    field is an [*int]; the source is converted to [int], and as the
    result of a conversion cannot be addressed, [SetValue] returns nil
    with the field as it was. *)
Lemma SetValue_pointer_conversion_dropped :
  FieldByName (reflectValue obj) (FieldName PointerColumn) =
    Some (Val (PtrTo int_type) (Plain 0%Z) (Some 107) false) /\
  Convert convertRule (Val (Other Int64 "int64") (Plain 42%Z) (Some 5) false)
    int_type = Some (Val int_type (Plain 42%Z) None false) /\
  runSetValue PointerColumn obj
    (Val (Other Int64 "int64") (Plain 42%Z) (Some 5) false) ∅ = Ok None ∅.
Proof. repeat split. Qed.

(** ** Connections *)

Lemma Open_idempotent_witness :
  Open healthy unopened = Ok None opened /\
  connection (this opened) = Some 7 /\
  OpenTimes healthy 2 opened = [(opened, Ok None opened); (opened, Ok None opened)].
Proof.
  split; [reflexivity|]. split; [reflexivity|].
  destruct (proj1 (Open_idempotent healthy) unopened opened eq_refl) as [_ Hall].
  specialize (Hall 2). cbn [OpenTimes] in Hall.
  apply Forall_cons_1 in Hall as [H1 Hall].
  apply Forall_cons_1 in Hall as [H2 _].
  cbn [OpenTimes]. rewrite H1. cbn [after]. rewrite H2. reflexivity.
Defined.

(** C7 as the specification has it fails when an [Open] fails after
    [sql.Open]: the pool it created is abandoned, and the next [Open]
    creates another.  Here the first [Open] fails on the search path,
    the second succeeds, and [sql.Open] was called twice for the one
    [Connection]. *)
Lemma Open_creates_pool_twice :
  exists err w1 w2,
    Open flaky unopened = Ok (Some err) w1 /\
    Open flaky w1 = Ok None w2 /\
    filter (fun c => is_sql_Open c = true) (calls w2) =
      [sql_Open "postgres" "postgres://localhost/app";
       sql_Open "postgres" "postgres://localhost/app"] /\
    sum_list (map poolsOpened (OpenTimes flaky 2 unopened)) = 2.
Proof.
  eexists _, _, _. split; [vm_compute; reflexivity|].
  split; [vm_compute; reflexivity|].
  split; vm_compute; reflexivity.
Qed.

Lemma Close_cache_then_pool_witness :
  statementCache (this opened) = Some (newStatementCache 7) /\
  Close cacheFails opened =
    Ok (Some (exception.Message "statement cache"))
       (mkWorld (this opened)
          (calls opened ++ [StatementCache_Close (newStatementCache 7)])) /\
  Close healthy opened =
    Ok None
       (mkWorld (this opened)
          (calls opened ++
           [StatementCache_Close (newStatementCache 7); DB_Close 7])).
Proof.
  split; [reflexivity|]. split.
  - exact (Close_cache_then_pool cacheFails opened (newStatementCache 7) eq_refl).
  - exact (Close_cache_then_pool healthy opened (newStatementCache 7) eq_refl).
Defined.

Lemma Open_failure_not_atomic_witness :
  connection (this unopened) = None /\
  connectionLock (this unopened) = true /\
  config (this unopened) = Some cfg /\
  answer_Open schemaFails (calls unopened) "postgres" (CreateDSN cfg) = inl 7 /\
  GetSchema cfg <> ""%string /\
  answer_Exec schemaFails (calls unopened ++ configured cfg 7) 7 (searchPath cfg) =
    Some (exception.Message "no schema") /\
  Open schemaFails unopened =
    Ok (Some (exception.New (exception.Message "no schema")))
       (mkWorld (abandoned (this unopened) 7)
          ((calls unopened ++ configured cfg 7) ++ [Exec 7 (searchPath cfg)])) /\
  connection (abandoned (this unopened) 7) = None /\
  statementCache (abandoned (this unopened) 7) = Some (newStatementCache 7).
Proof.
  assert (Hschema : GetSchema cfg <> ""%string) by discriminate.
  do 4 (split; [reflexivity|]). split; [exact Hschema|].
  split; [reflexivity|].
  destruct (Open_failure_not_atomic schemaFails unopened cfg 7
              (exception.Message "no schema") eq_refl eq_refl eq_refl eq_refl)
    as (Hsetup & _ & _ & Hc & Hsc & _).
  split; [exact (Hsetup (conj Hschema eq_refl))|]. split; [exact Hc|exact Hsc].
Defined.

Lemma Close_unopened_panics_witness :
  statementCache (this unopened) = None /\
  connection (this unopened) = None /\
  Close healthy unopened = Panic nilDereference unopened.
Proof.
  split; [reflexivity|]. split; [reflexivity|].
  exact (Close_unopened_panics healthy unopened eq_refl eq_refl).
Defined.

End Examples.

(** ** More of the connection life cycle *)

Section MoreExamples.

Import strings go db db_test reflect.

Lemma Open_unconfigured_witness :
  connection (this unconfigured) = None /\
  connectionLock (this unconfigured) = true /\
  config (this unconfigured) = None /\
  Open healthy unconfigured =
    Ok (Some (exception.NewString "connection configuration is unset"))
       unconfigured.
Proof.
  do 3 (split; [reflexivity|]).
  exact (Open_unconfigured healthy unconfigured eq_refl eq_refl eq_refl).
Defined.

Lemma Open_driver_failure_witness :
  connection (this unopened) = None /\
  connectionLock (this unopened) = true /\
  config (this unopened) = Some cfg /\
  answer_Open unreachable (calls unopened) "postgres" (CreateDSN cfg) =
    inr (exception.Message "dial tcp: connection refused") /\
  Open unreachable unopened =
    Ok (Some (exception.New
                (exception.Message "dial tcp: connection refused")))
       (mkWorld (this unopened)
          [sql_Open "postgres" "postgres://localhost/app"]).
Proof.
  do 4 (split; [reflexivity|]).
  exact (Open_driver_failure unreachable unopened cfg _
           eq_refl eq_refl eq_refl eq_refl).
Defined.

Lemma Open_success_calls_witness :
  connection (this unopened) = None /\
  connectionLock (this unopened) = true /\
  config (this unopened) = Some cfg /\
  answer_Open healthy (calls unopened) "postgres" (CreateDSN cfg) = inl 7 /\
  Open healthy unopened = Ok None opened.
Proof.
  do 4 (split; [reflexivity|]).
  exact (Open_success_calls healthy unopened cfg 7 eq_refl eq_refl eq_refl
           eq_refl (fun _ => eq_refl) eq_refl).
Defined.

Lemma Open_then_Close_witness :
  Open healthy unopened = Ok None opened /\
  exists r w'',
    Close healthy opened = Ok r w'' /\
    statementCache (this opened) = Some (newStatementCache 7) /\
    (last (calls w'') = Some (DB_Close 7) \/
     exists sc err,
       statementCache (this opened) = Some sc /\ r = Some err /\
       calls w'' = calls opened ++ [StatementCache_Close sc]).
Proof.
  split; [reflexivity|].
  destruct (Open_then_Close healthy unopened opened eq_refl)
    as (h & r & w'' & Hh & Hclose & Hcache & Hlast).
  injection Hh as <-.
  exists r, w''. split; [exact Hclose|]. split; [exact (Hcache eq_refl)|].
  exact Hlast.
Defined.

(** ** More of the collections *)

Lemma store_usable : usable store meta metaCollection metaEntries.
Proof.
  split; [exact store_meta|]. split; [exact store_wfSlice|].
  exists 0. split; [reflexivity|]. vm_compute. reflexivity.
Qed.

Lemma Add_appends_witness :
  usable store meta metaCollection metaEntries /\
  exists σ',
    Add growslice meta extra store = Ok tt σ' /\
    columnsOf σ' meta = columnsOf store meta ++ [extra] /\
    Len meta σ' = Ok 9 σ' /\
    HasColumn meta "extra" σ' = Ok true σ'.
Proof.
  split; [exact store_usable|].
  destruct (Add_appends growslice store meta metaCollection metaEntries extra
              store_usable)
    as (σ' & Hadd & Hcols & Hlen & Hhas & _).
  exists σ'. split; [exact Hadd|]. split; [exact Hcols|].
  split; [exact Hlen|exact Hhas].
Defined.

Lemma Remove_removes_witness :
  usable store meta metaCollection metaEntries /\
  exists σ',
    Remove growslice meta "primary_key_column" store = Ok tt σ' /\
    map ColumnName (columnsOf σ' meta) =
      ["auto_column"; "inferredname"; "nullable"; "inferredwithflags";
       "big_int"; "pointer_col"; "json_col"]%string /\
    HasColumn meta "primary_key_column" σ' = Ok false σ'.
Proof.
  split; [exact store_usable|].
  destruct (Remove_removes growslice store meta metaCollection metaEntries
              "primary_key_column" store_usable)
    as (σ' & Hrm & Hcols & _ & Hhas & _).
  exists σ'. split; [exact Hrm|]. split; [|exact Hhas].
  rewrite Hcols. vm_compute. reflexivity.
Defined.

Lemma ConcatWith_concatenates_witness :
  wfSlice store (columns metaCollection) /\
  collections store !! meta = Some metaCollection /\
  exists u σ',
    ConcatWith metaCollection meta store = Ok u σ' /\
    columnsOf σ' u = columnsOf store meta ++ columnsOf store meta /\
    Len u σ' = Ok 16 σ'.
Proof.
  split; [exact store_wfSlice|]. split; [exact store_meta|].
  destruct (ConcatWith_concatenates store metaCollection meta metaCollection
              store_wfSlice store_meta store_wfSlice)
    as (u & uc & σ' & Hrun & _ & _ & _ & _ & Hcols & Hlen & _).
  exists u, σ'. split; [exact Hrun|]. split; [|exact Hlen].
  rewrite Hcols. unfold columnsOf. by rewrite store_meta.
Defined.

Lemma ColumnNames_prefixed_witness :
  wfSlice fooStore (columns fooCollection) /\
  ColumnNames fooCollection fooStore =
    Ok ["foo_primary_key_column"; "foo_auto_column"; "foo_inferredname";
        "foo_nullable"; "foo_inferredwithflags"; "foo_big_int";
        "foo_pointer_col"; "foo_json_col"]%string fooStore /\
  exists names,
    ColumnNamesFromAlias fooCollection "t" fooStore = Ok names fooStore /\
    names !! 0 =
      Some "t.primary_key_column as foo_primary_key_column"%string.
Proof.
  assert (Hwf : wfSlice fooStore (columns fooCollection)).
  { eexists. split; [vm_compute; reflexivity|]. split; [reflexivity|].
    cbn. lia. }
  split; [exact Hwf|].
  destruct (ColumnNames_prefixed fooStore fooCollection "t" Hwf)
    as (Hnames & _ & _ & Halias).
  split.
  - rewrite Hnames. vm_compute. reflexivity.
  - eexists. split; [exact Halias|]. vm_compute. reflexivity.
Defined.

Lemma FirstOrDefault_first_witness :
  wfSlice store (columns metaCollection) /\
  exists ptr,
    FirstOrDefault metaCollection store = Ok (Some ptr) store /\
    option_map ColumnName (deref store ptr) = Some "primary_key_column"%string.
Proof.
  split; [exact store_wfSlice|].
  destruct (FirstOrDefault_first store metaCollection store_wfSlice)
    as (r & Hrun & Hnone & Hsome).
  destruct r as [ptr|].
  - exists ptr. split; [exact Hrun|].
    destruct (Hsome ptr eq_refl) as [_ Hd]. rewrite Hd.
    vm_compute. reflexivity.
  - pose proof (proj1 Hnone eq_refl) as Hnil.
    vm_compute in Hnil. discriminate Hnil.
Defined.

Lemma getCachedColumnCollectionFromInstance_by_key_witness :
  user <> user_accounts /\
  newColumnCacheKey Type_String TableNameOf user =
    newColumnCacheKey Type_String TableNameOf user_accounts /\
  exists p σ1,
    getCachedColumnCollectionFromInstance lowerNonASCII TableNameByType
      growslice Type_String TableNameOf (Some user) emptyStore = Ok p σ1 /\
    getCachedColumnCollectionFromInstance lowerNonASCII TableNameByType
      growslice Type_String TableNameOf (Some user_accounts) σ1 = Ok p σ1 /\
    map ColumnName (columnsOf σ1 p) = ["id"]%string.
Proof.
  split; [discriminate|]. split; [reflexivity|].
  eexists _, _. split; [vm_compute; reflexivity|].
  split; [|vm_compute; reflexivity].
  apply (proj1 (getCachedColumnCollectionFromInstance_by_key lowerNonASCII
                  TableNameByType growslice Type_String TableNameOf)
           user user_accounts emptyStore); [reflexivity|].
  vm_compute. reflexivity.
Defined.

Lemma getCachedColumnCollectionFromType_not_a_struct_witness :
  (forall name fields, elemType int_type <> StructOf name fields) /\
  cached emptyStore "int" = None /\
  exists msg σ',
    getCachedColumnCollectionFromType lowerNonASCII TableNameByType growslice
      "int" int_type emptyStore = Panic msg σ' /\
    metaCache σ' = Some ∅ /\ collections σ' = [].
Proof.
  assert (Hns : forall name fields, elemType int_type <> StructOf name fields)
    by (intros name fields; discriminate).
  split; [exact Hns|]. split; [reflexivity|].
  destruct (getCachedColumnCollectionFromType_not_a_struct lowerNonASCII
              TableNameByType growslice "int" int_type emptyStore Hns eq_refl)
    as (msg & σ' & Hrun & Hmc & _ & Hk & _).
  exists msg, σ'. split; [exact Hrun|]. split; [exact Hmc|exact Hk].
Defined.

Lemma fooStore_copy : collections fooStore !! fooCopy = Some fooCollection.
Proof. vm_compute. reflexivity. Qed.

Lemma fooStore_wfSlice : wfSlice fooStore (columns fooCollection).
Proof.
  eexists. split; [vm_compute; reflexivity|]. split; [reflexivity|].
  cbn. lia.
Qed.

Lemma UpdateColumns_drops_prefix_witness :
  collections fooStore !! fooCopy = Some fooCollection /\
  wfSlice fooStore (columns fooCollection) /\
  unmemoised fooCollection /\
  (exists w wc σ',
     WriteColumns growslice fooCopy fooStore = Ok w σ' /\
     collections σ' !! w = Some wc /\
     ColumnNames wc σ' =
       Ok ["foo_auto_column"; "foo_inferredname"; "foo_nullable";
           "foo_big_int"; "foo_pointer_col"; "foo_json_col"]%string σ') /\
  (exists u uc σ',
     UpdateColumns growslice fooCopy fooStore = Ok u σ' /\
     collections σ' !! u = Some uc /\
     ColumnNames uc σ' =
       Ok ["auto_column"; "inferredname"; "nullable"; "big_int";
           "pointer_col"; "json_col"; "primary_key_column"]%string σ').
Proof.
  assert (Hun : unmemoised fooCollection) by (by repeat split).
  split; [exact fooStore_copy|]. split; [exact fooStore_wfSlice|].
  split; [exact Hun|].
  destruct (UpdateColumns_drops_prefix growslice fooStore fooCopy fooCollection
              fooStore_copy fooStore_wfSlice Hun)
    as [(w & wc & σw & Hw & Hwc & _ & Hwn) (u & uc & σu & Hu & Huc & _ & Hun')].
  split.
  - exists w, wc, σw. split; [exact Hw|]. split; [exact Hwc|].
    rewrite Hwn. f_equal.
  - exists u, uc, σu. split; [exact Hu|]. split; [exact Huc|].
    rewrite Hun'. f_equal.
Defined.

Lemma Lookup_prefixed_witness :
  (forall entries : gmap string ColumnPtr,
     map_to_list entries ≡ₚ map_to_list entries) /\
  usable fooStore fooCopy fooCollection fooEntries /\
  exists entries' σ',
    Lookup map_to_list fooCopy fooStore = Ok (Some 2) σ' /\
    entries' !! "foo_big_int"%string = fooEntries !! "big_int"%string /\
    maps σ' !! 2 = Some entries' /\
    HasColumn fooCopy "big_int" σ' = Ok true σ'.
Proof.
  assert (Hvisits : forall entries : gmap string ColumnPtr,
            map_to_list entries ≡ₚ map_to_list entries) by reflexivity.
  assert (Hu : usable fooStore fooCopy fooCollection fooEntries).
  { split; [exact fooStore_copy|]. split; [exact fooStore_wfSlice|].
    exists 1. split; [reflexivity|]. vm_compute. reflexivity. }
  split; [exact Hvisits|]. split; [exact Hu|].
  destruct (proj2 (Lookup_prefixed map_to_list Hvisits fooStore fooCopy
                     fooCollection fooEntries Hu))
    as (entries' & σ' & Hrun & _ & Hσ' & Hkeys & _); [discriminate|].
  exists entries', σ'. split; [exact Hrun|].
  split; [exact (Hkeys "big_int"%string)|].
  split; [rewrite Hσ'; reflexivity|].
  rewrite Hσ'. vm_compute. reflexivity.
Defined.

End MoreExamples.
